(** * thumbgrid: the render scheduler, the thumbnail service, the worker pool
      and the grid

    A shallow embedding of the repository:
    - [term]:    internal/term/scheduler.go  (the Render Scheduler),
    - [thumb]:   internal/thumb/service.go   (Generate / GenerateRect),
    - [grid]:    cmd/thumbgrid/main.go       (the thumbnail worker pool of runGridTUI),
    - [gostd]:   the functions of Go's strings, path/filepath and
                 encoding/base64 that the program calls on byte strings,
    - [backend]: internal/term/term.go and kitty.go (Detect, New, the renderers),
    - [cli]:     cmd/thumbgrid/main.go       (filters, candidates, the layout,
                 the cursor and the input loop of runGridTUI).

    In [term], [thumb] and [grid] Go's [int] values are only compared and
    are modelled as [Z]; in [cli], where the program computes with them,
    they are 64-bit integers with their wrap-around written out.  The
    [atomic.Uint64] generation counter is a [Z] modulo 2^64, [float64] is
    Rocq's binary64 primitive float, channels are bounded FIFO lists, and
    Go maps are stdpp's [gmap] / [gset]. *)

From Stdlib Require Import ZArith String Ascii List Floats Lia.
From Stdlib Require Import DecimalString DecimalZ DecimalPos.
From stdpp Require Import gmap strings list.

#[local] Open Scope Z_scope.

(** Result of one atomic action of a goroutine: it completes, it cannot
    proceed yet (a blocking channel operation), or the runtime panics. *)
Inductive outcome (A : Type) : Type :=
| Next (a : A)
| Blocked
| Panic.
Arguments Next {A} a.
Arguments Blocked {A}.
Arguments Panic {A}.

(* ===================================================================== *)
(** ** internal/term: the Render Scheduler *)
(* ===================================================================== *)

Module term.

(** The two implementations of the [Renderer] interface. *)
Inductive Renderer : Type :=
| kittyRenderer
| noopRenderer.

Definition Name (rd : Renderer) : string :=
  match rd with
  | kittyRenderer => "kitty"
  | noopRenderer => "none"
  end.

(** [type DrawReq struct { Path string; X, Y, W, H int; done chan struct{}; gen uint64 }].
    A channel value is either nil ([None]) or the identity of an allocated
    channel. *)
Module DrawReq.
Record t : Type := mk {
  Path : string;
  X : Z;
  Y : Z;
  W : Z;
  H : Z;
  done : option nat;
  gen : Z
}.
End DrawReq.

#[global] Instance DrawReq_eq_dec : EqDecision DrawReq.t.
Proof. solve_decision. Defined.

(** What the consumer did with a request it dequeued. *)
Inductive handled : Type :=
| Drew (q : DrawReq.t)        (* r.Draw was called *)
| Stale (q : DrawReq.t)       (* req.gen != s.gen.Load(): dropped *)
| NoRenderer (q : DrawReq.t)  (* tag current but s.r == nil *)
| Signalled (q : DrawReq.t).  (* drain barrier: close(req.done) *)

Definition request_of (a : handled) : DrawReq.t :=
  match a with
  | Drew q | Stale q | NoRenderer q | Signalled q => q
  end.

(** [type Scheduler struct { r Renderer; queue chan DrawReq; quit chan struct{}; gen atomic.Uint64 }]
    together with the state of the things it points to: the content and
    capacity of the buffered channel [queue], whether [quit] is closed, the
    [done] channels allocated by [Drain], and the consumer goroutine.  The
    fields [draws] and [history] record the calls made on the Renderer and
    the consumer's actions, oldest first. *)
Module Scheduler.
Record t : Type := mk {
  r : option Renderer;
  queue : list DrawReq.t;
  queue_cap : nat;
  quit : bool;
  gen : Z;
  chans : nat;               (* done channels allocated so far: 0 .. chans-1 *)
  closed : gset nat;         (* done channels that are closed *)
  exited : bool;             (* loop() has returned *)
  draws : list DrawReq.t;    (* requests passed to r.Draw *)
  history : list handled     (* every request received by loop() *)
}.
End Scheduler.

Import Scheduler.

Definition uint64_modulus : Z := 2 ^ 64.

Definition set_queue (q : list DrawReq.t) (s : Scheduler.t) : Scheduler.t :=
  Scheduler.mk (r s) q (queue_cap s) (quit s) (gen s) (chans s) (closed s)
               (exited s) (draws s) (history s).

(** [func NewScheduler(r Renderer, buf int) *Scheduler] *)
Definition NewScheduler (rd : option Renderer) (buf : Z) : Scheduler.t :=
  let buf := if buf <=? 0 then 64 else buf in
  Scheduler.mk rd [] (Z.to_nat buf) false 1 0%nat ∅ false [] [].

(** One iteration of [loop] taking the [case req := <-s.queue] branch.
    The iteration is one action: the counter it compares the tag with is
    the one read by the iteration that received the request. *)
Definition loop_recv (s : Scheduler.t) : outcome Scheduler.t :=
  if exited s then Blocked else
  match queue s with
  | [] => Blocked
  | req :: rest =>
      match DrawReq.done req with
      | Some d =>
          if bool_decide (d ∈ closed s) then Panic
          else Next (Scheduler.mk (r s) rest (queue_cap s) (quit s) (gen s)
                       (chans s) ({[d]} ∪ closed s) (exited s) (draws s)
                       (history s ++ [Signalled req]))
      | None =>
          if negb (DrawReq.gen req =? gen s)
          then Next (Scheduler.mk (r s) rest (queue_cap s) (quit s) (gen s)
                       (chans s) (closed s) (exited s) (draws s)
                       (history s ++ [Stale req]))
          else match r s with
               | Some _ =>
                   Next (Scheduler.mk (r s) rest (queue_cap s) (quit s) (gen s)
                           (chans s) (closed s) (exited s) (draws s ++ [req])
                           (history s ++ [Drew req]))
               | None =>
                   Next (Scheduler.mk (r s) rest (queue_cap s) (quit s) (gen s)
                           (chans s) (closed s) (exited s) (draws s)
                           (history s ++ [NoRenderer req]))
               end
      end
  end.

(** One iteration of [loop] taking the [case <-s.quit] branch: return. *)
Definition loop_quit (s : Scheduler.t) : outcome Scheduler.t :=
  if exited s then Blocked else
  if quit s
  then Next (Scheduler.mk (r s) (queue s) (queue_cap s) (quit s) (gen s)
               (chans s) (closed s) true (draws s) (history s))
  else Blocked.

(** [func (s *Scheduler) Enqueue(path string, x, y, w, h int)]:
    a [select] with a [default] branch, so the call always returns; the
    function has no result.  The load of the counter and the send are one
    action ([runGridTUI] calls NextFrame and Enqueue from one goroutine). *)
Definition Enqueue (path : string) (x y w h : Z) (s : Scheduler.t) : Scheduler.t :=
  let g := gen s in
  if (length (queue s) <? queue_cap s)%nat
  then set_queue (queue s ++ [DrawReq.mk path x y w h None g]) s
  else s.

(** [func (s *Scheduler) Drain()], first half:
    [done := make(chan struct{}); s.queue <- DrawReq{done: done, gen: s.gen.Load()}].
    The send has no [default]: it blocks while the buffer is full. *)
Definition barrier (d : nat) (g : Z) : DrawReq.t :=
  DrawReq.mk "" 0 0 0 0 (Some d) g.

Definition Drain_send (s : Scheduler.t) : outcome (nat * Scheduler.t) :=
  let done := chans s in
  if (length (queue s) <? queue_cap s)%nat
  then Next (done,
             Scheduler.mk (r s) (queue s ++ [barrier done (gen s)]) (queue_cap s)
               (quit s) (gen s) (S (chans s)) (closed s) (exited s) (draws s)
               (history s))
  else Blocked.

(** [Drain], second half: [<-done] returns once the channel is closed. *)
Definition Drain_wait (done : nat) (s : Scheduler.t) : outcome Scheduler.t :=
  if bool_decide (done ∈ closed s) then Next s else Blocked.

(** [func (s *Scheduler) NextFrame()]: [s.gen.Add(1)] on a uint64. *)
Definition NextFrame (s : Scheduler.t) : Scheduler.t :=
  Scheduler.mk (r s) (queue s) (queue_cap s) (quit s)
    ((gen s + 1) mod uint64_modulus) (chans s) (closed s) (exited s)
    (draws s) (history s).

(** [func (s *Scheduler) Close()]: closing a closed channel panics; both
    renderers' [Close] do nothing. *)
Definition Close (s : Scheduler.t) : outcome Scheduler.t :=
  if quit s then Panic
  else Next (Scheduler.mk (r s) (queue s) (queue_cap s) true (gen s)
               (chans s) (closed s) (exited s) (draws s) (history s)).

(** The atomic actions of the goroutines that share one scheduler. *)
Inductive event : Type :=
| EvEnqueue (path : string) (x y w h : Z)
| EvNextFrame
| EvDrainSend
| EvDrainWait (done : nat)
| EvLoopRecv
| EvLoopQuit
| EvClose.

Definition step (e : event) (s : Scheduler.t) : outcome Scheduler.t :=
  match e with
  | EvEnqueue path x y w h => Next (Enqueue path x y w h s)
  | EvNextFrame => Next (NextFrame s)
  | EvDrainSend =>
      match Drain_send s with
      | Next (_, s') => Next s'
      | Blocked => Blocked
      | Panic => Panic
      end
  | EvDrainWait d => Drain_wait d s
  | EvLoopRecv => loop_recv s
  | EvLoopQuit => loop_quit s
  | EvClose => Close s
  end.

(** An interleaving is a list of actions; it is an execution when every
    action could proceed in the state it met. *)
Fixpoint run (evs : list event) (s : Scheduler.t) : option Scheduler.t :=
  match evs with
  | [] => Some s
  | e :: evs' =>
      match step e s with
      | Next s' => run evs' s'
      | _ => None
      end
  end.

(** How many times [NextFrame] is called in an interleaving. *)
Fixpoint count_NextFrame (evs : list event) : Z :=
  match evs with
  | [] => 0
  | EvNextFrame :: evs' => 1 + count_NextFrame evs'
  | _ :: evs' => count_NextFrame evs'
  end.

(** The [done] channels of the drain barriers waiting in the queue. *)
Definition pending_barriers (s : Scheduler.t) : list nat :=
  omap DrawReq.done (queue s).

(** What holds of every state reached from [NewScheduler]: a barrier in the
    queue carries an allocated channel that is still open, no two barriers
    share a channel, only allocated channels are closed, and the counter is
    a uint64. *)
Definition wf (s : Scheduler.t) : Prop :=
  (∀ d, d ∈ pending_barriers s → (d < chans s)%nat ∧ d ∉ closed s)
  ∧ (∀ d, d ∈ closed s → (d < chans s)%nat)
  ∧ NoDup (pending_barriers s)
  ∧ 0 ≤ gen s < uint64_modulus
  ∧ (length (queue s) ≤ queue_cap s)%nat.

(** Where a barrier [b] on channel [d] stands, relative to the requests
    [q1] that were in the queue when it was sent and to the requests [h1]
    the consumer had received by then: still queued behind the rest of
    [q1], or received after all of [q1]. *)
Definition barrier_waiting (h1 q1 : list DrawReq.t) (b : DrawReq.t) (d : nat)
    (s : Scheduler.t) : Prop :=
  ∃ served todo later,
    q1 = served ++ todo
    ∧ queue s = todo ++ b :: later
    ∧ map request_of (history s) = h1 ++ served
    ∧ d ∉ closed s.

Definition barrier_signalled (h1 q1 : list DrawReq.t) (b : DrawReq.t) (d : nat)
    (s : Scheduler.t) : Prop :=
  ∃ before more,
    history s = before ++ Signalled b :: more
    ∧ map request_of before = h1 ++ q1
    ∧ d ∈ closed s.

(** A scheduler over the kitty renderer with room for two requests, used
    to run the properties below on concrete interleavings. *)
Definition demo : Scheduler.t := NewScheduler (Some kittyRenderer) 2.

Definition demo_req (path : string) (g : Z) : DrawReq.t :=
  DrawReq.mk path 1 1 4 4 None g.

(** [demo] after one Enqueue and one NextFrame; then after Drain has sent
    its barrier; then after the consumer has run two iterations. *)
Definition demo_s1 : Scheduler.t := NextFrame (Enqueue "a.png" 1 1 4 4 demo).

Definition demo_s2 : Scheduler.t :=
  match Drain_send demo_s1 with
  | Next (_, s) => s
  | _ => demo_s1
  end.

Definition demo_s3 : Scheduler.t :=
  match run [EvLoopRecv; EvLoopRecv] demo_s2 with
  | Some s => s
  | None => demo_s2
  end.

(** [demo_s2] after one iteration of the consumer: the barrier of Drain is
    at the head of the queue. *)
Definition demo_barrier_head : Scheduler.t :=
  match run [EvLoopRecv] demo_s2 with
  | Some s => s
  | None => demo_s2
  end.

(** [demo] after two requests of the current frame were queued and
    received, one after the other. *)
Definition demo_two_draws : Scheduler.t :=
  match run [EvEnqueue "a.png" 1 1 4 4; EvLoopRecv; EvEnqueue "b.png" 1 1 4 4; EvLoopRecv]
          demo with
  | Some s => s
  | None => demo
  end.

(** [s] after the consumer has dropped the stale request [req] at the head
    of the queue, leaving [rest]. *)
Definition dropped_stale (req : DrawReq.t) (rest : list DrawReq.t) (s : Scheduler.t)
  : Scheduler.t :=
  Scheduler.mk (r s) rest (queue_cap s) (quit s) (gen s) (chans s) (closed s)
    (exited s) (draws s) (history s ++ [Stale req]).

(** [s] after the consumer has received the barrier [b] on channel [d] at
    the head of the queue, leaving [rest]. *)
Definition signalled (b : DrawReq.t) (d : nat) (rest : list DrawReq.t) (s : Scheduler.t)
  : Scheduler.t :=
  Scheduler.mk (r s) rest (queue_cap s) (quit s) (gen s) (chans s) ({[d]} ∪ closed s)
    (exited s) (draws s) (history s ++ [Signalled b]).

(** The request of an action of the consumer that called the Renderer's
    Draw. *)
Definition drawn_of (a : handled) : option DrawReq.t :=
  match a with
  | Drew q => Some q
  | _ => None
  end.

(** The requests the queue has accepted so far, in the order of their
    acceptance: those the consumer has received, then those that wait. *)
Definition accepted (s : Scheduler.t) : list DrawReq.t :=
  map request_of (history s) ++ queue s.

End term.

(* ===================================================================== *)
(** ** internal/thumb: the generation service *)
(* ===================================================================== *)

Module thumb.

#[local] Set Warnings "-inexact-float".

(** The diagnostic output of [debugf] (standard error, only when
    THUMBGRID_DEBUG is set) is not modelled. *)

(** What [os.Stat] reports and the code reads: [info.ModTime().Unix()] and
    [info.Size()]. *)
Record FileInfo : Type := mkFileInfo {
  ModTime : Z;
  Size : Z
}.

(** One run of an external program: whether [cmd.Run()] returned nil (the
    program was started and exited with code 0), what it printed, and the
    regular files it left behind.  A program is any function of its
    arguments and of the files it finds. *)
Record ProcResult : Type := mkProcResult {
  exit_ok : bool;
  stdout : string;
  files_after : gmap string FileInfo
}.

Definition Executable : Type :=
  list string → gmap string FileInfo → ProcResult.

(** The part of the operating system the package talks to. *)
Record World : Type := mkWorld {
  files : gmap string FileInfo;       (* regular files, by path *)
  dirs : gmap string FileInfo;        (* directories, by path *)
  locked : gset string;               (* paths where mkdir is refused *)
  readonly : gset string;             (* directories where no file can be created *)
  env : gmap string string;           (* os.Getenv *)
  programs : gmap string Executable;  (* executables on the search path *)
  tmp_next : nat;                     (* source of os.CreateTemp's random names *)
  procs : list (list string)          (* argv of every process started, oldest first *)
}.

Definition set_files (f : gmap string FileInfo) (w : World) : World :=
  mkWorld f (dirs w) (locked w) (readonly w) (env w) (programs w) (tmp_next w) (procs w).

(** Go's [error] values that the package produces or passes on. *)
Inductive error : Type :=
| ErrNotExist (path : string)      (* os.Stat failed *)
| ErrMkdir (path : string)         (* os.MkdirAll failed, at this path *)
| ErrExec (name : string)          (* cmd.Run / cmd.Output failed *)
| ErrNoDuration                    (* "no duration" *)
| ErrBadDuration (s : string)      (* "bad duration: %q" *)
| ErrNoTool.                       (* "no image tool available (...)" *)

(** The pair [(string, error)] returned by [Generate] and [GenerateRect]:
    [(out, nil)] or [("", err)]. *)
Inductive result : Type :=
| Ok (path : string)
| Err (e : error).

(** A call returns a result in a new world, or the goroutine panics. *)
Inductive call : Type :=
| Done (res : result) (w : World)
| Crash.

(** A block of a function body either returns from the function or falls
    through to the statement after it. *)
Inductive flow : Type :=
| Returned (c : call)
| FallThrough (w : World).

(** Functions of Go's standard library that the package calls and whose
    results it only passes on or compares. *)
Class GoLib : Type := {
  sha1_hex : string → string;             (* hex.EncodeToString(sha1.Sum(s)) *)
  filepath_Abs : string → string;         (* a, _ := filepath.Abs(p) *)
  filepath_Join : string → string → string;
  filepath_Ext : string → string;
  strings_ToLower : string → string;
  strings_TrimSpace : string → string;
  strconv_ParseFloat : string → option float;   (* None: perr != nil *)
  Sprintf_f3 : float → string             (* fmt.Sprintf("%.3f", x) *)
}.

(** [strconv.Itoa] and [strconv.FormatInt(_, 10)]. *)
Definition Itoa (z : Z) : string :=
  DecimalString.NilZero.string_of_int (Z.to_int z).

(** [filepath.IsAbs] on Unix. *)
Definition filepath_IsAbs (p : string) : bool :=
  match p with
  | String "/"%char _ => true
  | _ => false
  end.

Definition os_Getenv (k : string) (w : World) : string :=
  default "" (env w !! k).

Definition os_Stat (p : string) (w : World) : option FileInfo :=
  match files w !! p with
  | Some i => Some i
  | None => dirs w !! p
  end.

(** [os.IsPathSeparator] on Unix. *)
Definition IsPathSeparator (c : ascii) : bool := Ascii.eqb c "/".

(** [for i >= 0 && f(path[i]) { i-- }], on the bytes of the path read
    from its end. *)
Fixpoint skip (f : ascii → bool) (back : list ascii) : list ascii :=
  match back with
  | c :: back' => if f c then skip f back' else back
  | [] => []
  end.

(** The parent that [os.MkdirAll] makes sure of before it makes [path]:
    [path[:i+1]], where [i] is found by going back over the trailing
    separators of [path] and then over its last element.  The operating
    system resolves that name without its trailing separators, and that is
    the name used here.  [None]: nothing precedes the last element, or only
    the root, which always exists. *)
Definition MkdirAll_parent (path : string) : option string :=
  let back := rev (list_ascii_of_string path) in
  let back := skip IsPathSeparator back in
  let back := skip (λ c, negb (IsPathSeparator c)) back in
  match skip IsPathSeparator back with
  | [] => None
  | parent => Some (string_of_list_ascii (rev parent))
  end.

(** [os.Mkdir], called once the parent exists: refused where something
    exists already and at a locked path.  The pair is Go's error, if any,
    and the world afterwards. *)
Definition os_Mkdir (path : string) (w : World) : option error * World :=
  match os_Stat path w with
  | Some _ => (Some (ErrMkdir path), w)
  | None =>
      if bool_decide (path ∈ locked w) then (Some (ErrMkdir path), w)
      else (None, mkWorld (files w) (<[path := mkFileInfo 0 0]> (dirs w)) (locked w)
                    (readonly w) (env w) (programs w) (tmp_next w) (procs w))
  end.

(** [os.MkdirAll]: nothing to do for an existing directory, refused over a
    regular file; otherwise the parent is made sure of by a recursive call
    and then [path] is made.  The directories made before a failure stay.
    The parent is shorter than the path, and [depth] bounds the
    recursion. *)
Fixpoint MkdirAll_rec (depth : nat) (path : string) (w : World) : option error * World :=
  match dirs w !! path with
  | Some _ => (None, w)
  | None =>
      match files w !! path with
      | Some _ => (Some (ErrMkdir path), w)
      | None =>
          let '(err, w1) :=
            match depth, MkdirAll_parent path with
            | S depth', Some parent => MkdirAll_rec depth' parent w
            | _, _ => (None, w)
            end in
          match err with
          | Some e => (Some e, w1)
          | None =>
              match os_Mkdir path w1 with
              | (None, w2) => (None, w2)
              | (Some e, w2) =>
                  (* dir, err1 := Lstat(path); if err1 == nil && dir.IsDir() *)
                  match dirs w2 !! path with
                  | Some _ => (None, w2)
                  | None => (Some e, w2)
                  end
              end
          end
      end
  end.

Definition os_MkdirAll (path : string) (w : World) : option error * World :=
  MkdirAll_rec (String.length path) path w.

(** [os.Rename(old, new)], its error discarded. *)
Definition os_Rename (old new : string) (w : World) : World :=
  match files w !! old with
  | Some i =>
      match dirs w !! new with
      | Some _ => w
      | None => set_files (<[new := i]> (delete old (files w))) w
      end
  | None => w
  end.

(** [os.Remove(p)], its error discarded. *)
Definition os_Remove (p : string) (w : World) : World :=
  set_files (delete p (files w)) w.

(** [exec.LookPath(name)] succeeds. *)
Definition hasExec (name : string) (w : World) : bool :=
  match programs w !! name with
  | Some _ => true
  | None => false
  end.

(** [exec.Command(name, args...)] followed by [Run] or [Output]: whether the
    error is nil, the standard output, and the world afterwards.  A run
    replaces the regular files by those the program leaves; the directories,
    the permissions, the environment and the search path are those from
    before the run. *)
Definition exec_Run (name : string) (args : list string) (w : World)
  : bool * string * World :=
  match programs w !! name with
  | None => (false, "", w)
  | Some prog =>
      let pr := prog args (files w) in
      (exit_ok pr, stdout pr,
       mkWorld (files_after pr) (dirs w) (locked w) (readonly w) (env w)
         (programs w) (tmp_next w) (procs w ++ [name :: args]))
  end.

Section WithGoLib.
Context {lib : GoLib}.

Definition temp_name (dir : string) (n : nat) : string :=
  filepath_Join dir ("thumbgrid." +:+ Itoa (Z.of_nat n) +:+ ".png").

(** The first of [tries] consecutive random names that is not taken. *)
Fixpoint free_temp (tries : nat) (dir : string) (n : nat) (w : World) : option nat :=
  match tries with
  | O => None
  | S tries' =>
      match os_Stat (temp_name dir n) w with
      | None => Some n
      | Some _ => free_temp tries' dir (S n) w
      end
  end.

(** [f, _ := os.CreateTemp(dir, "thumbgrid.*.png"); tmp := f.Name(); _ = f.Close()].
    The error is discarded, so when no file can be created [f] is nil and
    [f.Name()] panics: that is [None]. *)
Definition os_CreateTemp (dir : string) (w : World) : option (string * World) :=
  match dirs w !! dir with
  | None => None
  | Some _ =>
      if bool_decide (dir ∈ readonly w) then None
      else match free_temp (Z.to_nat 10000) dir (tmp_next w) w with
           | None => None
           | Some n =>
               Some (temp_name dir n,
                     mkWorld (<[temp_name dir n := mkFileInfo 0 0]> (files w)) (dirs w)
                       (locked w) (readonly w) (env w) (programs w) (S n) (procs w))
           end
  end.

Definition cacheVersion : string := "ffmpeg-v1".

(** [func cacheKey(path string, size int, mt time.Time, fsz int64) string];
    [cacheKey_input] is everything written to the hash. *)
Definition cacheKey_input (path : string) (size : Z) (mt fsz : Z) : string :=
  path +:+ "|" +:+ Itoa size +:+ "|" +:+ Itoa mt +:+ "|" +:+ Itoa fsz +:+ "|" +:+ cacheVersion.

Definition cacheKey (path : string) (size : Z) (mt fsz : Z) : string :=
  sha1_hex (cacheKey_input path size mt fsz).

(** [func cacheKeyRect(path string, w, h int, mt time.Time, fsz int64) string] *)
Definition cacheKeyRect_input (path : string) (w h : Z) (mt fsz : Z) : string :=
  path +:+ "|" +:+ Itoa w +:+ "x" +:+ Itoa h +:+ "|" +:+ Itoa mt +:+ "|" +:+ Itoa fsz
       +:+ "|" +:+ cacheVersion.

Definition cacheKeyRect (path : string) (w h : Z) (mt fsz : Z) : string :=
  sha1_hex (cacheKeyRect_input path w h mt fsz).

(** [func max(a, b int) int] *)
Definition max (a b : Z) : Z := if a >? b then a else b.

(** [func srcFrameSuffix(path string) string] *)
Definition srcFrameSuffix (path : string) : string :=
  let ext := strings_ToLower (filepath_Ext path) in
  if existsb (String.eqb ext) [".mp4"; ".mov"; ".mkv"; ".webm"; ".avi"; ".m4v"]
  then "[0]" else "".

(** [func isVideo(path string) bool] *)
Definition isVideo (path : string) : bool :=
  negb (String.eqb (srcFrameSuffix path) "").

(** [func probeDuration(abs string) (float64, error)] *)
Definition probeDuration (abs : string) (w : World) : (float + error) * World :=
  match exec_Run "ffprobe"
          ["-v"; "error"; "-select_streams"; "v:0"; "-show_entries"; "format=duration";
           "-of"; "default=nokey=1:noprint_wrappers=1"; abs] w with
  | (false, _, w1) => (inr (ErrExec "ffprobe"), w1)
  | (true, out, w1) =>
      let s := strings_TrimSpace out in
      if String.eqb s "" || String.eqb s "N/A" then (inr ErrNoDuration, w1)
      else match strconv_ParseFloat s with
           | None => (inr (ErrBadDuration s), w1)
           | Some d =>
               if negb (0 <? d)%float then (inr (ErrBadDuration s), w1)
               else (inl d, w1)
           end
  end.

(** The body of [if err == nil && dur > 0.0 { ... }] in [ffmpegGrab]: the
    seek offset for a probed duration. *)
Definition seek_of_duration (dur : float) : float :=
  let s := (dur * 0.10)%float in
  let s := if (s <? 0.5)%float then 0.5%float else s in
  let s := if (dur - 0.1 <? s)%float then (dur - 0.1)%float else s in
  s.

(** [seek := 2.0; if hasExec("ffprobe") { ... }] in [ffmpegGrab]. *)
Definition ffmpegGrab_seek (abs : string) (w : World) : float * World :=
  if hasExec "ffprobe" w then
    match probeDuration abs w with
    | (inl dur, w1) =>
        if (0 <? dur)%float then (seek_of_duration dur, w1) else (2.0%float, w1)
    | (inr _, w1) => (2.0%float, w1)
    end
  else (2.0%float, w).

(** [func ffmpegGrab(abs string, w, h int, out string) error]: [true] is a
    nil error. *)
Definition ffmpegGrab (abs : string) (w h : Z) (out : string) (wd : World)
  : bool * World :=
  let '(w, h) :=
    if (w <=? 0) || (h <=? 0) then
      let size := max w h in
      let size := if size <=? 0 then 256 else size in
      (size, size)
    else (w, h) in
  let '(seek, wd1) := ffmpegGrab_seek abs wd in
  let seekStr := Sprintf_f3 seek in
  let vf := "scale=" +:+ Itoa w +:+ ":" +:+ Itoa h +:+ ":force_original_aspect_ratio=decrease,"
            +:+ "pad=" +:+ Itoa w +:+ ":" +:+ Itoa h
            +:+ ":(ow-iw)/2:(oh-ih)/2:color=black@0,format=rgba" in
  let '(ok, _, wd2) :=
    exec_Run "ffmpeg"
      ["-v"; "error"; "-ss"; seekStr; "-i"; abs; "-frames:v"; "1"; "-vf"; vf; "-y"; out]
      wd1 in
  (ok, wd2).

(** [fmt.Sprintf("%dx%d", w, h)] *)
Definition box (w h : Z) : string := Itoa w +:+ "x" +:+ Itoa h.

(** [Generate], lines 45-57: the ffmpeg strategy. *)
Definition Generate_ffmpeg (abs : string) (size : Z) (cacheDir out : string) (w : World)
  : flow :=
  if isVideo abs && hasExec "ffmpeg" w
     && negb (String.eqb (strings_ToLower (os_Getenv "THUMBGRID_VIDEO_TOOL" w)) "magick")
  then
    match os_CreateTemp cacheDir w with
    | None => Returned Crash
    | Some (tmp, w1) =>
        match ffmpegGrab abs size size tmp w1 with
        | (true, w2) => Returned (Done (Ok out) (os_Rename tmp out w2))
        | (false, w2) => FallThrough (os_Remove tmp w2)
        end
    end
  else FallThrough w.

(** [Generate], lines 59-72: the vipsthumbnail strategy. *)
Definition Generate_vips (abs : string) (size : Z) (cacheDir out : string) (w : World)
  : flow :=
  if negb (isVideo abs) && hasExec "vipsthumbnail" w
     && negb (String.eqb (strings_ToLower (os_Getenv "THUMBGRID_IMAGE_TOOL" w)) "magick")
  then
    match os_CreateTemp cacheDir w with
    | None => Returned Crash
    | Some (tmp, w1) =>
        match exec_Run "vipsthumbnail" [abs; "-s"; Itoa size; "-o"; tmp] w1 with
        | (true, _, w2) => Returned (Done (Ok out) (os_Rename tmp out w2))
        | (false, _, w2) => FallThrough (os_Remove tmp w2)
        end
    end
  else FallThrough w.

(** The argument list of both [magick] invocations. *)
Definition magick_args (abs : string) (w h : Z) (tmp : string) : list string :=
  [abs +:+ srcFrameSuffix abs; "-thumbnail"; box w h; "-background"; "none";
   "-gravity"; "center"; "-extent"; box w h; tmp].

(** [Generate], lines 74-95: the magick strategy. *)
Definition Generate_magick (abs : string) (size : Z) (cacheDir out : string) (w : World)
  : flow :=
  if hasExec "magick" w then
    match os_CreateTemp cacheDir w with
    | None => Returned Crash
    | Some (tmp, w1) =>
        match exec_Run "magick" (magick_args abs size size tmp) w1 with
        | (true, _, w2) => Returned (Done (Ok out) (os_Rename tmp out w2))
        | (false, _, w2) => FallThrough (os_Remove tmp w2)
        end
    end
  else FallThrough w.

(** [func Generate(path string, size int, cacheDir string) (string, error)] *)
Definition Generate (path : string) (size : Z) (cacheDir : string) (w : World) : call :=
  let abs := if filepath_IsAbs path then path else filepath_Abs path in
  match os_Stat abs w with
  | None => Done (Err (ErrNotExist abs)) w
  | Some info =>
      let key := cacheKey abs size (ModTime info) (Size info) in
      match os_MkdirAll cacheDir w with
      | (Some err, w) => Done (Err err) w
      | (None, w) =>
          let out := filepath_Join cacheDir (key +:+ ".png") in
          match os_Stat out w with
          | Some _ => Done (Ok out) w
          | None =>
              match Generate_ffmpeg abs size cacheDir out w with
              | Returned c => c
              | FallThrough w =>
                  match Generate_vips abs size cacheDir out w with
                  | Returned c => c
                  | FallThrough w =>
                      match Generate_magick abs size cacheDir out w with
                      | Returned c => c
                      | FallThrough w => Done (Err ErrNoTool) w
                      end
                  end
              end
          end
      end
  end.

(** [GenerateRect], lines 140-152: the ffmpeg strategy. *)
Definition GenerateRect_ffmpeg (abs : string) (w h : Z) (cacheDir out : string) (wd : World)
  : flow :=
  if isVideo abs && hasExec "ffmpeg" wd
     && negb (String.eqb (strings_ToLower (os_Getenv "THUMBGRID_VIDEO_TOOL" wd)) "magick")
  then
    match os_CreateTemp cacheDir wd with
    | None => Returned Crash
    | Some (tmp, w1) =>
        match ffmpegGrab abs w h tmp w1 with
        | (true, w2) => Returned (Done (Ok out) (os_Rename tmp out w2))
        | (false, w2) => FallThrough (os_Remove tmp w2)
        end
    end
  else FallThrough wd.

(** [GenerateRect], lines 153-174: the magick strategy. *)
Definition GenerateRect_magick (abs : string) (w h : Z) (cacheDir out : string) (wd : World)
  : flow :=
  if hasExec "magick" wd then
    match os_CreateTemp cacheDir wd with
    | None => Returned Crash
    | Some (tmp, w1) =>
        match exec_Run "magick" (magick_args abs w h tmp) w1 with
        | (true, _, w2) => Returned (Done (Ok out) (os_Rename tmp out w2))
        | (false, _, w2) => FallThrough (os_Remove tmp w2)
        end
    end
  else FallThrough wd.

(** [func GenerateRect(path string, w, h int, cacheDir string) (string, error)] *)
Definition GenerateRect (path : string) (w h : Z) (cacheDir : string) (wd : World) : call :=
  if (w <=? 0) || (h <=? 0) then Generate path (max w h) cacheDir wd
  else
    let abs := if filepath_IsAbs path then path else filepath_Abs path in
    match os_Stat abs wd with
    | None => Done (Err (ErrNotExist abs)) wd
    | Some info =>
        let key := cacheKeyRect abs w h (ModTime info) (Size info) in
        match os_MkdirAll cacheDir wd with
        | (Some err, wd) => Done (Err err) wd
        | (None, wd) =>
            let out := filepath_Join cacheDir (key +:+ ".png") in
            match os_Stat out wd with
            | Some _ => Done (Ok out) wd
            | None =>
                match GenerateRect_ffmpeg abs w h cacheDir out wd with
                | Returned c => c
                | FallThrough wd =>
                    match GenerateRect_magick abs w h cacheDir out wd with
                    | Returned c => c
                    | FallThrough wd => Generate path (max w h) cacheDir wd
                    end
                end
            end
        end
    end.

(** [abs] as computed in the first lines of [Generate] and [GenerateRect]. *)
Definition source_path (path : string) : string :=
  if filepath_IsAbs path then path else filepath_Abs path.

(** How a strategy block ends once its executable has run with a nil
    error ([ok]) or not, leaving the world [w2]: publish and return, or
    discard the temporary file and go on with the next statement. *)
Definition attempt_outcome (ok : bool) (tmp out : string) (w2 : World) : flow :=
  if ok then Returned (Done (Ok out) (os_Rename tmp out w2))
  else FallThrough (os_Remove tmp w2).



(** The conditions under which the ffmpeg and the vipsthumbnail strategies
    are attempted. *)
Definition ffmpeg_chosen (abs : string) (w : World) : bool :=
  isVideo abs && hasExec "ffmpeg" w
  && negb (String.eqb (strings_ToLower (os_Getenv "THUMBGRID_VIDEO_TOOL" w)) "magick").

Definition vips_chosen (abs : string) (w : World) : bool :=
  negb (isVideo abs) && hasExec "vipsthumbnail" w
  && negb (String.eqb (strings_ToLower (os_Getenv "THUMBGRID_IMAGE_TOOL" w)) "magick").

(** The path of the cache entry that [Generate] looks up and publishes
    for a source with the given [FileInfo]. *)
Definition square_entry (abs : string) (size : Z) (cacheDir : string) (info : FileInfo)
  : string :=
  filepath_Join cacheDir (cacheKey abs size (ModTime info) (Size info) +:+ ".png").

(** The path of the cache entry that [GenerateRect] looks up and publishes
    when both dimensions are positive. *)
Definition rect_entry (abs : string) (w h : Z) (cacheDir : string) (info : FileInfo)
  : string :=
  filepath_Join cacheDir (cacheKeyRect abs w h (ModTime info) (Size info) +:+ ".png").

End WithGoLib.

Definition is_digit (c : ascii) : bool :=
  ((48 <=? N_of_ascii c) && (N_of_ascii c <=? 57))%N.

Fixpoint all_digits (s : string) : bool :=
  match s with
  | EmptyString => true
  | String c rest => is_digit c && all_digits rest
  end.

(** The byte [c] does not occur in [s]. *)
Fixpoint char_free (c : ascii) (s : string) : bool :=
  match s with
  | EmptyString => true
  | String x rest => negb (Ascii.eqb x c) && char_free c rest
  end.

(** What a strategy block can do: crash, return [out] without an error, or
    fall through; the directories stay as they are. *)
Definition block_ok (out : string) (w : World) (f : flow) : Prop :=
  match f with
  | Returned (Done res w') => res = Ok out ∧ dirs w' = dirs w
  | Returned Crash => True
  | FallThrough w' => dirs w' = dirs w
  end.

(** *** The seek offset as the specification words it, and as amended *)

Definition fmin (a b : float) : float := if (b <? a)%float then b else a.
Definition fmax (a b : float) : float := if (a <? b)%float then b else a.

(** "max(0.5, min(0.10·D, D−0.1))" *)
Definition spec_seek (D : float) : float :=
  fmax 0.5 (fmin (0.10 * D) (D - 0.1)).

(** min(max(0.10·D, 0.5), D−0.1): the lower bound first, the upper bound last. *)
Definition amended_seek (D : float) : float :=
  fmin (fmax (D * 0.10) 0.5) (D - 0.1).

(** *** A concrete library and concrete worlds, to run the functions

    The theorems below hold for every [GoLib]; the stand-ins here only
    serve to evaluate the functions on examples.  The two entries of
    [demo_ParseFloat] are the values [strconv.ParseFloat] returns for those
    strings. *)

Definition demo_digest (s : string) : string :=
  Itoa (fold_left (λ h c, (h * 31 + Z.of_N (N_of_ascii c)) mod 2 ^ 32)
          (list_ascii_of_string s) 7).

Fixpoint last_dot_suffix (s : string) : string :=
  match s with
  | EmptyString => ""
  | String c rest =>
      match last_dot_suffix rest with
      | EmptyString => if Ascii.eqb c "." then s else ""
      | e => e
      end
  end.

Definition demo_Ext (p : string) : string :=
  let e := last_dot_suffix p in
  if existsb (Ascii.eqb "/") (list_ascii_of_string e) then "" else e.

Definition lower_ascii (c : ascii) : ascii :=
  let n := N_of_ascii c in
  if ((65 <=? n) && (n <=? 90))%N then ascii_of_N (n + 32) else c.

Fixpoint demo_ToLower (s : string) : string :=
  match s with
  | EmptyString => ""
  | String c rest => String (lower_ascii c) (demo_ToLower rest)
  end.

Fixpoint drop_space (l : list ascii) : list ascii :=
  match l with
  | c :: l' => if (N_of_ascii c <=? 32)%N then drop_space l' else l
  | [] => []
  end.

Definition demo_TrimSpace (s : string) : string :=
  string_of_list_ascii (rev (drop_space (rev (drop_space (list_ascii_of_string s))))).

Definition demo_ParseFloat (s : string) : option float :=
  if String.eqb s "10.0" then Some 10%float
  else if String.eqb s "0.3" then Some 0.3%float
  else None.

Definition demo_Sprintf_f3 (x : float) : string :=
  if (x =? 1)%float then "1.000" else if (x =? 2)%float then "2.000" else "0.200".

Definition demoLib : GoLib := {|
  sha1_hex := demo_digest;
  filepath_Abs := λ p, "/work/" +:+ p;
  filepath_Join := λ a b, a +:+ "/" +:+ b;
  filepath_Ext := demo_Ext;
  strings_ToLower := demo_ToLower;
  strings_TrimSpace := demo_TrimSpace;
  strconv_ParseFloat := demo_ParseFloat;
  Sprintf_f3 := demo_Sprintf_f3
|}.

(** Programs: one that exits with a non-zero code, one that writes the file
    named by its last argument and exits with 0, one that exits with 0 and
    leaves no file under that name, and one that prints a fixed text. *)
Definition prog_fails : Executable :=
  λ _ fs, mkProcResult false "" fs.

Definition prog_writes : Executable :=
  λ args fs, mkProcResult true "" (<[List.last args "" := mkFileInfo 1700000100 512]> fs).

Definition prog_unlinks : Executable :=
  λ args fs, mkProcResult true "" (delete (List.last args "") fs).

Definition prog_prints (out : string) : Executable :=
  λ _ fs, mkProcResult true out fs.

(** One picture and one clip on disk, no cache directory yet. *)
Definition demo_files : gmap string FileInfo :=
  <["/pics/a.png" := mkFileInfo 1700000000 4096]>
    (<["/pics/clip.mp4" := mkFileInfo 1700000001 90000]> ∅).

Definition demo_world (progs : gmap string Executable) : World :=
  mkWorld demo_files ∅ ∅ ∅ ∅ progs 0 [].

Definition world_magick_fails : World := demo_world (<["magick" := prog_fails]> ∅).
Definition world_magick_writes : World := demo_world (<["magick" := prog_writes]> ∅).
Definition world_magick_unlinks : World := demo_world (<["magick" := prog_unlinks]> ∅).

(** A world with [ffprobe] printing [text] and an [ffmpeg] that works. *)
Definition world_probe (text : string) : World :=
  demo_world (<["ffprobe" := prog_prints text]> (<["ffmpeg" := prog_writes]> ∅)).

(** A [magick] that only manages the 180x180 box. *)
Definition prog_square_only : Executable :=
  λ args fs,
    if bool_decide ("180x180" ∈ args)
    then mkProcResult true "" (<[List.last args "" := mkFileInfo 1700000100 512]> fs)
    else mkProcResult false "" fs.

Definition world_square_only : World := demo_world (<["magick" := prog_square_only]> ∅).

(** [world_square_only] once the cache directory exists, and once the
    rectangular [magick] attempt has failed in it. *)
Definition world_square_only_1 : World :=
  (os_MkdirAll "/cache" world_square_only).2.

Definition world_square_only_2 : World :=
  match GenerateRect_magick (lib := demoLib) "/pics/a.png" 180 60 "/cache"
          (rect_entry (lib := demoLib) "/pics/a.png" 180 60 "/cache"
             (mkFileInfo 1700000000 4096))
          world_square_only_1 with
  | FallThrough w => w
  | Returned _ => world_square_only_1
  end.

(** Two calls of [Generate] in a row where [magick] fails, and where
    [magick] exits with 0 without leaving its output file. *)
Definition fails_first : call :=
  Generate (lib := demoLib) "/pics/a.png" 256 "/cache" world_magick_fails.

Definition fails_second : call :=
  match fails_first with
  | Done _ w => Generate (lib := demoLib) "/pics/a.png" 256 "/cache" w
  | Crash => Crash
  end.

Definition unlinks_first : call :=
  Generate (lib := demoLib) "/pics/a.png" 256 "/cache" world_magick_unlinks.

Definition unlinks_second : call :=
  match unlinks_first with
  | Done _ w => Generate (lib := demoLib) "/pics/a.png" 256 "/cache" w
  | Crash => Crash
  end.

Definition writes_first : call :=
  Generate (lib := demoLib) "/pics/a.png" 256 "/cache" world_magick_writes.

(** The world that first call ends in. *)
Definition world_written : World :=
  match writes_first with
  | Done _ w => w
  | Crash => world_magick_writes
  end.


Definition world_locked : World :=
  mkWorld demo_files ∅ {["/var/cache"]} ∅ ∅ (<["magick" := prog_writes]> ∅) 0 [].

(** A world where vipsthumbnail and magick both work and the user asks for
    magick. *)
Definition world_override : World :=
  mkWorld demo_files ∅ ∅ ∅ (<["THUMBGRID_IMAGE_TOOL" := "Magick"]> ∅)
    (<["magick" := prog_writes]> (<["vipsthumbnail" := prog_writes]> ∅)) 0 [].

Definition override_call : call :=
  Generate (lib := demoLib) "/pics/a.png" 256 "/cache" world_override.

(** The processes a call has started by the time it returns. *)
Definition procs_after (c : call) : list (list string) :=
  match c with
  | Done _ w => procs w
  | Crash => []
  end.

(** Whether [p] exists once the call has returned. *)
Definition exists_after (p : string) (c : call) : bool :=
  match c with
  | Done _ w => match os_Stat p w with Some _ => true | None => false end
  | Crash => false
  end.

(** The world a call ends in, and what it returned. *)
Definition world_after (c : call) (dflt : World) : World :=
  match c with
  | Done _ w => w
  | Crash => dflt
  end.

Definition result_of (c : call) : option result :=
  match c with
  | Done res _ => Some res
  | Crash => None
  end.

End thumb.

(* ===================================================================== *)
(** ** cmd/thumbgrid: the thumbnail worker pool of [runGridTUI] *)
(* ===================================================================== *)

Module grid.

(** [type thumbKey struct { path string; wpx, hpx int }] *)
Record thumbKey : Type := mkKey {
  path : string;
  wpx : Z;
  hpx : Z
}.

#[global] Instance thumbKey_eq_dec : EqDecision thumbKey.
Proof. solve_decision. Defined.

#[global] Instance thumbKey_countable : Countable thumbKey.
Proof.
  refine (inj_countable' (λ k, (path k, wpx k, hpx k))
                         (λ t, mkKey t.1.1 t.1.2 t.2) _).
  intros []; reflexivity.
Defined.

(** A worker goroutine is waiting in its [select], is inside
    [thumb.GenerateRect] for the key it received, or has returned. *)
Inductive worker : Type :=
| Idle
| Busy (k : thumbKey)
| Gone.

(** The variables of [runGridTUI] that the pool shares:
    [thumbReady], [thumbInflight] (both guarded by [thumbMu]), the channel
    [thumbQ] of capacity 256, [quitThumb], the one-slot channel [repaintCh],
    and the goroutines started by the [for i := 0; i < workers; i++] loop.
    [deleted] records every [delete(thumbInflight, k)] with the index of
    the worker that executed it, oldest first. *)
Record Pool : Type := mkPool {
  thumbReady : gmap thumbKey string;
  thumbInflight : gset thumbKey;
  thumbQ : list thumbKey;
  quitThumb : bool;
  repaintCh : bool;
  workers : list worker;
  deleted : list (nat * thumbKey)
}.

Definition thumbQ_cap : nat := 256.

(** The state after [runGridTUI] has started its four workers. *)
Definition newPool : Pool :=
  mkPool ∅ ∅ [] false false [Idle; Idle; Idle; Idle] [].

(** [ensureThumb := func(path string, wpx, hpx int) (string, bool)] *)
Definition ensureThumb (path : string) (wpx hpx : Z) (p : Pool)
  : (string * bool) * Pool :=
  let k := mkKey path wpx hpx in
  match thumbReady p !! k with
  | Some tp => ((tp, true), p)
  | None =>
      if bool_decide (k ∈ thumbInflight p) then (("", false), p)
      else
        let inflight := {[k]} ∪ thumbInflight p in
        if (length (thumbQ p) <? thumbQ_cap)%nat
        then (("", false),
              mkPool (thumbReady p) inflight (thumbQ p ++ [k]) (quitThumb p)
                (repaintCh p) (workers p) (deleted p))
        else (("", false),
              mkPool (thumbReady p) inflight (thumbQ p) (quitThumb p)
                (repaintCh p) (workers p) (deleted p))
  end.

(** Worker [i] takes the [case k := <-thumbQ] branch of its [select]. *)
Definition worker_take (i : nat) (p : Pool) : option Pool :=
  match workers p !! i, thumbQ p with
  | Some Idle, k :: rest =>
      Some (mkPool (thumbReady p) (thumbInflight p) rest (quitThumb p)
              (repaintCh p) (<[i := Busy k]> (workers p)) (deleted p))
  | _, _ => None
  end.

(** Worker [i] comes back from [thumb.GenerateRect] with [res] and runs the
    rest of the branch: the critical section and the repaint signal. *)
Definition worker_finish (i : nat) (res : thumb.result) (p : Pool) : option Pool :=
  match workers p !! i with
  | Some (Busy k) =>
      let ready :=
        match res with
        | thumb.Ok tp => <[k := tp]> (thumbReady p)
        | thumb.Err _ => thumbReady p
        end in
      Some (mkPool ready (thumbInflight p ∖ {[k]}) (thumbQ p) (quitThumb p)
              true (<[i := Idle]> (workers p)) (deleted p ++ [(i, k)]))
  | _ => None
  end.

(** Worker [i] takes the [case <-quitThumb] branch: return. *)
Definition worker_quit (i : nat) (p : Pool) : option Pool :=
  match workers p !! i with
  | Some Idle =>
      if quitThumb p
      then Some (mkPool (thumbReady p) (thumbInflight p) (thumbQ p) (quitThumb p)
                   (repaintCh p) (<[i := Gone]> (workers p)) (deleted p))
      else None
  | _ => None
  end.

(** [defer close(quitThumb)] *)
Definition stop (p : Pool) : option Pool :=
  if quitThumb p then None
  else Some (mkPool (thumbReady p) (thumbInflight p) (thumbQ p) true
               (repaintCh p) (workers p) (deleted p)).

(** The repaint goroutine takes its [case <-repaintCh] branch. *)
Definition repaint_recv (p : Pool) : option Pool :=
  if repaintCh p
  then Some (mkPool (thumbReady p) (thumbInflight p) (thumbQ p) (quitThumb p)
               false (workers p) (deleted p))
  else None.

Inductive event : Type :=
| EvEnsure (path : string) (wpx hpx : Z)
| EvTake (i : nat)
| EvFinish (i : nat) (res : thumb.result)
| EvWorkerQuit (i : nat)
| EvStop
| EvRepaint.

Definition step (e : event) (p : Pool) : option Pool :=
  match e with
  | EvEnsure path wpx hpx => Some (ensureThumb path wpx hpx p).2
  | EvTake i => worker_take i p
  | EvFinish i res => worker_finish i res p
  | EvWorkerQuit i => worker_quit i p
  | EvStop => stop p
  | EvRepaint => repaint_recv p
  end.

Fixpoint run (evs : list event) (p : Pool) : option Pool :=
  match evs with
  | [] => Some p
  | e :: evs' =>
      match step e p with
      | Some p' => run evs' p'
      | None => None
      end
  end.

(** No goroutine is working on [k] and [k] is not waiting in [thumbQ]. *)
Definition unattended (k : thumbKey) (p : Pool) : Prop :=
  (k ∉ thumbQ p) ∧ (Busy k ∉ workers p).

(** What holds of every state of the pool reached from [newPool]: a key
    that waits in [thumbQ] or is being generated is in flight, and it is in
    one place only. *)
Definition pool_inv (p : Pool) : Prop :=
  (∀ k, k ∈ thumbQ p → k ∈ thumbInflight p)
  ∧ (∀ k, Busy k ∈ workers p → k ∈ thumbInflight p)
  ∧ NoDup (thumbQ p)
  ∧ (∀ k, k ∈ thumbQ p → Busy k ∉ workers p)
  ∧ (∀ i j k, workers p !! i = Some (Busy k) → workers p !! j = Some (Busy k) → i = j).

(** [k] is marked in flight although nothing will ever generate it. *)
Definition leaked (k : thumbKey) (p : Pool) : Prop :=
  k ∈ thumbInflight p ∧ thumbReady p !! k = None ∧ unattended k p.

(** Whether an interleaving could run to its end. *)
Definition ran (o : option Pool) : bool :=
  match o with
  | Some _ => true
  | None => false
  end.

(** A grid of tiles over the files /pics/0.png, /pics/1.png, ... *)
Definition demo_key (n : nat) : thumbKey :=
  mkKey ("/pics/" +:+ thumb.Itoa (Z.of_nat n) +:+ ".png") 160 60.

Definition ensure_key (k : thumbKey) : event :=
  EvEnsure (path k) (wpx k) (hpx k).

Definition ensure_keys (from count : nat) : list event :=
  ensure_key <$> (demo_key <$> seq from count).

(** The draw routine asks for four tiles, the four workers take one each
    and stay inside GenerateRect, and the routine asks for 256 more. *)
Definition burst : list event :=
  ensure_keys 0 4 ++ [EvTake 0; EvTake 1; EvTake 2; EvTake 3] ++ ensure_keys 4 256.

Definition busy_pool : Pool := default newPool (run burst newPool).

(** Then tile 260 is asked for. *)
Definition asked_pool : Pool :=
  (ensureThumb (path (demo_key 260)) (wpx (demo_key 260)) (hpx (demo_key 260)) busy_pool).2.

(** Worker 0 then finishes its tile and takes the next one, and the next
    frame asks for tile 260 again. *)
Definition retry : list event :=
  [EvFinish 0 (thumb.Ok "/cache/t.png"); EvTake 0; ensure_key (demo_key 260)].

Definition settled_pool : Pool := default newPool (run retry asked_pool).

End grid.

(* ===================================================================== *)
(** ** Go's [strings], [path/filepath] and [encoding/base64] on byte strings *)
(* ===================================================================== *)

Module gostd.

(** A Go string is a sequence of bytes: Rocq's [string].  The functions of
    [strings] below have a fast path for text without a byte above 0x7f,
    which is modelled in full; on other text they go through the Unicode
    tables, which are the fields of this class, as is the quoting of
    [fmt]'s [%q]. *)
Class Unicode : Type := {
  Map_ToLower : string → string;           (* strings.Map(unicode.ToLower, s) *)
  Map_ToUpper : string → string;           (* strings.Map(unicode.ToUpper, s) *)
  TrimFunc_IsSpace : string → string;      (* strings.TrimFunc(s, unicode.IsSpace) *)
  TrimRightFunc_IsSpace : string → string; (* strings.TrimRightFunc(s, unicode.IsSpace) *)
  Sprintf_q : string → string              (* fmt.Sprintf("%q", s) *)
}.

(** [(T, error)] with the error's message. *)
Inductive result (A : Type) : Type :=
| Ok (a : A)
| Err (msg : string).
Arguments Ok {A} a.
Arguments Err {A} msg.

Definition byte_of (c : ascii) : N := N_of_ascii c.

(** [c < utf8.RuneSelf] for every byte of [s]. *)
Fixpoint isASCII (s : string) : bool :=
  match s with
  | EmptyString => true
  | String c rest => (byte_of c <? 128)%N && isASCII rest
  end.

Fixpoint map_bytes (f : ascii → ascii) (s : string) : string :=
  match s with
  | EmptyString => EmptyString
  | String c rest => String (f c) (map_bytes f rest)
  end.

Definition lower_byte (c : ascii) : ascii :=
  let n := byte_of c in
  if ((65 <=? n) && (n <=? 90))%N then ascii_of_N (n + 32) else c.

Definition upper_byte (c : ascii) : ascii :=
  let n := byte_of c in
  if ((97 <=? n) && (n <=? 122))%N then ascii_of_N (n - 32) else c.

(** The table [asciiSpace]: tab, line feed, vertical tab, form feed,
    carriage return and space. *)
Definition asciiSpace (c : ascii) : bool :=
  let n := byte_of c in
  ((9 <=? n) && (n <=? 13) || (n =? 32))%N.

Section WithUnicode.
Context {U : Unicode}.

(** [strings.ToLower] *)
Definition ToLower (s : string) : string :=
  if isASCII s then map_bytes lower_byte s else Map_ToLower s.

(** [strings.ToUpper] *)
Definition ToUpper (s : string) : string :=
  if isASCII s then map_bytes upper_byte s else Map_ToUpper s.

(** The first loop of [strings.TrimSpace]: skip ASCII space from the left;
    [true] when a byte above 0x7f is met, with the text from that byte on. *)
Fixpoint TrimSpace_start (s : string) : bool * string :=
  match s with
  | EmptyString => (false, EmptyString)
  | String c rest =>
      if (128 <=? byte_of c)%N then (true, s)
      else if asciiSpace c then TrimSpace_start rest
      else (false, s)
  end.

(** The second loop, on the bytes from the last one backwards. *)
Fixpoint TrimSpace_stop (rev_bytes : list ascii) : bool * list ascii :=
  match rev_bytes with
  | [] => (false, [])
  | c :: rest =>
      if (128 <=? byte_of c)%N then (true, rev_bytes)
      else if asciiSpace c then TrimSpace_stop rest
      else (false, rev_bytes)
  end.

(** [strings.TrimSpace] *)
Definition TrimSpace (s : string) : string :=
  match TrimSpace_start s with
  | (true, from_start) => TrimFunc_IsSpace from_start
  | (false, from_start) =>
      match TrimSpace_stop (rev (list_ascii_of_string from_start)) with
      | (true, kept) => TrimRightFunc_IsSpace (string_of_list_ascii (rev kept))
      | (false, kept) => string_of_list_ascii (rev kept)
      end
  end.

End WithUnicode.

(** [strings.TrimPrefix] *)
Definition TrimPrefix (s prefix : string) : string :=
  if String.prefix prefix s
  then String.substring (String.length prefix)
         (String.length s - String.length prefix) s
  else s.

(** The loop of [filepath.Ext], from the last byte backwards; [seen] is the
    text already passed. *)
Fixpoint Ext_scan (rev_bytes : list ascii) (seen : list ascii) : string :=
  match rev_bytes with
  | [] => EmptyString
  | c :: rest =>
      if Ascii.eqb c "/" then EmptyString
      else if Ascii.eqb c "." then string_of_list_ascii (c :: seen)
      else Ext_scan rest (c :: seen)
  end.

(** [filepath.Ext] on Unix. *)
Definition Ext (path : string) : string :=
  Ext_scan (rev (list_ascii_of_string path)) [].

(** [base64.StdEncoding]: the alphabet and the padding character. *)
Definition encodeStd : string :=
  "ABCDEFGHIJKLMNOPQRSTUVWXYZabcdefghijklmnopqrstuvwxyz0123456789+/".

Definition padChar : ascii := "="%char.

(** [enc.encode[v & 0x3F]] *)
Definition encode_at (v : N) : ascii :=
  match String.get (N.to_nat (N.land v 63)) encodeStd with
  | Some c => c
  | None => padChar
  end.

(** [base64.StdEncoding.EncodeToString]: three bytes give four characters;
    one or two remaining bytes give two or three, padded to four. *)
Fixpoint EncodeToString (src : string) : string :=
  match src with
  | EmptyString => EmptyString
  | String a EmptyString =>
      let val := N.shiftl (byte_of a) 16 in
      String (encode_at (N.shiftr val 18)) (String (encode_at (N.shiftr val 12))
        (String padChar (String padChar EmptyString)))
  | String a (String b EmptyString) =>
      let val := N.lor (N.shiftl (byte_of a) 16) (N.shiftl (byte_of b) 8) in
      String (encode_at (N.shiftr val 18)) (String (encode_at (N.shiftr val 12))
        (String (encode_at (N.shiftr val 6)) (String padChar EmptyString)))
  | String a (String b (String c rest)) =>
      let val := N.lor (N.lor (N.shiftl (byte_of a) 16) (N.shiftl (byte_of b) 8))
                       (byte_of c) in
      String (encode_at (N.shiftr val 18)) (String (encode_at (N.shiftr val 12))
        (String (encode_at (N.shiftr val 6)) (String (encode_at val)
          (EncodeToString rest))))
  end.

(** A character of the base64 alphabet, or the padding character. *)
Definition is_base64 (c : ascii) : bool :=
  let n := byte_of c in
  ((65 <=? n) && (n <=? 90) || (97 <=? n) && (n <=? 122) || (48 <=? n) && (n <=? 57)
   || (n =? 43) || (n =? 47) || (n =? 61))%N.

Fixpoint all_bytes (f : ascii → bool) (s : string) : bool :=
  match s with
  | EmptyString => true
  | String c rest => f c && all_bytes f rest
  end.

(** No table: text with a byte above 0x7f is left as it is.  Enough to run
    the functions on ASCII text. *)
Definition asciiOnly : Unicode := {|
  Map_ToLower := λ s, s;
  Map_ToUpper := λ s, s;
  TrimFunc_IsSpace := λ s, s;
  TrimRightFunc_IsSpace := λ s, s;
  Sprintf_q := λ s, s
|}.

End gostd.

(* ===================================================================== *)
(** ** internal/term: choosing a backend (term.go) and the kitty renderer (kitty.go) *)
(* ===================================================================== *)

Module backend.
Import term gostd.

Definition ESC : ascii := ascii_of_N 27.

Section WithUnicode.
Context {U : Unicode}.

(** [func Detect(pref string) (string, error)].  [kitty] is the answer of
    [kittyProtocolAvailable], which queries the terminal; the query it
    writes is not modelled. *)
Definition Detect (kitty : bool) (pref : string) : result string :=
  let p := ToLower (TrimSpace pref) in
  if String.eqb p "kitty" then
    if kitty then Ok "kitty" else Err "kitty graphics protocol not available"
  else if String.eqb p "auto" || String.eqb p "" then
    if kitty then Ok "kitty" else Ok "none"
  else Err ("unknown backend: " +:+ pref).

(** [func New(backend string) (Renderer, error)] *)
Definition New (backend : string) : result Renderer :=
  let b := ToLower backend in
  if String.eqb b "kitty" then Ok kittyRenderer
  else if String.eqb b "none" then Ok noopRenderer
  else Err ("unknown backend: " +:+ backend).

(** The first statements of [runGridTUI]:
    [bname, _ := term.Detect("auto"); renderer, _ := term.New(bname)];
    [None] is a nil Renderer. *)
Definition detect_renderer (kitty : bool) : option Renderer :=
  let bname := match Detect kitty "auto" with Ok b => b | Err _ => "" end in
  match New bname with Ok rd => Some rd | Err _ => None end.

End WithUnicode.

(** The bytes [Draw] writes to standard output.
    [func (k *kittyRenderer) Draw(path string, cellX, cellY, cellW, cellH int) error]
    and [func (n *noopRenderer) Draw(string, int, int, int, int) error]. *)
Definition cursor_to (row col : Z) : string :=
  String ESC ("[" +:+ thumb.Itoa row +:+ ";" +:+ thumb.Itoa col +:+ "H").

Definition kitty_open (cols : Z) : string :=
  String ESC ("_Ga=T,t=f,f=100,c=" +:+ thumb.Itoa cols +:+ ",C=1,q=2;").

Definition kitty_close : string := String ESC "\".

Definition Draw (rd : Renderer) (path : string) (cellX cellY cellW cellH : Z) : string :=
  match rd with
  | noopRenderer => ""
  | kittyRenderer =>
      if (cellW <=? 0) || (cellH <=? 0) || String.eqb path "" then ""
      else
        let pb64 := EncodeToString path in
        cursor_to cellY cellX +:+ kitty_open cellW +:+ pb64 +:+ kitty_close
  end.

(** [ClearAll] *)
Definition ClearAll (rd : Renderer) : string :=
  match rd with
  | noopRenderer => ""
  | kittyRenderer => String ESC ("_Ga=d,q=2;" +:+ kitty_close)
  end.

(** How many times the byte [c] occurs in [s]. *)
Fixpoint occurrences (c : ascii) (s : string) : nat :=
  match s with
  | EmptyString => 0%nat
  | String x rest => ((if Ascii.eqb x c then 1 else 0) + occurrences c rest)%nat
  end.

(** Everything the consumer of a scheduler has written to the terminal. *)
Definition written (s : Scheduler.t) : list string :=
  match Scheduler.r s with
  | Some rd =>
      map (λ q, Draw rd (DrawReq.Path q) (DrawReq.X q) (DrawReq.Y q) (DrawReq.W q)
                  (DrawReq.H q))
          (Scheduler.draws s)
  | None => []
  end.

End backend.

(* ===================================================================== *)
(** ** cmd/thumbgrid: candidates, layout and navigation (main.go) *)
(* ===================================================================== *)

Module cli.
Import gostd.

(** *** Go's [int]

    The program builds for 64-bit Unix: an [int] is a 64-bit two's
    complement integer.  Addition, subtraction and multiplication wrap
    around; division truncates towards zero and panics on a zero divisor. *)
Definition int_min : Z := - 2 ^ 63.
Definition int_max : Z := 2 ^ 63 - 1.

Definition wrap (z : Z) : Z := (z + 2 ^ 63) mod 2 ^ 64 - 2 ^ 63.

Definition add (a b : Z) : Z := wrap (a + b).
Definition sub (a b : Z) : Z := wrap (a - b).
Definition mul (a b : Z) : Z := wrap (a * b).

(** [a / b] and [a % b]; [None] is the run-time panic. *)
Definition quo (a b : Z) : option Z :=
  if b =? 0 then None else Some (wrap (Z.quot a b)).

Definition rem (a b : Z) : option Z :=
  if b =? 0 then None else Some (Z.rem a b).

(** [func max(a, b int) int] *)
Definition max (a b : Z) : Z := if a >? b then a else b.

(** *** Candidates *)

(** [type Candidate struct { Path, Name string; Size int64; MTime time.Time; Kind string }],
    the time as a count of nanoseconds. *)
Record Candidate : Type := mkCandidate {
  Path : string;
  Name : string;
  Size : Z;
  MTime : Z;
  Kind : string
}.

Definition filterBoth : string := "both".
Definition filterImages : string := "images".
Definition filterVideos : string := "videos".

Section WithUnicode.
Context {U : Unicode}.

(** [func normalizeFilter(filter string) (string, error)] *)
Definition normalizeFilter (filter : string) : result string :=
  let f := ToLower (TrimSpace filter) in
  if String.eqb f "" || String.eqb f filterBoth || String.eqb f "all" then Ok filterBoth
  else if String.eqb f "image" || String.eqb f filterImages then Ok filterImages
  else if String.eqb f "video" || String.eqb f filterVideos then Ok filterVideos
  else Err ("invalid filter " +:+ Sprintf_q filter
            +:+ " (expected image(s), video(s), or both)").

(** [func classify(path string) string] *)
Definition classify (path : string) : string :=
  let ext := ToLower (Ext path) in
  if existsb (String.eqb ext)
       [".jpg"; ".jpeg"; ".png"; ".gif"; ".webp"; ".bmp"; ".tif"; ".tiff"; ".avif"; ".heic"]
  then "image"
  else if existsb (String.eqb ext) [".mp4"; ".mov"; ".mkv"; ".webm"; ".avi"; ".m4v"]
  then "video"
  else "other".

(** [func otherIcon(path string) string]; [ext[:4]] is the first four bytes. *)
Definition otherIcon (path : string) : string :=
  let ext := ToUpper (TrimPrefix (Ext path) ".") in
  if String.eqb ext "" then "FILE"
  else
    let ext := if (4 <? String.length ext)%nat then String.substring 0 4 ext else ext in
    "[" +:+ ext +:+ "]".

End WithUnicode.

(** [func passes(kind, filter string) bool] *)
Definition passes (kind filter : string) : bool :=
  if String.eqb filter filterImages then String.eqb kind "image"
  else if String.eqb filter filterVideos then String.eqb kind "video"
  else if String.eqb filter filterBoth || String.eqb filter ""
  then String.eqb kind "image" || String.eqb kind "video"
  else false.

(** The loop of [filterCandidates].  [out := in[:0]] shares the array of
    [in], so [append(out, c)] stores [c] in that array at index [len(out)]
    while the [range] loop goes on reading it: [arr] is the array, [i] the
    index the loop reads next, [j] the length of [out]. *)
Fixpoint filterCandidates_loop (mode : string) (todo : nat) (i j : nat)
    (arr : list Candidate) : nat * list Candidate :=
  match todo with
  | O => (j, arr)
  | S todo' =>
      match arr !! i with
      | None => (j, arr)
      | Some c =>
          if passes (Kind c) mode
          then filterCandidates_loop mode todo' (S i) (S j) (<[j := c]> arr)
          else filterCandidates_loop mode todo' (S i) j arr
      end
  end.

(** [func filterCandidates(in []Candidate, mode string) []Candidate]:
    the slice returned, and the array of [in] as the call leaves it. *)
Definition filterCandidates (input : list Candidate) (mode : string)
  : list Candidate * list Candidate :=
  let '(j, arr) := filterCandidates_loop mode (length input) 0 0 input in
  (take j arr, arr).

(** *** Scanning *)

(** [type Config struct { Path, CacheDir, Filter, SortBy, Order string }] *)
Record Config : Type := mkConfig {
  cfg_Path : string;
  CacheDir : string;
  Filter : string;
  SortBy : string;
  Order : string
}.

(** The two functions of [path/filepath] that depend on more than their
    arguments' bytes: [Abs] needs the working directory and can fail,
    [Join] cleans the path it builds. *)
Class Paths : Type := {
  filepath_Abs : string → option string;
  filepath_Join : string → string → string
}.

(** What [filepath.WalkDir] meets at a path: a directory, with the entries
    [os.ReadDir] returns for it in their order (sorted by file name) or
    with the failure of ReadDir; or anything else (WalkDir does not follow
    symbolic links), with the size and the time that [d.Info()] returns, or
    its failure. *)
#[local] Set Warnings "-register-all".
Inductive entry : Type :=
| Dir (name : string) (listing : option (list entry))
| File (name : string) (info : option (Z * Z)).

Definition entry_name (e : entry) : string :=
  match e with
  | Dir name _ => name
  | File name _ => name
  end.

(** How a walk ends: it went through everything, or the callback returned
    an error. *)
Inductive walked : Type :=
| Walked
| Stopped.

Section Scan.
Context {U : Unicode} {P : Paths}.

(** [func toAbs(p string) string] *)
Definition toAbs (p : string) : string :=
  if String.eqb p "" then p
  else if thumb.filepath_IsAbs p then p
  else match filepath_Abs p with
       | Some ap => ap
       | None => p
       end.

(** [filepath.WalkDir]'s recursion with the callback of [scanPath] in
    place: the callback is called for [path]; for a directory that it does
    not skip the entries are read and walked in order, each at
    [filepath.Join(path, name)] (a failure of ReadDir is handed to the
    callback, which returns it).  [cands] is the slice the callback
    appends to. *)
Fixpoint walkDir (cfg : Config) (path : string) (d : entry) (cands : list Candidate)
  : list Candidate * walked :=
  match d with
  | Dir _ listing =>
      if String.eqb (toAbs path) (toAbs (CacheDir cfg)) then (cands, Walked)
      else
        match listing with
        | None => (cands, Stopped)
        | Some entries =>
            (fix each (l : list entry) (cands : list Candidate)
               : list Candidate * walked :=
               match l with
               | [] => (cands, Walked)
               | d1 :: rest =>
                   match walkDir cfg (filepath_Join path (entry_name d1)) d1 cands with
                   | (cands', Walked) => each rest cands'
                   | stopped => stopped
                   end
               end) entries cands
        end
  | File name info =>
      let kind := classify path in
      if negb (passes kind (Filter cfg)) then (cands, Walked)
      else
        match info with
        | None => (cands, Walked)
        | Some (size, mtime) =>
            (cands ++ [mkCandidate path name size mtime kind], Walked)
        end
  end.

(** [func scanPath(root string, cfg Config) ([]Candidate, error)];
    [at_root] is what [os.Lstat(root)] finds, [None] when it fails;
    [Stopped] is a non-nil error. *)
Definition scanPath (root : string) (at_root : option entry) (cfg : Config)
  : list Candidate * walked :=
  match at_root with
  | None => ([], Stopped)
  | Some d => walkDir cfg root d []
  end.

(** A candidate as [scanPath] builds it. *)
Definition scanned (cfg : Config) (c : Candidate) : Prop :=
  Kind c = classify (Path c) ∧ passes (Kind c) (Filter cfg) = true.

End Scan.

(** The loop of [sanitizePrintable] on the runes of [[]rune(s)]. *)
Definition sanitize_rune (r : Z) : Z :=
  if (r =? 27) || (r =? 10) || (r =? 13) || (r =? 9) || (r <? 32) || (r =? 127)
  then 32 else r.

Definition sanitizePrintable (rs : list Z) : list Z := map sanitize_rune rs.

(** *** The grid of [runGridTUI] *)

(** The local variables of [runGridTUI] that the layout and the cursor
    depend on.  The candidates themselves do not change while the grid
    runs; [n] below is [len(cands)]. *)
Record View : Type := mkView {
  w : Z;
  h : Z;
  contentH : Z;
  zoom : Z;
  cur : Z;
  topRow : Z;
  awaitGG : bool;
  showImages : bool
}.

Definition headerH : Z := 1.
Definition footerH : Z := 1.
Definition contentY : Z := headerH + 1.
Definition baseTileW : Z := 18.
Definition baseTileH : Z := 6.
Definition gutter : Z := 2.
Definition ppcX : Z := 10.
Definition ppcY : Z := 20.

Definition set_cur (c : Z) (v : View) : View :=
  mkView (w v) (h v) (contentH v) (zoom v) c (topRow v) (awaitGG v) (showImages v).

Definition set_topRow (t : Z) (v : View) : View :=
  mkView (w v) (h v) (contentH v) (zoom v) (cur v) t (awaitGG v) (showImages v).

Definition set_zoom (z : Z) (v : View) : View :=
  mkView (w v) (h v) (contentH v) z (cur v) (topRow v) (awaitGG v) (showImages v).

Definition set_awaitGG (b : bool) (v : View) : View :=
  mkView (w v) (h v) (contentH v) (zoom v) (cur v) (topRow v) b (showImages v).

Definition set_showImages (b : bool) (v : View) : View :=
  mkView (w v) (h v) (contentH v) (zoom v) (cur v) (topRow v) (awaitGG v) b.

(** The state [runGridTUI] starts from, for a terminal of [w0] columns and
    [h0] rows as [xt.GetSize] reports them. *)
Definition initial (w0 h0 : Z) (useGraphics : bool) : View :=
  let h := if h0 <=? 0 then 24 else h0 in
  let w := if w0 <=? 0 then 80 else w0 in
  let contentH := sub (sub h headerH) footerH in
  let contentH := if contentH <? 0 then 0 else contentH in
  mkView w h contentH 0 0 0 false useGraphics.

(** [clampTile := func(wd, ht int) (int, int)] *)
Definition clampTile (wd ht : Z) : Z * Z :=
  (if wd <? 8 then 8 else wd, if ht <? 3 then 3 else ht).

(** What [computeLayout] returns. *)
Record Layout : Type := mkLayout {
  gridX : Z;
  gridY : Z;
  gridW : Z;
  gridH : Z;
  tileW : Z;
  tileH : Z;
  cols : Z;
  rows : Z
}.

(** [computeLayout := func() (gridX, gridY, gridW, gridH, tileW, tileH, cols, rows int)] *)
Definition computeLayout (v : View) : option Layout :=
  let gridX := 1 in
  let gridY := contentY in
  let gridW := w v in
  let gridH := contentH v in
  let tileW := add baseTileW (mul (zoom v) 4) in
  let tileH := add baseTileH (mul (zoom v) 2) in
  let '(tileW, tileH) := clampTile tileW tileH in
  let stepW := add tileW gutter in
  cols ← (if gridW <? tileW then Some 1 else quo (add gridW gutter) stepW);
  let cols := if cols <? 1 then 1 else cols in
  let stepH := add tileH gutter in
  rows ← (if gridH <? tileH then Some 0
          else q ← quo (sub gridH tileH) stepH; Some (add 1 q));
  Some (mkLayout gridX gridY gridW gridH tileW tileH cols rows).

Definition size_bound : Z := 2 ^ 31.

(** What [computeLayout] returns for a view of reasonable size. *)
Record layout_of (v : View) (L : Layout) : Prop := mk_layout_of {
  lo_gridX : gridX L = 1;
  lo_gridY : gridY L = 2;
  lo_gridW : gridW L = w v;
  lo_gridH : gridH L = contentH v;
  lo_tileW : 8 ≤ tileW L ≤ int_max;
  lo_tileH : 3 ≤ tileH L ≤ int_max;
  lo_cols : 1 ≤ cols L < size_bound;
  lo_rows : 0 ≤ rows L < size_bound;
  lo_narrow : w v < tileW L → cols L = 1;
  lo_wide : tileW L ≤ w v →
            cols L * (tileW L + 2) ≤ w v + 2 < (cols L + 1) * (tileW L + 2);
  lo_short : contentH v < tileH L → rows L = 0;
  lo_tall : tileH L ≤ contentH v →
            1 ≤ rows L
            ∧ (rows L - 1) * (tileH L + 2) + tileH L ≤ contentH v
                < rows L * (tileH L + 2) + tileH L
}.

(** Where [draw] puts the tile of column [ccol] and row [r] of the grid:
    [px := gridX + ccol*(tileW+gutter)] and [py := gridY + r*(tileH+gutter)]. *)
Definition tile_px (L : Layout) (ccol : Z) : Z :=
  add (gridX L) (mul ccol (add (tileW L) gutter)).

Definition tile_py (L : Layout) (r : Z) : Z :=
  add (gridY L) (mul r (add (tileH L) gutter)).

(** The candidate [draw] shows there: [idx := (topRow+r)*cols + ccol]. *)
Definition tile_idx (L : Layout) (top r ccol : Z) : Z :=
  add (mul (add top r) (cols L)) ccol.

(** The pixel box [drawTile] and the prefetch loop of [draw] both ask
    [ensureThumb] for: [innerW := tileW - 2], at least 2;
    [imgH := max(1, tileH-3)]; [wpx := max(8, innerW*ppcX)];
    [hpx := max(8, imgH*ppcY)]. *)
Definition thumb_box (L : Layout) : Z * Z :=
  let innerW := sub (tileW L) 2 in
  let innerW := if innerW <? 2 then 2 else innerW in
  let imgH := max 1 (sub (tileH L) 3) in
  (max 8 (mul innerW ppcX), max 8 (mul imgH ppcY)).

Section WithCandidates.
(** [len(cands)] *)
Context (n : Z).

(** [dataRows := func() int] *)
Definition dataRows (v : View) : option Z :=
  L ← computeLayout v;
  quo (sub (add n (cols L)) 1) (cols L).

(** [curRow := func() int] *)
Definition curRow (v : View) : option Z :=
  L ← computeLayout v;
  quo (cur v) (cols L).

(** [curCol := func() int] *)
Definition curCol (v : View) : option Z :=
  L ← computeLayout v;
  rem (cur v) (cols L).

(** [moveTo := func(ncur int)] *)
Definition moveTo (ncur : Z) (v : View) : option View :=
  let ncur := if ncur <? 0 then 0 else ncur in
  let ncur := if ncur >=? n then sub n 1 else ncur in
  let v := set_cur ncur v in
  r ← curRow v;
  let top := if r <? topRow v then r else topRow v in
  L ← computeLayout v;
  let top := if r >=? add top (rows L) then add (sub r (rows L)) 1 else top in
  let top := if top <? 0 then 0 else top in
  dr ← dataRows v;
  let maxTop := max 0 (sub dr (rows L)) in
  let top := if top >? maxTop then maxTop else top in
  Some (set_topRow top v).

(** [case 0x05] and the wheel-down report: one row down. *)
Definition scroll_down (v : View) : option View :=
  L ← computeLayout v;
  dr ← dataRows v;
  let maxTop := max 0 (sub dr (rows L)) in
  Some (if topRow v <? maxTop then set_topRow (add (topRow v) 1) v else v).

(** [case 0x19] and the wheel-up report: one row up. *)
Definition scroll_up (v : View) : View :=
  if topRow v >? 0 then set_topRow (sub (topRow v) 1) v else v.

(** [case 0x04]: half a page down. *)
Definition half_page_down (v : View) : option View :=
  L ← computeLayout v;
  half ← quo (rows L) 2;
  let delta := max 1 half in
  dr ← dataRows v;
  let maxTop := max 0 (sub dr (rows L)) in
  let top := add (topRow v) delta in
  Some (set_topRow (if top >? maxTop then maxTop else top) v).

(** [case 0x15]: half a page up. *)
Definition half_page_up (v : View) : option View :=
  L ← computeLayout v;
  half ← quo (rows L) 2;
  let delta := max 1 half in
  let top := sub (topRow v) delta in
  Some (set_topRow (if top <? 0 then 0 else top) v).

(** [case 0x06] and [ESC [ 6]: a page down. *)
Definition page_down (v : View) : option View :=
  L ← computeLayout v;
  col ← curCol v;
  r ← curRow v;
  let newRow := add r (rows L) in
  dr ← dataRows v;
  let maxRow := sub dr 1 in
  let newRow := if newRow >? maxRow then maxRow else newRow in
  let idx := add (mul newRow (cols L)) col in
  let idx := if idx >=? n then sub n 1 else idx in
  moveTo idx v.

(** [case 0x02] and [ESC [ 5]: a page up. *)
Definition page_up (v : View) : option View :=
  L ← computeLayout v;
  col ← curCol v;
  r ← curRow v;
  let newRow := sub r (rows L) in
  let newRow := if newRow <? 0 then 0 else newRow in
  let idx := add (mul newRow (cols L)) col in
  let idx := if idx >=? n then sub n 1 else idx in
  moveTo idx v.

(** ['k'] and [ESC [ A] *)
Definition move_up (v : View) : option View :=
  L ← computeLayout v;
  if sub (cur v) (cols L) >=? 0 then moveTo (sub (cur v) (cols L)) v else Some v.

(** ['j'] and [ESC [ B] *)
Definition move_down (v : View) : option View :=
  L ← computeLayout v;
  if add (cur v) (cols L) <? n then moveTo (add (cur v) (cols L)) v else Some v.

(** ['l'] and [ESC [ C] *)
Definition move_right (v : View) : option View :=
  L ← computeLayout v;
  c ← rem (cur v) (cols L);
  if (c <? sub (cols L) 1) && (add (cur v) 1 <? n) then moveTo (add (cur v) 1) v
  else Some v.

(** ['h'] and [ESC [ D] *)
Definition move_left (v : View) : option View :=
  L ← computeLayout v;
  c ← rem (cur v) (cols L);
  if c >? 0 then moveTo (sub (cur v) 1) v else Some v.

(** The [case <-winch] branch: the new size as [xt.GetSize] reports it. *)
Definition resize (w2 h2 : Z) (v : View) : View :=
  let h := if h2 >? 0 then h2 else 24 in
  let w := if w2 >? 0 then w2 else 80 in
  let contentH := sub (sub h headerH) footerH in
  let contentH := if contentH <? 0 then 0 else contentH in
  mkView w h contentH (zoom v) (cur v) (topRow v) false (showImages v).

(** The candidate a press at cell ([cx], [cy]) selects, if any: the body of
    [if cx >= gridX && cy >= gridY] after the two wheel buttons. *)
Definition hit (L : Layout) (top cx cy : Z) : option (option Z) :=
  if (cx >=? gridX L) && (cy >=? gridY L) then
    let offX := sub cx (gridX L) in
    let offY := sub cy (gridY L) in
    let stepW := add (tileW L) gutter in
    let stepH := add (tileH L) gutter in
    ccol ← quo offX stepW;
    rrow ← quo offY stepH;
    if (ccol >=? 0) && (ccol <? cols L) && (rrow >=? 0) then
      let px := add (gridX L) (mul ccol stepW) in
      let py := add (gridY L) (mul rrow stepH) in
      if (cx <=? sub (add px (tileW L)) 1) && (cy <=? sub (add py (tileH L)) 1) then
        let idx := add (mul (add top rrow) (cols L)) ccol in
        if (idx >=? 0) && (idx <? n) then Some (Some idx) else Some None
      else Some None
    else Some None
  else Some None.

(** A mouse report [ESC [ < btn ; cx ; cy M] whose three fields were
    split off and read by [strconv.Atoi]. *)
Definition mouse (btn cx cy : Z) (v : View) : option View :=
  L ← computeLayout v;
  if (cx >=? gridX L) && (cy >=? gridY L) then
    _ ← quo (sub cx (gridX L)) (add (tileW L) gutter);
    _ ← quo (sub cy (gridY L)) (add (tileH L) gutter);
    if btn =? 64 then Some (set_awaitGG false (scroll_up v))
    else if btn =? 65 then set_awaitGG false <$> scroll_down v
    else
      target ← hit L (topRow v) cx cy;
      match target with
      | Some idx =>
          if btn <? 64 then set_awaitGG false <$> moveTo idx v
          else Some (set_awaitGG false v)
      | None => Some (set_awaitGG false v)
      end
  else Some (set_awaitGG false v).

(** What the input loop reads next, decoded. *)
Inductive input : Type :=
| Winch (w2 h2 : Z)          (* SIGWINCH, with the size xt.GetSize reports *)
| Key (b : N)                (* a byte other than ESC *)
| EscAlone                   (* ESC with nothing buffered behind it *)
| EscOther                   (* ESC followed by a byte other than '[' *)
| Csi (b3 : N)               (* ESC [ b3, b3 other than '<' *)
| Mouse (btn cx cy : Z)      (* ESC [ < btn ; cx ; cy M, three fields, the first not empty *)
| MouseMalformed             (* ESC [ < ... with other fields: ignored *)
| ReadError.                 (* br.ReadByte failed *)

(** How one round of the input loop ends. *)
Inductive reaction : Type :=
| Continue (v : View)                 (* the loop goes on *)
| Accept (idx : Z)                    (* return toAbs(cands[idx].Path), 0, nil *)
| Cancel                              (* return nil, 130, "canceled" *)
| Failed                              (* return nil, 65, "read: ..." *)
| Fault.                              (* run-time panic *)

Definition continue (o : option View) : reaction :=
  match o with
  | Some v => Continue (set_awaitGG false v)
  | None => Fault
  end.

(** The body of [switch b3] for [ESC [ b3]. *)
Definition csi (b3 : N) (v : View) : reaction :=
  if (b3 =? 65)%N then continue (move_up v)             (* 'A' *)
  else if (b3 =? 66)%N then continue (move_down v)      (* 'B' *)
  else if (b3 =? 67)%N then continue (move_right v)     (* 'C' *)
  else if (b3 =? 68)%N then continue (move_left v)      (* 'D' *)
  else if (b3 =? 53)%N then continue (page_up v)        (* '5' *)
  else if (b3 =? 54)%N then continue (page_down v)      (* '6' *)
  else continue (Some v).

(** The body of [switch b] for a byte other than ESC. *)
Definition key (b : N) (v : View) : reaction :=
  if (b =? 113)%N || (b =? 3)%N then Cancel                        (* 'q', Ctrl-C *)
  else if (b =? 12)%N then continue (Some v)                       (* Ctrl-L *)
  else if (b =? 5)%N then continue (scroll_down v)                 (* Ctrl-E *)
  else if (b =? 25)%N then continue (Some (scroll_up v))           (* Ctrl-Y *)
  else if (b =? 4)%N then continue (half_page_down v)              (* Ctrl-D *)
  else if (b =? 21)%N then continue (half_page_up v)               (* Ctrl-U *)
  else if (b =? 6)%N then continue (page_down v)                   (* Ctrl-F *)
  else if (b =? 2)%N then continue (page_up v)                     (* Ctrl-B *)
  else if (b =? 71)%N then continue (moveTo (sub n 1) v)           (* 'G' *)
  else if (b =? 103)%N then                                        (* 'g' *)
    if awaitGG v then continue (set_topRow 0 <$> moveTo 0 v)
    else Continue (set_awaitGG true v)
  else if (b =? 107)%N then continue (move_up v)                   (* 'k' *)
  else if (b =? 106)%N then continue (move_down v)                 (* 'j' *)
  else if (b =? 104)%N then continue (move_left v)                 (* 'h' *)
  else if (b =? 108)%N then continue (move_right v)                (* 'l' *)
  else if (b =? 43)%N || (b =? 61)%N then                          (* '+', '=' *)
    continue (Some (set_zoom (add (zoom v) 1) v))
  else if (b =? 45)%N || (b =? 95)%N then                          (* '-', '_' *)
    let z := sub (zoom v) 1 in
    continue (Some (set_zoom (if z <? 0 then 0 else z) v))
  else if (b =? 112)%N then                                        (* 'p' *)
    continue (Some (set_showImages (negb (showImages v)) v))
  else if (b =? 13)%N || (b =? 10)%N then                          (* Enter *)
    if (0 <=? cur v) && (cur v <? n) then Accept (cur v) else Fault
  else continue (Some v).

(** One round of the [for] loop of [runGridTUI]. *)
Definition handle (i : input) (v : View) : reaction :=
  match i with
  | Winch w2 h2 => Continue (resize w2 h2 v)
  | ReadError => Failed
  | Key b => key b v
  | EscAlone | EscOther => Cancel
  | Csi b3 => csi b3 v
  | Mouse btn cx cy =>
      match mouse btn cx cy v with
      | Some v' => Continue v'
      | None => Fault
      end
  | MouseMalformed => Continue (set_awaitGG false v)
  end.

(** The loop, over the inputs of a session; [inr] is how it ended. *)
Fixpoint session (inputs : list input) (v : View) : View + reaction :=
  match inputs with
  | [] => inl v
  | i :: rest =>
      match handle i v with
      | Continue v' => session rest v'
      | end_of_loop => inr end_of_loop
      end
  end.

(** The reads of [cands[cur]] in [draw]: the status line, when there are
    candidates. *)
Definition draw_reads_in_range (v : View) : bool :=
  if n >? 0 then (0 <=? cur v) && (cur v <? n) else true.

(** What every state of a session satisfies: the cursor is on a candidate,
    the first visible row is between 0 and [n], the size is the one last
    reported and the content height follows from it. *)
Definition view_inv (v : View) : Prop :=
  0 ≤ cur v < n
  ∧ 0 ≤ topRow v ≤ n
  ∧ 0 < w v < size_bound
  ∧ 0 < h v < size_bound
  ∧ contentH v = Z.max 0 (h v - 2)
  ∧ int_min ≤ zoom v ≤ int_max.

(** How a round of the input loop may end from a state that satisfies the
    invariant: in another such state, with a candidate, or without one; not
    in a panic. *)
Definition safe (r : reaction) : Prop :=
  match r with
  | Continue v' => view_inv v'
  | Accept idx => 0 ≤ idx < n
  | Cancel | Failed => True
  | Fault => False
  end.

(** A size report has fewer than 2^31 columns and rows ([xt.GetSize] reads
    them from 16-bit fields). *)
Definition input_ok (i : input) : Prop :=
  match i with
  | Winch w2 h2 => w2 < size_bound ∧ h2 < size_bound
  | _ => True
  end.

End WithCandidates.

(** The service's library with [strings.ToLower], [strings.TrimSpace] and
    [filepath.Ext] as modelled in [gostd], the other functions as in
    [thumb.demoLib]. *)
Definition goLib : thumb.GoLib := {|
  thumb.sha1_hex := thumb.demo_digest;
  thumb.filepath_Abs := λ p, "/work/" +:+ p;
  thumb.filepath_Join := λ a b, a +:+ "/" +:+ b;
  thumb.filepath_Ext := Ext;
  thumb.strings_ToLower := ToLower (U := asciiOnly);
  thumb.strings_TrimSpace := TrimSpace (U := asciiOnly);
  thumb.strconv_ParseFloat := thumb.demo_ParseFloat;
  thumb.Sprintf_f3 := thumb.demo_Sprintf_f3
|}.

End cli.

(* ===================================================================== *)
(** * Properties of the Render Scheduler *)
(* ===================================================================== *)

Module term_props.
Import term term.Scheduler.

Ltac split_wf := split; [|split; [|split; [|split]]].

Lemma uint64_modulus_pos : 0 < uint64_modulus.
Proof. reflexivity. Qed.

Lemma NewScheduler_wf rd buf : wf (NewScheduler rd buf).
Proof.
  unfold wf, NewScheduler, pending_barriers; simpl. split_wf.
  - intros d Hd. inversion Hd.
  - intros d Hd. set_solver.
  - constructor.
  - unfold uint64_modulus. lia.
  - lia.
Qed.

Lemma pending_barriers_snoc q req :
  omap DrawReq.done (q ++ [req]) = omap DrawReq.done q ++ option_list (DrawReq.done req).
Proof.
  rewrite omap_app. simpl. destruct (DrawReq.done req); reflexivity.
Qed.

Lemma Enqueue_wf path x y w h s : wf s → wf (Enqueue path x y w h s).
Proof.
  intros Hwf. unfold Enqueue.
  destruct (length (queue s) <? queue_cap s)%nat eqn:Hlt; [|assumption].
  destruct Hwf as (Hq & Hc & Hnd & Hg & Hlen).
  apply Nat.ltb_lt in Hlt.
  unfold wf, pending_barriers, set_queue in *; simpl.
  rewrite pending_barriers_snoc; simpl. rewrite app_nil_r.
  split_wf; try assumption.
  rewrite length_app. simpl. lia.
Qed.

Lemma NextFrame_wf s : wf s → wf (NextFrame s).
Proof.
  intros (Hq & Hc & Hnd & Hg & Hlen). unfold wf, pending_barriers, NextFrame in *; simpl.
  split_wf; try assumption.
  apply Z.mod_pos_bound. exact uint64_modulus_pos.
Qed.

Lemma Drain_send_wf s d s' : wf s → Drain_send s = Next (d, s') → wf s'.
Proof.
  intros (Hq & Hc & Hnd & Hg & Hlen) H. unfold Drain_send in H.
  destruct (length (queue s) <? queue_cap s)%nat eqn:Hlt; [|discriminate].
  apply Nat.ltb_lt in Hlt. injection H as <- <-.
  unfold wf, pending_barriers in *; simpl.
  rewrite pending_barriers_snoc; simpl.
  split_wf; try assumption.
  - intros d Hd. apply elem_of_app in Hd as [Hd|Hd].
    + apply Hq in Hd. split; [lia|tauto].
    + apply list_elem_of_singleton in Hd. subst d. split; [lia|].
      intros Hd. apply Hc in Hd. lia.
  - intros d Hd. apply Hc in Hd. lia.
  - apply NoDup_app. split; [assumption|]. split; [|apply NoDup_singleton].
    intros d Hd Hd'. apply list_elem_of_singleton in Hd'. subst d. apply Hq in Hd. lia.
  - rewrite length_app. simpl. lia.
Qed.

Lemma loop_recv_wf s s' : wf s → loop_recv s = Next s' → wf s'.
Proof.
  intros (Hq & Hc & Hnd & Hg & Hlen) H. unfold loop_recv in H.
  destruct (exited s); [discriminate|].
  destruct (queue s) as [|req rest] eqn:Hqueue; [discriminate|].
  unfold wf, pending_barriers in *. rewrite Hqueue in *. simpl in Hq, Hnd, Hlen.
  destruct (DrawReq.done req) as [d|] eqn:Hdone.
  - case_bool_decide; [discriminate|]. injection H as <-. simpl.
    apply NoDup_cons in Hnd as [Hnotin Hnd].
    split_wf; try assumption; try lia.
    + intros d' Hd'. split; [apply Hq; now right|].
      intros Hin. apply elem_of_union in Hin as [Hin|Hin].
      * apply elem_of_singleton in Hin. subst. contradiction.
      * revert Hin. apply Hq. now right.
    + intros d' Hd'. apply elem_of_union in Hd' as [Hd'|Hd'].
      * apply elem_of_singleton in Hd'. subst. apply Hq. now left.
      * now apply Hc.
  - destruct (negb (DrawReq.gen req =? gen s)).
    + injection H as <-. simpl. split_wf; try assumption; lia.
    + destruct (r s); injection H as <-; simpl; (split_wf; try assumption; lia).
Qed.

Lemma step_wf e s s' : wf s → step e s = Next s' → wf s'.
Proof.
  intros Hwf H. destruct e; simpl in H.
  - injection H as <-. now apply Enqueue_wf.
  - injection H as <-. now apply NextFrame_wf.
  - destruct (Drain_send s) as [[d s1]| |] eqn:Hd; try discriminate.
    injection H as <-. eapply Drain_send_wf; eassumption.
  - unfold Drain_wait in H. case_bool_decide; [|discriminate]. now injection H as <-.
  - eapply loop_recv_wf; eassumption.
  - unfold loop_quit in H. destruct (exited s); [discriminate|].
    destruct (quit s); [|discriminate]. injection H as <-. exact Hwf.
  - unfold Close in H. destruct (quit s); [discriminate|]. injection H as <-. exact Hwf.
Qed.

Lemma run_wf evs : ∀ s s', wf s → run evs s = Some s' → wf s'.
Proof.
  induction evs as [|e evs IH]; intros s s' Hwf H; simpl in H.
  - now injection H as <-.
  - destruct (step e s) as [s1| |] eqn:Hs; try discriminate.
    eapply IH; [|eassumption]. eapply step_wf; eassumption.
Qed.

(** The consumer only appends to its history, and a closed channel stays
    closed. *)
Lemma step_grows e s s' :
  step e s = Next s' →
  (∃ extra, history s' = history s ++ extra) ∧ closed s ⊆ closed s'.
Proof.
  intros H. destruct e; simpl in H.
  - injection H as <-. unfold Enqueue.
    destruct (length (queue s) <? queue_cap s)%nat; simpl;
      (split; [exists []; now rewrite app_nil_r | set_solver]).
  - injection H as <-. simpl. split; [exists []; now rewrite app_nil_r | set_solver].
  - unfold Drain_send in H. destruct (length (queue s) <? queue_cap s)%nat; [|discriminate].
    injection H as <-. simpl. split; [exists []; now rewrite app_nil_r | set_solver].
  - unfold Drain_wait in H. case_bool_decide; [|discriminate]. injection H as <-.
    split; [exists []; now rewrite app_nil_r | set_solver].
  - unfold loop_recv in H. destruct (exited s); [discriminate|].
    destruct (queue s) as [|req rest]; [discriminate|].
    destruct (DrawReq.done req) as [d|].
    + case_bool_decide; [discriminate|]. injection H as <-. simpl.
      split; [eexists; reflexivity | set_solver].
    + destruct (negb (DrawReq.gen req =? gen s)); [|destruct (r s)];
        injection H as <-; simpl; (split; [eexists; reflexivity | set_solver]).
  - unfold loop_quit in H. destruct (exited s); [discriminate|].
    destruct (quit s); [|discriminate]. injection H as <-. simpl.
    split; [exists []; now rewrite app_nil_r | set_solver].
  - unfold Close in H. destruct (quit s); [discriminate|]. injection H as <-. simpl.
    split; [exists []; now rewrite app_nil_r | set_solver].
Qed.

Lemma barrier_signalled_step h1 q1 b d e s s' :
  barrier_signalled h1 q1 b d s → step e s = Next s' → barrier_signalled h1 q1 b d s'.
Proof.
  intros (before & more & Hh & Hb & Hd) Hstep.
  apply step_grows in Hstep as [[extra Hx] Hsub].
  exists before, (more ++ extra). split; [|split].
  - rewrite Hx, Hh. now rewrite <- app_assoc.
  - exact Hb.
  - set_solver.
Qed.

(** One action of any goroutine keeps a sent barrier in the queue, behind
    the requests that preceded it, until the consumer receives it. *)
Lemma barrier_waiting_step h1 q1 b d e s s' :
  DrawReq.done b = Some d →
  (∀ d', d' ∈ omap DrawReq.done q1 → d' ≠ d) →
  barrier_waiting h1 q1 b d s →
  step e s = Next s' →
  barrier_waiting h1 q1 b d s' ∨ barrier_signalled h1 q1 b d s'.
Proof.
  intros Hb Hfresh (served & todo & later & Hq1 & Hq & Hh & Hd) H.
  destruct e; simpl in H.
  - left. injection H as <-. unfold Enqueue.
    destruct (length (queue s) <? queue_cap s)%nat; simpl.
    + exists served, todo, (later ++ [DrawReq.mk path x y w h None (gen s)]).
      rewrite Hq. simpl. rewrite <- app_assoc. simpl. auto.
    + exists served, todo, later. auto.
  - left. injection H as <-. exists served, todo, later. simpl. auto.
  - left. unfold Drain_send in H.
    destruct (length (queue s) <? queue_cap s)%nat; [|discriminate].
    injection H as <-. simpl.
    exists served, todo, (later ++ [barrier (chans s) (gen s)]).
    rewrite Hq. rewrite <- app_assoc. simpl. auto.
  - left. unfold Drain_wait in H. case_bool_decide; [|discriminate]. injection H as <-.
    exists served, todo, later. auto.
  - unfold loop_recv in H. destruct (exited s); [discriminate|].
    rewrite Hq in H. destruct todo as [|t todo]; simpl in H.
    + right. rewrite Hb in H. case_bool_decide; [discriminate|]. injection H as <-.
      exists (history s), []. simpl. rewrite app_nil_r in Hq1. subst q1.
      split; [reflexivity|]. split; [assumption|]. set_solver.
    + left. assert (Hmap : ∀ a, request_of a = t →
                map request_of (history s ++ [a]) = h1 ++ served ++ [t]).
      { intros a Ha. rewrite map_app, Hh. simpl. rewrite Ha.
        now rewrite app_assoc. }
      assert (Hq1' : q1 = (served ++ [t]) ++ todo).
      { rewrite Hq1. now rewrite <- app_assoc. }
      destruct (DrawReq.done t) as [d'|] eqn:Ht.
      * case_bool_decide; [discriminate|]. injection H as <-.
        exists (served ++ [t]), todo, later. simpl.
        split; [exact Hq1'|]. split; [reflexivity|].
        split; [apply Hmap; reflexivity|].
        assert (d' ≠ d).
        { apply Hfresh. rewrite Hq1, omap_app. apply elem_of_app. right.
          simpl. rewrite Ht. now left. }
        intros Hin. apply elem_of_union in Hin as [Hin|Hin]; [|contradiction].
        apply elem_of_singleton in Hin. congruence.
      * destruct (negb (DrawReq.gen t =? gen s)); [|destruct (r s)];
          injection H as <-; exists (served ++ [t]), todo, later; simpl;
          (split; [exact Hq1'|]; split; [reflexivity|];
           split; [apply Hmap; reflexivity | assumption]).
  - left. unfold loop_quit in H. destruct (exited s); [discriminate|].
    destruct (quit s); [|discriminate]. injection H as <-.
    exists served, todo, later. simpl. auto.
  - left. unfold Close in H. destruct (quit s); [discriminate|]. injection H as <-.
    exists served, todo, later. simpl. auto.
Qed.

Lemma barrier_run h1 q1 b d evs :
  DrawReq.done b = Some d →
  (∀ d', d' ∈ omap DrawReq.done q1 → d' ≠ d) →
  ∀ s s',
    barrier_waiting h1 q1 b d s ∨ barrier_signalled h1 q1 b d s →
    run evs s = Some s' →
    barrier_waiting h1 q1 b d s' ∨ barrier_signalled h1 q1 b d s'.
Proof.
  intros Hb Hfresh. induction evs as [|e evs IH]; intros s s' Hinv H; simpl in H.
  - now injection H as <-.
  - destruct (step e s) as [s1| |] eqn:Hs; try discriminate.
    apply (IH s1 s'); [|exact H].
    destruct Hinv as [Hw|Hsig].
    + eapply barrier_waiting_step; eassumption.
    + right. eapply barrier_signalled_step; eassumption.
Qed.

(** Right after [Drain] has sent its barrier, the barrier waits behind
    exactly the requests that were queued before it. *)
Lemma Drain_send_waiting s d s' :
  wf s → Drain_send s = Next (d, s') →
  d = chans s
  ∧ barrier_waiting (map request_of (history s)) (queue s) (barrier d (gen s)) d s'
  ∧ (∀ d', d' ∈ omap DrawReq.done (queue s) → d' ≠ d).
Proof.
  intros (Hq & Hc & Hnd & Hg & Hlen) H. unfold Drain_send in H.
  destruct (length (queue s) <? queue_cap s)%nat; [|discriminate].
  injection H as <- <-. split; [reflexivity|]. split.
  - exists [], (queue s), []. simpl. rewrite app_nil_r.
    split; [reflexivity|]. split; [reflexivity|]. split; [reflexivity|].
    intros Hin. apply Hc in Hin. lia.
  - intros d' Hd'. apply Hq in Hd'. lia.
Qed.

(** The counter after an execution, in terms of the calls of [NextFrame]. *)
Lemma gen_after_run evs : ∀ s s',
  run evs s = Some s' →
  gen s' = (gen s + count_NextFrame evs) mod uint64_modulus ∨
  (count_NextFrame evs = 0 ∧ gen s' = gen s).
Proof.
  induction evs as [|e evs IH]; intros s s' H; simpl in H.
  - injection H as <-. right. auto.
  - destruct (step e s) as [s1| |] eqn:Hs; try discriminate.
    assert (Hother : gen s1 = gen s →
              count_NextFrame (e :: evs) = count_NextFrame evs →
              gen s' = (gen s + count_NextFrame (e :: evs)) mod uint64_modulus
              ∨ count_NextFrame (e :: evs) = 0 ∧ gen s' = gen s).
    { intros Hg Hc. rewrite Hc, <- Hg. apply IH. exact H. }
    destruct e; simpl in Hs.
    + apply Hother; [|reflexivity]. injection Hs as <-. unfold Enqueue.
      destruct (length (queue s) <? queue_cap s)%nat; reflexivity.
    + left. injection Hs as <-. destruct (IH _ _ H) as [Hg|[Hc Hg]]; rewrite Hg; simpl.
      * rewrite Zplus_mod_idemp_l. f_equal. lia.
      * rewrite Hc. reflexivity.
    + apply Hother; [|reflexivity]. unfold Drain_send in Hs.
      destruct (length (queue s) <? queue_cap s)%nat; [|discriminate].
      now injection Hs as <-.
    + apply Hother; [|reflexivity]. unfold Drain_wait in Hs.
      case_bool_decide; [|discriminate]. now injection Hs as <-.
    + apply Hother; [|reflexivity]. unfold loop_recv in Hs.
      destruct (exited s); [discriminate|].
      destruct (queue s) as [|req rest]; [discriminate|].
      destruct (DrawReq.done req).
      * case_bool_decide; [discriminate|]. now injection Hs as <-.
      * destruct (negb (DrawReq.gen req =? gen s)); [|destruct (r s)];
          now injection Hs as <-.
    + apply Hother; [|reflexivity]. unfold loop_quit in Hs.
      destruct (exited s); [discriminate|].
      destruct (quit s); [|discriminate]. now injection Hs as <-.
    + apply Hother; [|reflexivity]. unfold Close in Hs.
      destruct (quit s); [discriminate|]. now injection Hs as <-.
Qed.

(** C1. An ordinary Draw Request that the consumer dequeues while its
    generation tag differs from the Frame Generation Counter is dropped:
    the iteration ends without a call of the Renderer's Draw, and the
    request is gone from the queue.  In particular this is the fate of a
    request tagged under the generation of a state [s] when NextFrame has
    been called (fewer than 2^64 times) between [s] and the dequeue. *)
Theorem stale_request_is_dropped :
  ∀ (s : Scheduler.t) (evs : list event) (s' : Scheduler.t)
    (req : DrawReq.t) (rest : list DrawReq.t),
    0 ≤ gen s < uint64_modulus →
    run evs s = Some s' →
    exited s' = false →
    queue s' = req :: rest →
    DrawReq.done req = None →
    DrawReq.gen req ≠ gen s'
    ∨ (DrawReq.gen req = gen s ∧ 0 < count_NextFrame evs < uint64_modulus) →
    loop_recv s' = Next (dropped_stale req rest s')
    ∧ draws (dropped_stale req rest s') = draws s'
    ∧ queue (dropped_stale req rest s') = rest.
Proof.
  intros s evs s' req rest Hg Hrun Hex Hq Hdone Hstale.
  assert (Hne : DrawReq.gen req ≠ gen s').
  { destruct Hstale as [Hne|[Htag Hn]]; [exact Hne|].
    destruct (gen_after_run _ _ _ Hrun) as [Hs'|[Hc _]]; [|lia].
    rewrite Hs', Htag. intros Heq. symmetry in Heq.
    pose proof uint64_modulus_pos as Hm.
    destruct (Z_lt_ge_dec (gen s + count_NextFrame evs) uint64_modulus) as [Hlt|Hge].
    - rewrite Z.mod_small in Heq; lia.
    - replace (gen s + count_NextFrame evs)
        with (gen s + count_NextFrame evs - uint64_modulus + 1 * uint64_modulus) in Heq by lia.
      rewrite Z.mod_add in Heq by lia.
      rewrite Z.mod_small in Heq; lia. }
  split; [|split].
  - apply Z.eqb_neq in Hne.
    unfold loop_recv, dropped_stale. rewrite Hex, Hq, Hdone, Hne. reflexivity.
  - reflexivity.
  - reflexivity.
Qed.

Lemma stale_request_is_dropped_witness :
  loop_recv (NextFrame (Enqueue "a.png" 1 1 4 4 demo))
  = Next (dropped_stale (demo_req "a.png" 1) [] (NextFrame (Enqueue "a.png" 1 1 4 4 demo))).
Proof.
  refine (proj1 (stale_request_is_dropped demo
            [EvEnqueue "a.png" 1 1 4 4; EvNextFrame]
            (NextFrame (Enqueue "a.png" 1 1 4 4 demo))
            (demo_req "a.png" 1) [] _ _ _ _ _ _)).
  - vm_compute. split; [discriminate | reflexivity].
  - reflexivity.
  - reflexivity.
  - reflexivity.
  - reflexivity.
  - right. vm_compute. split; [reflexivity|]. split; reflexivity.
Defined.

(** C7. Enqueue never blocks: called while the queue holds as many
    requests as its capacity, it returns at once in the very state it was
    called in, so the request is not queued, the function (which has no
    result) tells its caller nothing, and every later interleaving sends
    the Renderer exactly what it would have received without the call. *)
Theorem Enqueue_on_full_queue_drops :
  ∀ (s : Scheduler.t) (path : string) (x y w h : Z),
    length (queue s) = queue_cap s →
    step (EvEnqueue path x y w h) s = Next s
    ∧ Enqueue path x y w h s = s
    ∧ ∀ evs, run (EvEnqueue path x y w h :: evs) s = run evs s.
Proof.
  intros s path x y w h Hfull.
  assert (He : Enqueue path x y w h s = s).
  { unfold Enqueue. rewrite Hfull, Nat.ltb_irrefl. reflexivity. }
  split; [|split].
  - simpl. now rewrite He.
  - exact He.
  - intros evs. simpl. now rewrite He.
Qed.

Lemma Enqueue_on_full_queue_drops_witness :
  Enqueue "c.png" 1 1 4 4 (Enqueue "b.png" 1 1 4 4 (Enqueue "a.png" 1 1 4 4 demo))
  = Enqueue "b.png" 1 1 4 4 (Enqueue "a.png" 1 1 4 4 demo).
Proof.
  refine (proj1 (proj2 (Enqueue_on_full_queue_drops
            (Enqueue "b.png" 1 1 4 4 (Enqueue "a.png" 1 1 4 4 demo))
            "c.png" 1 1 4 4 _))).
  reflexivity.
Defined.

Lemma barrier_after_send rd buf pre s1 d s2 post s3 :
  run pre (NewScheduler rd buf) = Some s1 →
  Drain_send s1 = Next (d, s2) →
  run post s2 = Some s3 →
  barrier_waiting (map request_of (history s1)) (queue s1) (barrier d (gen s1)) d s3
  ∨ barrier_signalled (map request_of (history s1)) (queue s1) (barrier d (gen s1)) d s3.
Proof.
  intros Hpre Hsend Hpost.
  assert (Hwf : wf s1) by (eapply run_wf; [apply NewScheduler_wf | exact Hpre]).
  destruct (Drain_send_waiting _ _ _ Hwf Hsend) as (_ & Hwait & Hfresh).
  eapply barrier_run; [reflexivity | exact Hfresh | left; exact Hwait | exact Hpost].
Qed.

(** C3. Drain returns only after the consumer has received, in order,
    every request that was in the queue when the barrier was sent, and
    then the barrier; sending and awaiting the barrier call no Draw.  The
    barrier itself, whatever its generation tag, is answered by closing
    its channel at once, without a call of Draw. *)
Theorem Drain_returns_after_earlier_requests :
  (∀ rd buf pre s1 d s2 post s3,
     run pre (NewScheduler rd buf) = Some s1 →
     Drain_send s1 = Next (d, s2) →
     run post s2 = Some s3 →
     Drain_wait d s3 = Next s3 →
     draws s2 = draws s1
     ∧ ∃ before more,
         history s3 = before ++ Signalled (barrier d (gen s1)) :: more
         ∧ map request_of before = map request_of (history s1) ++ queue s1)
  ∧
  (∀ rd buf evs s b d rest,
     run evs (NewScheduler rd buf) = Some s →
     exited s = false →
     queue s = b :: rest →
     DrawReq.done b = Some d →
     loop_recv s = Next (signalled b d rest s)
     ∧ draws (signalled b d rest s) = draws s
     ∧ d ∈ closed (signalled b d rest s)).
Proof.
  split.
  - intros rd buf pre s1 d s2 post s3 Hpre Hsend Hpost Hwait. split.
    + unfold Drain_send in Hsend.
      destruct (length (queue s1) <? queue_cap s1)%nat; [|discriminate].
      now injection Hsend as <- <-.
    + unfold Drain_wait in Hwait. case_bool_decide as Hclosed; [|discriminate].
      destruct (barrier_after_send _ _ _ _ _ _ _ _ Hpre Hsend Hpost)
        as [(served & todo & later & _ & _ & _ & Hopen)|(before & more & Hh & Hb & _)].
      * contradiction.
      * exists before, more. split; assumption.
  - intros rd buf evs s b d rest Hrun Hex Hq Hdone.
    assert (Hwf : wf s) by (eapply run_wf; [apply NewScheduler_wf | exact Hrun]).
    destruct Hwf as (Hpend & _).
    assert (Hopen : d ∉ closed s).
    { apply Hpend. unfold pending_barriers. rewrite Hq. simpl. rewrite Hdone. now left. }
    split; [|split].
    + unfold loop_recv, signalled. rewrite Hex, Hq, Hdone.
      case_bool_decide; [contradiction | reflexivity].
    + reflexivity.
    + simpl. apply elem_of_union. left. now apply elem_of_singleton.
Qed.

Lemma Drain_returns_after_earlier_requests_witness :
  (draws demo_s2 = draws demo_s1
   ∧ ∃ before more,
       history demo_s3 = before ++ Signalled (barrier 0 (gen demo_s1)) :: more
       ∧ map request_of before = map request_of (history demo_s1) ++ queue demo_s1)
  ∧ loop_recv (dropped_stale (demo_req "a.png" 1) [barrier 0 2] demo_s2)
    = Next (signalled (barrier 0 2) 0 []
              (dropped_stale (demo_req "a.png" 1) [barrier 0 2] demo_s2)).
Proof.
  split.
  - refine (proj1 Drain_returns_after_earlier_requests
              (Some kittyRenderer) 2 [EvEnqueue "a.png" 1 1 4 4; EvNextFrame]
              demo_s1 0%nat demo_s2 [EvLoopRecv; EvLoopRecv] demo_s3 _ _ _ _).
    + reflexivity.
    + reflexivity.
    + vm_compute. reflexivity.
    + vm_compute. reflexivity.
  - refine (proj1 (proj2 Drain_returns_after_earlier_requests
              (Some kittyRenderer) 2
              [EvEnqueue "a.png" 1 1 4 4; EvNextFrame; EvDrainSend; EvLoopRecv]
              (dropped_stale (demo_req "a.png" 1) [barrier 0 2] demo_s2)
              (barrier 0 2) 0%nat [] _ _ _ _)).
    + vm_compute. reflexivity.
    + reflexivity.
    + reflexivity.
    + reflexivity.
Defined.

Lemma loop_recv_queue s s' :
  loop_recv s = Next s' →
  ∃ req, queue s = req :: queue s' ∧ queue_cap s' = queue_cap s.
Proof.
  unfold loop_recv. intros H. destruct (exited s); [discriminate|].
  destruct (queue s) as [|req rest]; [discriminate|]. exists req.
  destruct (DrawReq.done req).
  - case_bool_decide; [discriminate|]. now injection H as <-.
  - destruct (negb (DrawReq.gen req =? gen s)); [|destruct (r s)]; now injection H as <-.
Qed.

(** C10. Drain sends its barrier with a blocking send.  On a full queue
    the send cannot complete and nothing changes (where Enqueue returns
    and drops its request); as soon as the consumer has taken a request
    the send completes and the barrier stands at the tail of the queue.
    A barrier that has been sent is never discarded: in every later state
    it is still in the queue with its channel open, or the consumer has
    received it and closed its channel. *)
Theorem Drain_send_blocks_when_full :
  (∀ s, length (queue s) = queue_cap s →
        Drain_send s = Blocked ∧ step EvDrainSend s = Blocked
        ∧ (∀ path x y w h, step (EvEnqueue path x y w h) s = Next s)
        ∧ (∀ s', loop_recv s = Next s' →
                 ∃ s'', Drain_send s' = Next (chans s', s'')
                        ∧ queue s'' = queue s' ++ [barrier (chans s') (gen s')]))
  ∧
  (∀ rd buf pre s1 d s2 post s3,
     run pre (NewScheduler rd buf) = Some s1 →
     Drain_send s1 = Next (d, s2) →
     run post s2 = Some s3 →
     (barrier d (gen s1) ∈ queue s3 ∧ d ∉ closed s3)
     ∨ (Signalled (barrier d (gen s1)) ∈ history s3 ∧ d ∈ closed s3)).
Proof.
  split.
  - intros s Hfull.
    assert (Hsend : Drain_send s = Blocked).
    { unfold Drain_send. now rewrite Hfull, Nat.ltb_irrefl. }
    split; [exact Hsend|]. split; [simpl; now rewrite Hsend|]. split.
    + intros path x y w h. simpl. unfold Enqueue.
      now rewrite Hfull, Nat.ltb_irrefl.
    + intros s' Hrecv. destruct (loop_recv_queue _ _ Hrecv) as (req & Hq & Hcap).
      unfold Drain_send.
      assert (Hlt : (length (queue s') <? queue_cap s')%nat = true).
      { apply Nat.ltb_lt. rewrite Hcap, <- Hfull, Hq. simpl. lia. }
      rewrite Hlt. eexists. split; reflexivity.
  - intros rd buf pre s1 d s2 post s3 Hpre Hsend Hpost.
    destruct (barrier_after_send _ _ _ _ _ _ _ _ Hpre Hsend Hpost)
      as [(served & todo & later & _ & Hq & _ & Hopen)|(before & more & Hh & _ & Hc)].
    + left. split; [|exact Hopen]. rewrite Hq.
      apply elem_of_app. right. now left.
    + right. split; [|exact Hc]. rewrite Hh.
      apply elem_of_app. right. now left.
Qed.

Lemma Drain_send_blocks_when_full_witness :
  Drain_send (Enqueue "b.png" 1 1 4 4 (Enqueue "a.png" 1 1 4 4 demo)) = Blocked
  ∧ ((barrier 0 (gen demo_s1) ∈ queue demo_s3 ∧ 0%nat ∉ closed demo_s3)
     ∨ (Signalled (barrier 0 (gen demo_s1)) ∈ history demo_s3 ∧ 0%nat ∈ closed demo_s3)).
Proof.
  split.
  - refine (proj1 (proj1 Drain_send_blocks_when_full
              (Enqueue "b.png" 1 1 4 4 (Enqueue "a.png" 1 1 4 4 demo)) _)).
    reflexivity.
  - refine (proj2 Drain_send_blocks_when_full
              (Some kittyRenderer) 2 [EvEnqueue "a.png" 1 1 4 4; EvNextFrame]
              demo_s1 0%nat demo_s2 [EvLoopRecv; EvLoopRecv] demo_s3 _ _ _).
    + reflexivity.
    + reflexivity.
    + vm_compute. reflexivity.
Defined.

Lemma step_queue_cap e s s' : step e s = Next s' → queue_cap s' = queue_cap s.
Proof.
  intros H. destruct e; simpl in H.
  - injection H as <-. unfold Enqueue.
    destruct (length (queue s) <? queue_cap s)%nat; reflexivity.
  - now injection H as <-.
  - unfold Drain_send in H. destruct (length (queue s) <? queue_cap s)%nat; [|discriminate].
    now injection H as <-.
  - unfold Drain_wait in H. case_bool_decide; [|discriminate]. now injection H as <-.
  - destruct (loop_recv_queue _ _ H) as (_ & _ & Hc). exact Hc.
  - unfold loop_quit in H. destruct (exited s); [discriminate|].
    destruct (quit s); [|discriminate]. now injection H as <-.
  - unfold Close in H. destruct (quit s); [discriminate|]. now injection H as <-.
Qed.

Lemma run_queue_cap evs : ∀ s s', run evs s = Some s' → queue_cap s' = queue_cap s.
Proof.
  induction evs as [|e evs IH]; intros s s' H; simpl in H.
  - now injection H as <-.
  - destruct (step e s) as [s1| |] eqn:Hs; try discriminate.
    rewrite (IH _ _ H). eapply step_queue_cap. exact Hs.
Qed.

(** X1. In every interleaving from NewScheduler the queue holds at most as
    many requests as its capacity, which is [buf], or 64 when [buf] is not
    positive. *)
Theorem queue_never_exceeds_capacity :
  ∀ rd buf evs s,
    run evs (NewScheduler rd buf) = Some s →
    (length (queue s) ≤ queue_cap s)%nat
    ∧ queue_cap s = Z.to_nat (if buf <=? 0 then 64 else buf).
Proof.
  intros rd buf evs s Hrun. split.
  - assert (Hwf : wf s) by (eapply run_wf; [apply NewScheduler_wf | exact Hrun]).
    apply Hwf.
  - rewrite (run_queue_cap _ _ _ Hrun). reflexivity.
Qed.

Lemma queue_never_exceeds_capacity_witness :
  (length (queue demo_s1) ≤ queue_cap demo_s1)%nat ∧ queue_cap demo_s1 = 2%nat.
Proof.
  apply (queue_never_exceeds_capacity (Some kittyRenderer) 2
           [EvEnqueue "a.png" 1 1 4 4; EvNextFrame] demo_s1).
  reflexivity.
Defined.

(** X2. The consumer never panics: in every interleaving from NewScheduler
    the [done] channel of a barrier it receives is still open, so
    [close(req.done)] never closes a channel twice. *)
Theorem consumer_never_closes_twice :
  ∀ rd buf evs s,
    run evs (NewScheduler rd buf) = Some s → loop_recv s ≠ Panic.
Proof.
  intros rd buf evs s Hrun.
  assert (Hwf : wf s) by (eapply run_wf; [apply NewScheduler_wf | exact Hrun]).
  destruct Hwf as (Hpend & _). unfold loop_recv.
  destruct (exited s); [discriminate|].
  destruct (queue s) as [|req rest] eqn:Hq; [discriminate|].
  destruct (DrawReq.done req) as [d|] eqn:Hd.
  - case_bool_decide as Hc; [|discriminate]. exfalso. revert Hc.
    apply Hpend. unfold pending_barriers. rewrite Hq. simpl. rewrite Hd. now left.
  - destruct (negb _); [discriminate|]. destruct (r s); discriminate.
Qed.

Lemma consumer_never_closes_twice_witness :
  loop_recv demo_s2 ≠ Panic
  ∧ (omap DrawReq.done (take 1 (queue demo_barrier_head)) = [0%nat]
     ∧ loop_recv demo_barrier_head ≠ Panic).
Proof.
  split; [|split].
  - apply (consumer_never_closes_twice (Some kittyRenderer) 2
             [EvEnqueue "a.png" 1 1 4 4; EvNextFrame; EvDrainSend]).
    reflexivity.
  - reflexivity.
  - apply (consumer_never_closes_twice (Some kittyRenderer) 2
             [EvEnqueue "a.png" 1 1 4 4; EvNextFrame; EvDrainSend; EvLoopRecv]).
    reflexivity.
Defined.

Lemma step_accepted e s s' :
  step e s = Next s' → ∃ added, accepted s' = accepted s ++ added.
Proof.
  unfold accepted. intros H. destruct e; simpl in H.
  - injection H as <-. unfold Enqueue.
    destruct (length (queue s) <? queue_cap s)%nat; simpl.
    + eexists. now rewrite app_assoc.
    + exists []. now rewrite app_nil_r.
  - injection H as <-. exists []. now rewrite app_nil_r.
  - unfold Drain_send in H. destruct (length (queue s) <? queue_cap s)%nat; [|discriminate].
    injection H as <-. simpl. eexists. now rewrite app_assoc.
  - unfold Drain_wait in H. case_bool_decide; [|discriminate]. injection H as <-.
    exists []. now rewrite app_nil_r.
  - unfold loop_recv in H. destruct (exited s); [discriminate|].
    destruct (queue s) as [|req rest]; [discriminate|].
    assert (Hshift : ∀ a, request_of a = req →
              map request_of (history s ++ [a]) ++ rest
              = (map request_of (history s) ++ req :: rest) ++ []).
    { intros a <-. rewrite map_app, app_nil_r, <- app_assoc. reflexivity. }
    exists []. destruct (DrawReq.done req) as [d|].
    + case_bool_decide; [discriminate|]. injection H as <-. now apply Hshift.
    + destruct (negb (DrawReq.gen req =? gen s)); [|destruct (r s)];
        injection H as <-; now apply Hshift.
  - unfold loop_quit in H. destruct (exited s); [discriminate|].
    destruct (quit s); [|discriminate]. injection H as <-.
    exists []. now rewrite app_nil_r.
  - unfold Close in H. destruct (quit s); [discriminate|]. injection H as <-.
    exists []. now rewrite app_nil_r.
Qed.

Lemma run_accepted evs : ∀ s s',
  run evs s = Some s' → ∃ added, accepted s' = accepted s ++ added.
Proof.
  induction evs as [|e evs IH]; intros s s' H; simpl in H.
  - injection H as <-. exists []. now rewrite app_nil_r.
  - destruct (step e s) as [s1| |] eqn:Hs; try discriminate.
    destruct (step_accepted _ _ _ Hs) as [a1 H1]. destruct (IH _ _ H) as [a2 H2].
    exists (a1 ++ a2). now rewrite H2, H1, app_assoc.
Qed.

Lemma step_draws e s s' :
  draws s = omap drawn_of (history s) → step e s = Next s' →
  draws s' = omap drawn_of (history s').
Proof.
  intros Hd H. destruct e; simpl in H.
  - injection H as <-. unfold Enqueue.
    destruct (length (queue s) <? queue_cap s)%nat; exact Hd.
  - injection H as <-. exact Hd.
  - unfold Drain_send in H. destruct (length (queue s) <? queue_cap s)%nat; [|discriminate].
    injection H as <-. exact Hd.
  - unfold Drain_wait in H. case_bool_decide; [|discriminate]. now injection H as <-.
  - unfold loop_recv in H. destruct (exited s); [discriminate|].
    destruct (queue s) as [|req rest]; [discriminate|].
    destruct (DrawReq.done req) as [d|].
    + case_bool_decide; [discriminate|]. injection H as <-. simpl.
      rewrite omap_app. simpl. now rewrite app_nil_r.
    + destruct (negb (DrawReq.gen req =? gen s)); [|destruct (r s)];
        injection H as <-; simpl; rewrite omap_app; simpl;
        rewrite ?app_nil_r; congruence.
  - unfold loop_quit in H. destruct (exited s); [discriminate|].
    destruct (quit s); [|discriminate]. injection H as <-. exact Hd.
  - unfold Close in H. destruct (quit s); [discriminate|]. injection H as <-. exact Hd.
Qed.

Lemma run_draws evs : ∀ s s',
  draws s = omap drawn_of (history s) → run evs s = Some s' →
  draws s' = omap drawn_of (history s').
Proof.
  induction evs as [|e evs IH]; intros s s' Hd H; simpl in H.
  - now injection H as <-.
  - destruct (step e s) as [s1| |] eqn:Hs; try discriminate.
    eapply IH; [|exact H]. eapply step_draws; eassumption.
Qed.

(** X3. Requests are served in the order the queue accepted them.  In
    every interleaving from NewScheduler the requests received by the
    consumer followed by those still queued form one sequence that later
    actions only extend at its end, and the calls of the Renderer's Draw
    are, in that order, the received requests that were neither stale nor
    barriers. *)
Theorem requests_are_served_in_order :
  ∀ rd buf evs s,
    run evs (NewScheduler rd buf) = Some s →
    draws s = omap drawn_of (history s)
    ∧ (∀ evs' s', run evs' s = Some s' →
         ∃ added, accepted s' = accepted s ++ added).
Proof.
  intros rd buf evs s Hrun. split.
  - eapply run_draws; [|exact Hrun]. reflexivity.
  - intros evs' s'. apply run_accepted.
Qed.

Lemma requests_are_served_in_order_witness :
  draws demo_s3 = omap drawn_of (history demo_s3)
  ∧ (draws demo_two_draws = omap drawn_of (history demo_two_draws)
     ∧ map DrawReq.Path (draws demo_two_draws) = ["a.png"; "b.png"]).
Proof.
  split; [|split].
  - apply (requests_are_served_in_order (Some kittyRenderer) 2
             [EvEnqueue "a.png" 1 1 4 4; EvNextFrame; EvDrainSend; EvLoopRecv; EvLoopRecv]).
    reflexivity.
  - apply (requests_are_served_in_order (Some kittyRenderer) 2
             [EvEnqueue "a.png" 1 1 4 4; EvLoopRecv; EvEnqueue "b.png" 1 1 4 4; EvLoopRecv]).
    reflexivity.
  - reflexivity.
Defined.

Lemma step_after_exit e s s' :
  exited s = true → step e s = Next s' → exited s' = true ∧ closed s' = closed s.
Proof.
  intros Hex H. destruct e; simpl in H.
  - injection H as <-. unfold Enqueue.
    destruct (length (queue s) <? queue_cap s)%nat; simpl; auto.
  - injection H as <-. simpl. auto.
  - unfold Drain_send in H. destruct (length (queue s) <? queue_cap s)%nat; [|discriminate].
    injection H as <-. simpl. auto.
  - unfold Drain_wait in H. case_bool_decide; [|discriminate]. injection H as <-. auto.
  - unfold loop_recv in H. rewrite Hex in H. discriminate.
  - unfold loop_quit in H. rewrite Hex in H. discriminate.
  - unfold Close in H. destruct (quit s); [discriminate|]. injection H as <-. simpl. auto.
Qed.

Lemma run_after_exit evs : ∀ s s',
  exited s = true → run evs s = Some s' → exited s' = true ∧ closed s' = closed s.
Proof.
  induction evs as [|e evs IH]; intros s s' Hex H; simpl in H.
  - injection H as <-. auto.
  - destruct (step e s) as [s1| |] eqn:Hs; try discriminate.
    destruct (step_after_exit _ _ _ Hex Hs) as [Hex1 Hc1].
    destruct (IH _ _ Hex1 H) as [Hex' Hc']. split; [exact Hex'|congruence].
Qed.

(** X4. Drain never returns once the consumer goroutine has left its loop:
    whatever the other goroutines do afterwards, the barrier it sent stays
    in the queue and its channel is never closed, so the caller stays
    blocked in the receive. *)
Theorem Drain_after_exit_never_returns :
  ∀ rd buf pre s d s1 post s2,
    run pre (NewScheduler rd buf) = Some s →
    exited s = true →
    Drain_send s = Next (d, s1) →
    run post s1 = Some s2 →
    Drain_wait d s2 = Blocked ∧ barrier d (gen s) ∈ queue s2.
Proof.
  intros rd buf pre s d s1 post s2 Hpre Hex Hsend Hpost.
  assert (Hwf : wf s) by (eapply run_wf; [apply NewScheduler_wf | exact Hpre]).
  destruct (Drain_send_waiting _ _ _ Hwf Hsend) as (Hd & Hwait & Hfresh).
  assert (Hex1 : exited s1 = true ∧ closed s1 = closed s).
  { unfold Drain_send in Hsend.
    destruct (length (queue s) <? queue_cap s)%nat; [|discriminate].
    injection Hsend as _ <-. simpl. auto. }
  destruct Hex1 as [Hex1 Hc1].
  destruct (run_after_exit _ _ _ Hex1 Hpost) as [Hex2 Hc2].
  assert (Hopen : d ∉ closed s2).
  { rewrite Hc2, Hc1. destruct Hwf as (_ & Hc & _). intros Hin. apply Hc in Hin. lia. }
  split.
  - unfold Drain_wait. case_bool_decide; [contradiction | reflexivity].
  - destruct (barrier_run (map request_of (history s)) (queue s) (barrier d (gen s)) d
                post eq_refl Hfresh s1 s2 (or_introl Hwait) Hpost)
      as [(served & todo & later & _ & Hq & _)|(_ & _ & _ & _ & Hin)].
    + rewrite Hq. apply elem_of_app. right. now left.
    + contradiction.
Qed.

Lemma Drain_after_exit_never_returns_witness :
  Drain_wait 0 (Enqueue "a.png" 1 1 4 4
                  (Scheduler.mk (Some kittyRenderer) [barrier 0 1] 2 true 1 1 ∅ true [] []))
  = Blocked.
Proof.
  apply (Drain_after_exit_never_returns (Some kittyRenderer) 2
           [EvClose; EvLoopQuit]
           (Scheduler.mk (Some kittyRenderer) [] 2 true 1 0 ∅ true [] [])
           0%nat
           (Scheduler.mk (Some kittyRenderer) [barrier 0 1] 2 true 1 1 ∅ true [] [])
           [EvEnqueue "a.png" 1 1 4 4]); reflexivity.
Defined.

End term_props.

(* ===================================================================== *)
(** * Properties of the generation service *)
(* ===================================================================== *)

Module thumb_props.
Import thumb.

#[local] Set Warnings "-inexact-float".

Ltac case_if :=
  match goal with
  | |- context [if ?b then _ else _] => destruct b eqn:?
  end.

Section Facts.
Context {lib : GoLib}.

Lemma exec_Run_dirs name args w ok so w' :
  exec_Run name args w = (ok, so, w') → dirs w' = dirs w.
Proof.
  unfold exec_Run. destruct (programs w !! name); intros H; now injection H as <- <- <-.
Qed.

Lemma probeDuration_dirs abs w r w' :
  probeDuration abs w = (r, w') → dirs w' = dirs w.
Proof.
  unfold probeDuration.
  destruct (exec_Run _ _ w) as [[ok so] w1] eqn:Hrun. apply exec_Run_dirs in Hrun.
  destruct ok; [|intros H; now injection H as <- <-].
  case_if; [intros H; now injection H as <- <-|].
  destruct (strconv_ParseFloat _) as [d|]; [|intros H; now injection H as <- <-].
  case_if; intros H; now injection H as <- <-.
Qed.

Lemma ffmpegGrab_seek_dirs abs w x w' :
  ffmpegGrab_seek abs w = (x, w') → dirs w' = dirs w.
Proof.
  unfold ffmpegGrab_seek. case_if; [|intros H; now injection H as <- <-].
  destruct (probeDuration abs w) as [[d|e] w1] eqn:Hp; apply probeDuration_dirs in Hp.
  - destruct (0 <? d)%float; intros H; now injection H as <- <-.
  - intros H; now injection H as <- <-.
Qed.

Lemma ffmpegGrab_dirs abs w h out wd ok wd' :
  ffmpegGrab abs w h out wd = (ok, wd') → dirs wd' = dirs wd.
Proof.
  unfold ffmpegGrab.
  match goal with |- context [let '(_, _) := ?c in _] => destruct c as [w0 h0] end.
  destruct (ffmpegGrab_seek abs wd) as [x wd1] eqn:Hs. apply ffmpegGrab_seek_dirs in Hs.
  destruct (exec_Run _ _ wd1) as [[ok' so] wd2] eqn:Hrun. apply exec_Run_dirs in Hrun.
  intros H. injection H as <- <-. congruence.
Qed.

Lemma os_CreateTemp_dirs dir w tmp w' :
  os_CreateTemp dir w = Some (tmp, w') → dirs w' = dirs w.
Proof.
  unfold os_CreateTemp. destruct (dirs w !! dir); [|discriminate].
  case_bool_decide; [discriminate|].
  destruct (free_temp _ _ _ _); [|discriminate].
  intros Heq. now injection Heq as <- <-.
Qed.

Lemma os_Rename_dirs a b w : dirs (os_Rename a b w) = dirs w.
Proof.
  unfold os_Rename. destruct (files w !! a); [|reflexivity].
  destruct (dirs w !! b); reflexivity.
Qed.

Lemma os_Remove_dirs a w : dirs (os_Remove a w) = dirs w.
Proof. reflexivity. Qed.

Lemma skip_length f l : (length (skip f l) ≤ length l)%nat.
Proof. induction l as [|c l IH]; simpl; [lia|]. destruct (f c); simpl; lia. Qed.

Lemma skip_head f l c l' : skip f l = c :: l' → f c = false.
Proof.
  induction l as [|x l IH]; simpl; [discriminate|].
  destruct (f x) eqn:Hx; [exact IH|]. intros H. injection H as -> _. exact Hx.
Qed.

Lemma string_length_list s : String.length s = length (list_ascii_of_string s).
Proof. induction s as [|c s IH]; simpl; congruence. Qed.

(** The parent is shorter than the path, so the recursion of os.MkdirAll
    ends. *)
Lemma MkdirAll_parent_shorter p q :
  MkdirAll_parent p = Some q → (String.length q < String.length p)%nat.
Proof.
  unfold MkdirAll_parent.
  set (b1 := skip IsPathSeparator (rev (list_ascii_of_string p))).
  set (b2 := skip (λ c, negb (IsPathSeparator c)) b1).
  assert (H1 : (length b1 ≤ String.length p)%nat).
  { subst b1. etransitivity; [apply skip_length|].
    rewrite length_rev, string_length_list. lia. }
  assert (H2 : (length b2 ≤ length b1)%nat) by apply skip_length.
  destruct (skip IsPathSeparator b2) as [|c l] eqn:Hb3; [discriminate|].
  intros H. injection H as <-. change (rev l ++ [c]) with (rev (c :: l)).
  rewrite string_length_list, list_ascii_of_string_of_list_ascii, length_rev.
  assert (H3 : (length (c :: l) < length b2)%nat).
  { rewrite <- Hb3. destruct b2 as [|x b2'] eqn:Hb2; [discriminate|].
    pose proof (skip_head _ _ _ _ Hb2) as Hx. apply negb_false_iff in Hx.
    cbn [skip]. rewrite Hx. pose proof (skip_length IsPathSeparator b2'). simpl. lia. }
  lia.
Qed.

(** A depth of the length of the path is enough: a greater one gives the
    same result. *)
Lemma MkdirAll_rec_depth n : ∀ m p w,
  (String.length p ≤ n)%nat → (String.length p ≤ m)%nat →
  MkdirAll_rec n p w = MkdirAll_rec m p w.
Proof.
  induction n as [|n IH]; intros m p w Hn Hm.
  - destruct p; [|simpl in Hn; lia]. destruct m; reflexivity.
  - destruct m as [|m].
    + destruct p; [|simpl in Hm; lia]. reflexivity.
    + cbn [MkdirAll_rec]. destruct (dirs w !! p); [reflexivity|].
      destruct (files w !! p); [reflexivity|].
      destruct (MkdirAll_parent p) as [q|] eqn:Hq; [|reflexivity].
      apply MkdirAll_parent_shorter in Hq. rewrite (IH m q w) by lia. reflexivity.
Qed.

Lemma os_Mkdir_frame p w err w' :
  os_Mkdir p w = (err, w') →
  files w' = files w ∧ env w' = env w ∧ procs w' = procs w ∧ programs w' = programs w
  ∧ dirs w ⊆ dirs w'.
Proof.
  unfold os_Mkdir, os_Stat. destruct (files w !! p) eqn:Hf.
  { intros H. injection H as <- <-. auto. }
  destruct (dirs w !! p) eqn:Hd.
  { intros H. injection H as <- <-. auto. }
  case_bool_decide; intros Heq; injection Heq as <- <-; [auto|].
  simpl. repeat split. now apply insert_subseteq.
Qed.

(** os.MkdirAll writes no regular file and starts no process; it removes
    and changes no directory, whether it fails or not. *)
Lemma MkdirAll_rec_frame n : ∀ p w err w',
  MkdirAll_rec n p w = (err, w') →
  files w' = files w ∧ env w' = env w ∧ procs w' = procs w ∧ programs w' = programs w
  ∧ dirs w ⊆ dirs w'.
Proof.
  assert (Hstep : ∀ p (w w1 : World) err w',
            (files w1 = files w ∧ env w1 = env w ∧ procs w1 = procs w
             ∧ programs w1 = programs w ∧ dirs w ⊆ dirs w1) →
            match os_Mkdir p w1 with
            | (None, w2) => (None, w2)
            | (Some e, w2) =>
                match dirs w2 !! p with
                | Some _ => (None, w2)
                | None => (Some e, w2)
                end
            end = (err, w') →
            files w' = files w ∧ env w' = env w ∧ procs w' = procs w
            ∧ programs w' = programs w ∧ dirs w ⊆ dirs w').
  { intros p w w1 err w' (Hf & He & Hp & Hg & Hd).
    destruct (os_Mkdir p w1) as [e w2] eqn:Hmk.
    destruct (os_Mkdir_frame _ _ _ _ Hmk) as (Hf2 & He2 & Hp2 & Hg2 & Hd2).
    assert (Hw2 : files w2 = files w ∧ env w2 = env w ∧ procs w2 = procs w
                  ∧ programs w2 = programs w ∧ dirs w ⊆ dirs w2).
    { repeat split; try congruence. etransitivity; eassumption. }
    destruct e; [destruct (dirs w2 !! p)|]; intros H; injection H as <- <-; exact Hw2. }
  induction n as [|n IH]; intros p w err w'; cbn [MkdirAll_rec];
    (destruct (dirs w !! p); [intros H; injection H as <- <-; auto|]);
    (destruct (files w !! p); [intros H; injection H as <- <-; auto|]).
  - apply Hstep. auto.
  - destruct (MkdirAll_parent p) as [q|]; [|apply Hstep; auto].
    destruct (MkdirAll_rec n q w) as [e w1] eqn:Hq. apply IH in Hq.
    destruct e; [intros H; injection H as <- <-; exact Hq|]. apply Hstep. exact Hq.
Qed.

Lemma os_Mkdir_dirs p w w' : os_Mkdir p w = (None, w') → is_Some (dirs w' !! p).
Proof.
  unfold os_Mkdir. destruct (os_Stat p w); [discriminate|].
  case_bool_decide; [discriminate|].
  intros Heq. injection Heq as <-. simpl. rewrite lookup_insert_eq. eauto.
Qed.

Lemma MkdirAll_rec_dirs n p w w' :
  MkdirAll_rec n p w = (None, w') → is_Some (dirs w' !! p).
Proof.
  assert (Hstep : ∀ w1,
            match os_Mkdir p w1 with
            | (None, w2) => (None, w2)
            | (Some e, w2) =>
                match dirs w2 !! p with
                | Some _ => (None, w2)
                | None => (Some e, w2)
                end
            end = (None, w') → is_Some (dirs w' !! p)).
  { intros w1. destruct (os_Mkdir p w1) as [[e|] w2] eqn:Hmk.
    - destruct (dirs w2 !! p) eqn:Hd; [|discriminate].
      intros H. injection H as <-. rewrite Hd. eauto.
    - intros H. injection H as <-. eapply os_Mkdir_dirs; eassumption. }
  destruct n as [|n]; cbn [MkdirAll_rec];
    (destruct (dirs w !! p) eqn:Hd; [intros H; injection H as <-; rewrite Hd; eauto|]);
    (destruct (files w !! p); [discriminate|]).
  - apply Hstep.
  - destruct (MkdirAll_parent p) as [q|]; [|apply Hstep].
    destruct (MkdirAll_rec n q w) as [[e|] w1]; [discriminate|]. apply Hstep.
Qed.

Lemma os_MkdirAll_dirs d w w' :
  os_MkdirAll d w = (None, w') → is_Some (dirs w' !! d).
Proof. apply MkdirAll_rec_dirs. Qed.

Lemma os_MkdirAll_existing d w :
  is_Some (dirs w !! d) → os_MkdirAll d w = (None, w).
Proof.
  intros [i Hi]. unfold os_MkdirAll.
  destruct (String.length d); cbn [MkdirAll_rec]; now rewrite Hi.
Qed.

Lemma os_MkdirAll_frame d w err w' :
  os_MkdirAll d w = (err, w') →
  files w' = files w ∧ env w' = env w ∧ procs w' = procs w ∧ programs w' = programs w
  ∧ dirs w ⊆ dirs w'.
Proof. apply MkdirAll_rec_frame. Qed.

Lemma Generate_ffmpeg_attempt abs size cacheDir out w tmp w1 ok w2 :
  ffmpeg_chosen abs w = true →
  os_CreateTemp cacheDir w = Some (tmp, w1) →
  ffmpegGrab abs size size tmp w1 = (ok, w2) →
  Generate_ffmpeg abs size cacheDir out w = attempt_outcome ok tmp out w2.
Proof.
  unfold ffmpeg_chosen, Generate_ffmpeg. intros -> -> ->. now destruct ok.
Qed.

Lemma Generate_vips_attempt abs size cacheDir out w tmp w1 ok so w2 :
  vips_chosen abs w = true →
  os_CreateTemp cacheDir w = Some (tmp, w1) →
  exec_Run "vipsthumbnail" [abs; "-s"; Itoa size; "-o"; tmp] w1 = (ok, so, w2) →
  Generate_vips abs size cacheDir out w = attempt_outcome ok tmp out w2.
Proof.
  unfold vips_chosen, Generate_vips. intros -> -> ->. now destruct ok.
Qed.

Lemma Generate_magick_attempt abs size cacheDir out w tmp w1 ok so w2 :
  hasExec "magick" w = true →
  os_CreateTemp cacheDir w = Some (tmp, w1) →
  exec_Run "magick" (magick_args abs size size tmp) w1 = (ok, so, w2) →
  Generate_magick abs size cacheDir out w = attempt_outcome ok tmp out w2.
Proof.
  unfold Generate_magick. intros -> -> ->. now destruct ok.
Qed.

Lemma GenerateRect_ffmpeg_attempt abs w h cacheDir out wd tmp w1 ok w2 :
  ffmpeg_chosen abs wd = true →
  os_CreateTemp cacheDir wd = Some (tmp, w1) →
  ffmpegGrab abs w h tmp w1 = (ok, w2) →
  GenerateRect_ffmpeg abs w h cacheDir out wd = attempt_outcome ok tmp out w2.
Proof.
  unfold ffmpeg_chosen, GenerateRect_ffmpeg. intros -> -> ->. now destruct ok.
Qed.

Lemma GenerateRect_magick_attempt abs w h cacheDir out wd tmp w1 ok so w2 :
  hasExec "magick" wd = true →
  os_CreateTemp cacheDir wd = Some (tmp, w1) →
  exec_Run "magick" (magick_args abs w h tmp) w1 = (ok, so, w2) →
  GenerateRect_magick abs w h cacheDir out wd = attempt_outcome ok tmp out w2.
Proof.
  unfold GenerateRect_magick. intros -> -> ->. now destruct ok.
Qed.

Lemma attempt_block_ok ok tmp out w w1 w2 :
  dirs w1 = dirs w → dirs w2 = dirs w1 → block_ok out w (attempt_outcome ok tmp out w2).
Proof.
  intros H1 H2. destruct ok; simpl.
  - split; [reflexivity|]. rewrite os_Rename_dirs. congruence.
  - congruence.
Qed.

Lemma Generate_ffmpeg_ok abs size cacheDir out w :
  block_ok out w (Generate_ffmpeg abs size cacheDir out w).
Proof.
  destruct (ffmpeg_chosen abs w) eqn:Hg.
  - destruct (os_CreateTemp cacheDir w) as [[tmp w1]|] eqn:Ht.
    + destruct (ffmpegGrab abs size size tmp w1) as [ok w2] eqn:Hr.
      rewrite (Generate_ffmpeg_attempt _ _ _ _ _ _ _ _ _ Hg Ht Hr).
      eapply attempt_block_ok;
        [eapply os_CreateTemp_dirs; eassumption | eapply ffmpegGrab_dirs; eassumption].
    + unfold Generate_ffmpeg. fold (ffmpeg_chosen abs w). rewrite Hg, Ht. exact I.
  - unfold Generate_ffmpeg. fold (ffmpeg_chosen abs w). rewrite Hg. reflexivity.
Qed.

Lemma Generate_vips_ok abs size cacheDir out w :
  block_ok out w (Generate_vips abs size cacheDir out w).
Proof.
  destruct (vips_chosen abs w) eqn:Hg.
  - destruct (os_CreateTemp cacheDir w) as [[tmp w1]|] eqn:Ht.
    + destruct (exec_Run "vipsthumbnail" [abs; "-s"; Itoa size; "-o"; tmp] w1)
        as [[ok so] w2] eqn:Hr.
      rewrite (Generate_vips_attempt _ _ _ _ _ _ _ _ _ _ Hg Ht Hr).
      eapply attempt_block_ok;
        [eapply os_CreateTemp_dirs; eassumption | eapply exec_Run_dirs; eassumption].
    + unfold Generate_vips. fold (vips_chosen abs w). rewrite Hg, Ht. exact I.
  - unfold Generate_vips. fold (vips_chosen abs w). rewrite Hg. reflexivity.
Qed.

Lemma Generate_magick_ok abs size cacheDir out w :
  block_ok out w (Generate_magick abs size cacheDir out w).
Proof.
  destruct (hasExec "magick" w) eqn:Hg.
  - destruct (os_CreateTemp cacheDir w) as [[tmp w1]|] eqn:Ht.
    + destruct (exec_Run "magick" (magick_args abs size size tmp) w1)
        as [[ok so] w2] eqn:Hr.
      rewrite (Generate_magick_attempt _ _ _ _ _ _ _ _ _ _ Hg Ht Hr).
      eapply attempt_block_ok;
        [eapply os_CreateTemp_dirs; eassumption | eapply exec_Run_dirs; eassumption].
    + unfold Generate_magick. rewrite Hg, Ht. exact I.
  - unfold Generate_magick. rewrite Hg. reflexivity.
Qed.

(** A call of [Generate] that returns a path returns the path of the
    square cache entry of the source as it was stat-ed, and leaves the
    cache directory in place. *)
Lemma Generate_Ok path size cacheDir w out w1 :
  Generate path size cacheDir w = Done (Ok out) w1 →
  ∃ info, os_Stat (source_path path) w = Some info
          ∧ out = square_entry (source_path path) size cacheDir info
          ∧ is_Some (dirs w1 !! cacheDir).
Proof.
  unfold Generate. fold (source_path path).
  destruct (os_Stat (source_path path) w) as [info|] eqn:Hstat; [|discriminate].
  destruct (os_MkdirAll cacheDir w) as [[e|] wa] eqn:Hmk; [discriminate|].
  apply os_MkdirAll_dirs in Hmk.
  fold (square_entry (source_path path) size cacheDir info).
  set (o := square_entry (source_path path) size cacheDir info).
  intros H. exists info. split; [reflexivity|].
  destruct (os_Stat o wa).
  { injection H as <- <-. auto. }
  pose proof (Generate_ffmpeg_ok (source_path path) size cacheDir o wa) as H1.
  destruct (Generate_ffmpeg _ _ _ _ wa) as [[res w'|]|wb]; simpl in H1.
  { injection H as -> ->. destruct H1 as [H1 H1']. injection H1 as ->.
    rewrite H1'. auto. }
  { discriminate. }
  pose proof (Generate_vips_ok (source_path path) size cacheDir o wb) as H2.
  destruct (Generate_vips _ _ _ _ wb) as [[res w'|]|wc]; simpl in H2.
  { injection H as -> ->. destruct H2 as [H2 H2']. injection H2 as ->.
    rewrite H2', H1. auto. }
  { discriminate. }
  pose proof (Generate_magick_ok (source_path path) size cacheDir o wc) as H3.
  destruct (Generate_magick _ _ _ _ wc) as [[res w'|]|wd]; simpl in H3.
  { injection H as -> ->. destruct H3 as [H3 H3']. injection H3 as ->.
    rewrite H3', H2, H1. auto. }
  { discriminate. }
  discriminate.
Qed.

(** C4 (amended). When a call of Generate returns a path, the source is
    as it was stat-ed by that call, and the cache entry is on disk under
    the returned path, a second call returns the same path from the cache
    stat hit: it changes nothing and starts no process. *)
Theorem second_Generate_hits_cache :
  ∀ (path : string) (size : Z) (cacheDir : string) (w : World) (out : string) (w1 : World),
    Generate path size cacheDir w = Done (Ok out) w1 →
    os_Stat (source_path path) w1 = os_Stat (source_path path) w →
    is_Some (os_Stat out w1) →
    Generate path size cacheDir w1 = Done (Ok out) w1
    ∧ procs_after (Generate path size cacheDir w1) = procs w1.
Proof.
  intros path size cacheDir w out w1 Hfirst Hsame [i Hentry].
  destruct (Generate_Ok _ _ _ _ _ _ Hfirst) as (info & Hstat & Hout & Hdir).
  assert (Hsecond : Generate path size cacheDir w1 = Done (Ok out) w1).
  { unfold Generate. fold (source_path path). rewrite Hsame, Hstat.
    rewrite (os_MkdirAll_existing _ _ Hdir).
    fold (square_entry (source_path path) size cacheDir info).
    rewrite <- Hout, Hentry. reflexivity. }
  split; [exact Hsecond|]. rewrite Hsecond. reflexivity.
Qed.

(** C6. With a non-positive width or height, GenerateRect is Generate on
    the larger of the two: the same result, the same error, the same
    effects. *)
Theorem GenerateRect_nonpositive_is_Generate :
  ∀ (path : string) (w h : Z) (cacheDir : string) (wd : World),
    w ≤ 0 ∨ h ≤ 0 →
    GenerateRect path w h cacheDir wd = Generate path (max w h) cacheDir wd.
Proof.
  intros path w h cacheDir wd Hnp. unfold GenerateRect.
  assert (Hb : (w <=? 0) || (h <=? 0) = true).
  { apply orb_true_iff. destruct Hnp; [left|right]; now apply Z.leb_le. }
  now rewrite Hb.
Qed.


Lemma probeDuration_success abs w D w1 :
  probeDuration abs w = (inl D, w1) →
  hasExec "ffprobe" w = true ∧ (0 <? D)%float = true.
Proof.
  unfold probeDuration, exec_Run, hasExec.
  destruct (programs w !! "ffprobe") as [prog|]; [|discriminate].
  destruct (exit_ok _); [|discriminate].
  case_if; [discriminate|].
  destruct (strconv_ParseFloat _) as [d|]; [|discriminate].
  destruct (0 <? d)%float eqn:Hpos; [|discriminate].
  intros H. injection H as <- _. auto.
Qed.

(** C5 (amended). When the probe succeeds with duration D (which is then
    positive), the seek offset is min(max(0.10·D, 0.5), D − 0.1): the lower
    bound 0.5 is applied first and the upper bound D − 0.1 last.  That is
    1.0 for D = 10.0 and 0.3 − 0.1 for D = 0.3.  When the probe fails, or
    ffprobe is not installed, the offset is 2.0; a duration that is not
    positive is a failed probe. *)
Theorem seek_offset_lower_bound_first :
  (∀ abs w D w1,
     probeDuration abs w = (inl D, w1) →
     (0 <? D)%float = true ∧ ffmpegGrab_seek abs w = (amended_seek D, w1))
  ∧ (∀ abs w e w1,
       probeDuration abs w = (inr e, w1) → (ffmpegGrab_seek abs w).1 = 2.0%float)
  ∧ (∀ abs w, hasExec "ffprobe" w = false → ffmpegGrab_seek abs w = (2.0%float, w))
  ∧ amended_seek 10 = 1%float
  ∧ amended_seek 0.3 = (0.3 - 0.1)%float.
Proof.
  split; [|split; [|split; [|split]]].
  - intros abs w D w1 Hp. destruct (probeDuration_success _ _ _ _ Hp) as [Hx Hpos].
    split; [exact Hpos|]. unfold ffmpegGrab_seek. rewrite Hx, Hp, Hpos. reflexivity.
  - intros abs w e w1 Hp. unfold ffmpegGrab_seek.
    destruct (hasExec "ffprobe" w); [now rewrite Hp | reflexivity].
  - intros abs w Hx. unfold ffmpegGrab_seek. now rewrite Hx.
  - vm_compute. reflexivity.
  - vm_compute. reflexivity.
Qed.

Lemma append_cancel_l (a b c : string) : a +:+ b = a +:+ c → b = c.
Proof.
  induction a as [|x a IH]; simpl; intros H; [exact H|].
  injection H as H. auto.
Qed.

Lemma string_of_uint_digits d : all_digits (NilEmpty.string_of_uint d) = true.
Proof. induction d; simpl; auto. Qed.

Lemma Itoa_digits z : 0 ≤ z → all_digits (Itoa z) = true.
Proof.
  intros Hz. unfold Itoa. destruct z as [|p|p]; [reflexivity| |lia].
  simpl. unfold NilZero.string_of_uint.
  destruct (Pos.to_uint p) eqn:Hd; try reflexivity; rewrite <- Hd;
    apply string_of_uint_digits.
Qed.

(** Two strings of digits, each followed by a character that is not a
    digit: the digits are the same, and so is what follows them. *)
Lemma digits_then_separator a : ∀ b c1 c2 r1 r2,
  all_digits a = true → all_digits b = true →
  is_digit c1 = false → is_digit c2 = false →
  a +:+ String c1 r1 = b +:+ String c2 r2 → a = b ∧ String c1 r1 = String c2 r2.
Proof.
  induction a as [|x a IH]; intros [|y b] c1 c2 r1 r2 Ha Hb H1 H2 Heq;
    simpl in *.
  - auto.
  - injection Heq as -> _. apply andb_true_iff in Hb as [Hy _]. congruence.
  - injection Heq as -> _. apply andb_true_iff in Ha as [Hx _]. congruence.
  - injection Heq as -> Heq.
    apply andb_true_iff in Ha as [_ Ha]. apply andb_true_iff in Hb as [_ Hb].
    destruct (IH _ _ _ _ _ Ha Hb H1 H2 Heq) as [-> Hrest]. auto.
Qed.

(** What is hashed for a square entry differs from what is hashed for a
    rectangular one. *)
Lemma key_inputs_differ abs size w h mt fsz mt' fsz' :
  0 ≤ size → 0 ≤ w →
  cacheKey_input abs size mt fsz ≠ cacheKeyRect_input abs w h mt' fsz'.
Proof.
  intros Hs Hw Heq. unfold cacheKey_input, cacheKeyRect_input in Heq.
  apply append_cancel_l in Heq. simpl in Heq. injection Heq as Heq.
  apply digits_then_separator in Heq as [_ Heq];
    try (apply Itoa_digits; assumption); try reflexivity.
  discriminate.
Qed.

Lemma Itoa_inj a b : Itoa a = Itoa b → a = b.
Proof.
  unfold Itoa. intros H. apply DecimalZ.to_int_inj.
  assert (Hparse : ∀ z, NilZero.int_of_string (NilZero.string_of_int (Z.to_int z))
                        = Some (Z.to_int z)).
  { intros z. apply NilZero.isi; destruct z; simpl; try discriminate;
      intros E; injection E as E; now apply DecimalPos.Unsigned.to_uint_nonnil in E. }
  apply (f_equal NilZero.int_of_string) in H. rewrite !Hparse in H. now injection H.
Qed.

Lemma max_cases a b : (max a b = a ∧ b ≤ a) ∨ (max a b = b ∧ a ≤ b).
Proof.
  unfold max. destruct (a >? b) eqn:H; [left|right]; split; try reflexivity.
  - apply Z.gtb_lt in H. lia.
  - rewrite Z.gtb_ltb in H. apply Z.ltb_ge in H. lia.
Qed.

(** C9. With both dimensions positive, when the ffmpeg block and the magick
    block of GenerateRect both fall through (the strategy was not available
    or its run failed), the call does not return an error itself: its
    result is that of Generate on the larger dimension, run in the world
    the failed attempts left.  A path it returns is then the square entry's
    path, whose hash input differs from the rectangular entry's. *)
Theorem GenerateRect_falls_back_to_Generate :
  ∀ (path : string) (w h : Z) (cacheDir : string) (wd : World) (info : FileInfo)
    (wd1 wd2 wd3 : World),
    0 < w → 0 < h →
    os_Stat (source_path path) wd = Some info →
    os_MkdirAll cacheDir wd = (None, wd1) →
    os_Stat (rect_entry (source_path path) w h cacheDir info) wd1 = None →
    GenerateRect_ffmpeg (source_path path) w h cacheDir
      (rect_entry (source_path path) w h cacheDir info) wd1 = FallThrough wd2 →
    GenerateRect_magick (source_path path) w h cacheDir
      (rect_entry (source_path path) w h cacheDir info) wd2 = FallThrough wd3 →
    GenerateRect path w h cacheDir wd = Generate path (max w h) cacheDir wd3
    ∧ (∀ out w', GenerateRect path w h cacheDir wd = Done (Ok out) w' →
         ∃ info', os_Stat (source_path path) wd3 = Some info'
                  ∧ out = square_entry (source_path path) (max w h) cacheDir info'
                  ∧ cacheKey_input (source_path path) (max w h) (ModTime info') (Size info')
                    ≠ cacheKeyRect_input (source_path path) w h (ModTime info) (Size info)).
Proof.
  intros path w h cacheDir wd info wd1 wd2 wd3 Hw Hh Hstat Hmk Hmiss Hff Hmg.
  assert (Hfall : GenerateRect path w h cacheDir wd = Generate path (max w h) cacheDir wd3).
  { unfold GenerateRect.
    assert (Hb : (w <=? 0) || (h <=? 0) = false).
    { apply orb_false_iff. split; apply Z.leb_gt; assumption. }
    rewrite Hb. fold (source_path path). rewrite Hstat, Hmk.
    fold (rect_entry (source_path path) w h cacheDir info).
    rewrite Hmiss, Hff, Hmg. reflexivity. }
  split; [exact Hfall|].
  intros out w' Hok. rewrite Hfall in Hok.
  destruct (Generate_Ok _ _ _ _ _ _ Hok) as (info' & Hstat' & Hout & _).
  exists info'. split; [exact Hstat'|]. split; [exact Hout|].
  apply key_inputs_differ; [|lia].
  destruct (max_cases w h) as [[-> _]|[-> _]]; lia.
Qed.

(** X5. With no executable on the search path, a call of Generate that
    finds the source, gets its cache directory and misses the cache returns
    the exhaustion error, having started no process. *)
Theorem Generate_without_tools_is_exhausted :
  ∀ (path : string) (size : Z) (cacheDir : string) (w : World) (info : FileInfo)
    (w1 : World),
    programs w = ∅ →
    os_Stat (source_path path) w = Some info →
    os_MkdirAll cacheDir w = (None, w1) →
    os_Stat (square_entry (source_path path) size cacheDir info) w1 = None →
    Generate path size cacheDir w = Done (Err ErrNoTool) w1 ∧ procs w1 = procs w.
Proof.
  intros path size cacheDir w info w1 Hnone Hstat Hmk Hmiss.
  destruct (os_MkdirAll_frame _ _ _ _ Hmk) as (_ & _ & Hprocs & Hprog & _).
  assert (Hx : ∀ name, hasExec name w1 = false).
  { intros name. unfold hasExec. rewrite Hprog, Hnone, lookup_empty. reflexivity. }
  split.
  - unfold Generate. fold (source_path path). rewrite Hstat, Hmk.
    fold (square_entry (source_path path) size cacheDir info). rewrite Hmiss.
    unfold Generate_ffmpeg. rewrite Hx, andb_false_r. cbn [andb].
    unfold Generate_vips. rewrite Hx, andb_false_r. cbn [andb].
    unfold Generate_magick. rewrite Hx. reflexivity.
  - exact Hprocs.
Qed.

Lemma append_cons x (a b : string) : String x a +:+ b = String x (a +:+ b).
Proof. reflexivity. Qed.

Lemma append_nil (b : string) : "" +:+ b = b.
Proof. reflexivity. Qed.

Lemma append_assoc_l (a b c : string) : a +:+ b +:+ c = (a +:+ b) +:+ c.
Proof.
  induction a as [|x a IH]; [reflexivity|]. rewrite !append_cons. now f_equal.
Qed.

Lemma char_free_app c a b : char_free c (a +:+ b) = char_free c a && char_free c b.
Proof.
  induction a as [|x a IH]; [reflexivity|]. rewrite append_cons. simpl.
  now rewrite IH, andb_assoc.
Qed.

(** Two strings that end in the separator [c] followed by text without
    [c]: the text is the same, and so is what precedes the separator. *)
Lemma last_separator c a : ∀ b d d',
  char_free c d = true → char_free c d' = true →
  (a +:+ String c "") +:+ d = (b +:+ String c "") +:+ d' → a = b ∧ d = d'.
Proof.
  assert (Hocc : ∀ b d', char_free c ((b +:+ String c "") +:+ d') = false).
  { intros b d'. rewrite !char_free_app. simpl. rewrite Ascii.eqb_refl. simpl.
    now rewrite andb_false_r. }
  induction a as [|x a IH]; intros [|y b] d d' Hd Hd' Heq;
    repeat rewrite ?append_cons, ?append_nil in Heq.
  - injection Heq as ->. auto.
  - injection Heq as <- ->. now rewrite Hocc in Hd.
  - injection Heq as -> <-. now rewrite Hocc in Hd'.
  - injection Heq as -> Heq. destruct (IH _ _ _ Hd Hd' Heq) as [-> ->]. auto.
Qed.

Lemma char_free_cons c x s :
  x ≠ c → char_free c s = true → char_free c (String x s) = true.
Proof.
  intros Hx Hs. cbn [char_free]. rewrite Hs, andb_true_r.
  now apply negb_true_iff, Ascii.eqb_neq.
Qed.

Lemma string_of_uint_char_free c d :
  is_digit c = false → char_free c (NilEmpty.string_of_uint d) = true.
Proof.
  intros Hc. induction d; cbn [NilEmpty.string_of_uint]; try reflexivity;
    (apply char_free_cons; [intros <-; cbv in Hc; discriminate | exact IHd]).
Qed.

Lemma Itoa_char_free c z :
  is_digit c = false → c ≠ "-"%char → char_free c (Itoa z) = true.
Proof.
  intros Hc Hminus.
  assert (Hu : ∀ d, char_free c (NilZero.string_of_uint d) = true).
  { intros d. unfold NilZero.string_of_uint.
    destruct d; try (now apply string_of_uint_char_free).
    apply char_free_cons; [intros <-; cbv in Hc; discriminate | reflexivity]. }
  unfold Itoa. destruct (Z.to_int z); cbn [NilZero.string_of_int]; [apply Hu|].
  apply char_free_cons; [congruence | apply Hu].
Qed.

Ltac peel_field H c :=
  apply (last_separator c) in H as [H ?];
  [ | try reflexivity; rewrite ?char_free_app, ?Itoa_char_free;
      solve [reflexivity | discriminate] .. ].

(** X6. What cacheKey and cacheKeyRect hash is unambiguous: the hashed
    text determines the path, the dimensions, the modification time and
    the size it was built from, and no text hashed for a square entry is
    hashed for a rectangular one.  Two cache keys of different requests
    therefore coincide only when SHA-1 collides. *)
Theorem cache_key_inputs_are_unambiguous :
  (∀ p s mt f p' s' mt' f',
      cacheKey_input p s mt f = cacheKey_input p' s' mt' f' →
      p = p' ∧ s = s' ∧ mt = mt' ∧ f = f')
  ∧ (∀ p w h mt f p' w' h' mt' f',
      cacheKeyRect_input p w h mt f = cacheKeyRect_input p' w' h' mt' f' →
      p = p' ∧ w = w' ∧ h = h' ∧ mt = mt' ∧ f = f')
  ∧ (∀ p s mt f p' w h mt' f',
      cacheKey_input p s mt f ≠ cacheKeyRect_input p' w h mt' f').
Proof.
  assert (Hrect : ∀ p w h,
            (((p +:+ "|") +:+ Itoa w) +:+ "x") +:+ Itoa h
            = (p +:+ "|") +:+ ((Itoa w +:+ "x") +:+ Itoa h)).
  { intros. now rewrite !append_assoc_l. }
  split; [|split].
  - intros p s mt f p' s' mt' f' E. unfold cacheKey_input in E.
    rewrite !append_assoc_l in E.
    peel_field E "|"%char. peel_field E "|"%char. peel_field E "|"%char.
    peel_field E "|"%char.
    repeat split; try assumption; now apply Itoa_inj.
  - intros p w h mt f p' w' h' mt' f' E. unfold cacheKeyRect_input in E.
    rewrite !append_assoc_l in E.
    peel_field E "|"%char. peel_field E "|"%char. peel_field E "|"%char.
    rewrite !Hrect in E. peel_field E "|"%char.
    match goal with H : (_ +:+ "x") +:+ _ = _ |- _ => peel_field H "x"%char end.
    repeat split; try assumption; now apply Itoa_inj.
  - intros p s mt f p' w h mt' f' E. unfold cacheKey_input, cacheKeyRect_input in E.
    rewrite !append_assoc_l in E.
    peel_field E "|"%char. peel_field E "|"%char. peel_field E "|"%char.
    rewrite Hrect in E. peel_field E "|"%char.
    match goal with H : Itoa s = _ |- _ =>
      apply (f_equal (char_free "x")) in H;
      rewrite !char_free_app, !Itoa_char_free in H by (reflexivity || discriminate);
      discriminate
    end.
Qed.

(** X7. Both entry points fail before they start any tool.  When the
    source cannot be stat'ed they return that error and change nothing.
    When the cache directory cannot be made they return the error of
    os.MkdirAll, having written no regular file and started no process;
    the directories that were there are still there, and the only change
    is the parents that os.MkdirAll made before it failed.  This holds for
    every pair of dimensions. *)
Theorem failure_before_any_tool :
  ∀ (path : string) (w h : Z) (cacheDir : string) (wd : World),
    (os_Stat (source_path path) wd = None →
     GenerateRect path w h cacheDir wd = Done (Err (ErrNotExist (source_path path))) wd
     ∧ Generate path w cacheDir wd = Done (Err (ErrNotExist (source_path path))) wd)
    ∧ (∀ info err wd1, os_Stat (source_path path) wd = Some info →
       os_MkdirAll cacheDir wd = (Some err, wd1) →
       GenerateRect path w h cacheDir wd = Done (Err err) wd1
       ∧ Generate path w cacheDir wd = Done (Err err) wd1
       ∧ files wd1 = files wd ∧ procs wd1 = procs wd ∧ dirs wd ⊆ dirs wd1).
Proof.
  intros path w h cacheDir wd. split.
  - intros Hstat.
    assert (Hg : ∀ size, Generate path size cacheDir wd
                         = Done (Err (ErrNotExist (source_path path))) wd).
    { intros size. unfold Generate. fold (source_path path). now rewrite Hstat. }
    split; [|apply Hg]. unfold GenerateRect.
    destruct ((w <=? 0) || (h <=? 0)); [apply Hg|].
    fold (source_path path). now rewrite Hstat.
  - intros info err wd1 Hstat Hmk.
    assert (Hg : ∀ size, Generate path size cacheDir wd = Done (Err err) wd1).
    { intros size. unfold Generate. fold (source_path path). now rewrite Hstat, Hmk. }
    destruct (os_MkdirAll_frame _ _ _ _ Hmk) as (Hf & _ & Hp & _ & Hd).
    split; [|split; [apply Hg|auto]]. unfold GenerateRect.
    destruct ((w <=? 0) || (h <=? 0)); [apply Hg|].
    fold (source_path path). now rewrite Hstat, Hmk.
Qed.

Lemma GenerateRect_ffmpeg_ok abs w h cacheDir out wd :
  block_ok out wd (GenerateRect_ffmpeg abs w h cacheDir out wd).
Proof.
  destruct (ffmpeg_chosen abs wd) eqn:Hg.
  - destruct (os_CreateTemp cacheDir wd) as [[tmp w1]|] eqn:Ht.
    + destruct (ffmpegGrab abs w h tmp w1) as [ok w2] eqn:Hr.
      rewrite (GenerateRect_ffmpeg_attempt _ _ _ _ _ _ _ _ _ _ Hg Ht Hr).
      eapply attempt_block_ok;
        [eapply os_CreateTemp_dirs; eassumption | eapply ffmpegGrab_dirs; eassumption].
    + unfold GenerateRect_ffmpeg. fold (ffmpeg_chosen abs wd). rewrite Hg, Ht. exact I.
  - unfold GenerateRect_ffmpeg. fold (ffmpeg_chosen abs wd). rewrite Hg. reflexivity.
Qed.

Lemma GenerateRect_magick_ok abs w h cacheDir out wd :
  block_ok out wd (GenerateRect_magick abs w h cacheDir out wd).
Proof.
  destruct (hasExec "magick" wd) eqn:Hg.
  - destruct (os_CreateTemp cacheDir wd) as [[tmp w1]|] eqn:Ht.
    + destruct (exec_Run "magick" (magick_args abs w h tmp) w1) as [[ok so] w2] eqn:Hr.
      rewrite (GenerateRect_magick_attempt _ _ _ _ _ _ _ _ _ _ _ Hg Ht Hr).
      eapply attempt_block_ok;
        [eapply os_CreateTemp_dirs; eassumption | eapply exec_Run_dirs; eassumption].
    + unfold GenerateRect_magick. rewrite Hg, Ht. exact I.
  - unfold GenerateRect_magick. rewrite Hg. reflexivity.
Qed.

(** X25. A path that GenerateRect (or Generate) returns is always a cache
    entry: a file name made of a SHA-1 hex digest and ".png", joined to
    the cache directory that was passed in.  For positive dimensions it is
    the rectangular entry of the source as the call stat-ed it, or a square
    entry of side max(w, h) from the fallback. *)
Theorem returned_path_is_a_cache_entry :
  ∀ (path : string) (w h : Z) (cacheDir : string) (wd : World) (out : string)
    (wd' : World),
    GenerateRect path w h cacheDir wd = Done (Ok out) wd' →
    (∃ text, out = filepath_Join cacheDir (sha1_hex text +:+ ".png"))
    ∧ ((∃ info, os_Stat (source_path path) wd = Some info
                ∧ out = rect_entry (source_path path) w h cacheDir info)
       ∨ (∃ info, out = square_entry (source_path path) (max w h) cacheDir info)).
Proof.
  intros path w h cacheDir wd out wd'.
  assert (Hsq : ∀ w0 w1, Generate path (max w h) cacheDir w0 = Done (Ok out) w1 →
            (∃ text, out = filepath_Join cacheDir (sha1_hex text +:+ ".png"))
            ∧ ((∃ info, os_Stat (source_path path) wd = Some info
                        ∧ out = rect_entry (source_path path) w h cacheDir info)
               ∨ (∃ info, out = square_entry (source_path path) (max w h) cacheDir info))).
  { intros w0 w1 Hg. destruct (Generate_Ok _ _ _ _ _ _ Hg) as (info & _ & -> & _).
    split; [eexists; reflexivity|]. right. eauto. }
  unfold GenerateRect. destruct ((w <=? 0) || (h <=? 0)); [apply Hsq|].
  fold (source_path path).
  destruct (os_Stat (source_path path) wd) as [info|] eqn:Hstat; [|discriminate].
  destruct (os_MkdirAll cacheDir wd) as [[e|] wa] eqn:Hmk; [discriminate|].
  fold (rect_entry (source_path path) w h cacheDir info).
  set (o := rect_entry (source_path path) w h cacheDir info).
  assert (Hrect : (∃ text, o = filepath_Join cacheDir (sha1_hex text +:+ ".png"))
                  ∧ ((∃ info0, Some info = Some info0
                               ∧ o = rect_entry (source_path path) w h cacheDir info0)
                     ∨ (∃ info0, o = square_entry (source_path path) (max w h) cacheDir
                                       info0))).
  { split; [eexists; reflexivity | left; eauto]. }
  destruct (os_Stat o wa).
  { intros H. injection H as <- <-. exact Hrect. }
  pose proof (GenerateRect_ffmpeg_ok (source_path path) w h cacheDir o wa) as H1.
  destruct (GenerateRect_ffmpeg _ _ _ _ _ wa) as [[res w'|]|wb]; simpl in H1.
  { intros H. injection H as -> ->. destruct H1 as [H1 _]. injection H1 as ->.
    exact Hrect. }
  { discriminate. }
  pose proof (GenerateRect_magick_ok (source_path path) w h cacheDir o wb) as H2.
  destruct (GenerateRect_magick _ _ _ _ _ wb) as [[res w'|]|wc]; simpl in H2.
  { intros H. injection H as -> ->. destruct H2 as [H2 _]. injection H2 as ->.
    exact Hrect. }
  { discriminate. }
  apply Hsq.
Qed.

Lemma os_CreateTemp_frame dir w tmp w' :
  os_CreateTemp dir w = Some (tmp, w') →
  env w' = env w ∧ procs w' = procs w ∧ programs w' = programs w.
Proof.
  unfold os_CreateTemp. destruct (dirs w !! dir); [|discriminate].
  case_bool_decide; [discriminate|].
  destruct (free_temp _ _ _ _); [|discriminate].
  intros Heq. now injection Heq as <- <-.
Qed.

(** X8. Setting the environment variable that belongs to the kind of the
    source (THUMBGRID_VIDEO_TOOL for a video, THUMBGRID_IMAGE_TOOL for
    anything else) to a value that lower-cases to "magick" makes Generate
    skip ffmpeg, ffprobe and vipsthumbnail: the call starts no process at
    all or the single magick command. *)
Theorem magick_override_runs_only_magick :
  ∀ (path : string) (size : Z) (cacheDir : string) (w : World) (res : result)
    (w' : World),
    strings_ToLower
      (os_Getenv (if isVideo (source_path path)
                  then "THUMBGRID_VIDEO_TOOL" else "THUMBGRID_IMAGE_TOOL") w)
    = "magick" →
    Generate path size cacheDir w = Done res w' →
    procs w' = procs w
    ∨ ∃ tmp, procs w'
             = procs w ++ ["magick" :: magick_args (source_path path) size size tmp].
Proof.
  intros path size cacheDir w res w' Henv. unfold Generate. fold (source_path path).
  destruct (os_Stat (source_path path) w) as [info|];
    [|intros Heq; injection Heq as _ <-; now left].
  destruct (os_MkdirAll cacheDir w) as [e w1] eqn:Hmk.
  destruct (os_MkdirAll_frame _ _ _ _ Hmk) as (_ & He & Hp & _ & _).
  destruct e; [intros Heq; injection Heq as _ <-; now left|].
  destruct (os_Stat _ w1); [intros Heq; injection Heq as _ <-; now left|].
  assert (Hf : Generate_ffmpeg (source_path path) size cacheDir
                 (filepath_Join cacheDir
                    (cacheKey (source_path path) size (ModTime info) (Size info) +:+ ".png"))
                 w1 = FallThrough w1).
  { unfold Generate_ffmpeg, os_Getenv in *. rewrite He.
    destruct (isVideo (source_path path)); [|reflexivity].
    rewrite Henv. simpl. now rewrite andb_false_r. }
  rewrite Hf.
  assert (Hv : Generate_vips (source_path path) size cacheDir
                 (filepath_Join cacheDir
                    (cacheKey (source_path path) size (ModTime info) (Size info) +:+ ".png"))
                 w1 = FallThrough w1).
  { unfold Generate_vips, os_Getenv in *. rewrite He.
    destruct (isVideo (source_path path)); [reflexivity|].
    rewrite Henv. simpl. now rewrite andb_false_r. }
  rewrite Hv. unfold Generate_magick.
  destruct (hasExec "magick" w1) eqn:Hx;
    [|intros Heq; injection Heq as _ <-; now left].
  destruct (os_CreateTemp cacheDir w1) as [[tmp w2]|] eqn:Htmp; [|discriminate].
  destruct (os_CreateTemp_frame _ _ _ _ Htmp) as (_ & Hp2 & Hprog).
  unfold exec_Run. unfold hasExec in Hx. rewrite Hprog.
  destruct (programs w1 !! "magick") as [prog|]; [|discriminate].
  right. exists tmp.
  destruct (exit_ok _); injection H as _ <-.
  - unfold os_Rename. simpl.
    destruct (files_after _ !! tmp); [destruct (dirs w2 !! _)|]; simpl; congruence.
  - simpl. congruence.
Qed.

(** X9. ffmpeg is never asked for a non-positive box: when a dimension
    passed to ffmpegGrab is not positive, both are replaced by the larger
    of the two, and by 256 when that is not positive either. *)
Theorem ffmpegGrab_replaces_nonpositive_dimensions :
  ∀ (abs : string) (w h : Z) (out : string) (wd : World),
    w ≤ 0 ∨ h ≤ 0 →
    ∃ m, 0 < m
         ∧ m = (if max w h <=? 0 then 256 else max w h)
         ∧ ffmpegGrab abs w h out wd = ffmpegGrab abs m m out wd.
Proof.
  intros abs w h out wd Hwh.
  exists (if max w h <=? 0 then 256 else max w h).
  assert (Hpos : 0 < (if max w h <=? 0 then 256 else max w h)).
  { destruct (max w h <=? 0) eqn:Hm; [lia|]. now apply Z.leb_gt in Hm. }
  split; [exact Hpos|]. split; [reflexivity|].
  unfold ffmpegGrab.
  assert (Hc : (w <=? 0) || (h <=? 0) = true).
  { apply orb_true_iff. destruct Hwh; [left|right]; now apply Z.leb_le. }
  rewrite Hc.
  set (m := if max w h <=? 0 then 256 else max w h) in *.
  assert (Hm : (m <=? 0) || (m <=? 0) = false).
  { apply orb_false_iff. split; apply Z.leb_gt; exact Hpos. }
  rewrite Hm. reflexivity.
Qed.

End Facts.

Lemma Generate_without_tools_is_exhausted_witness :
  result_of (Generate (lib := demoLib) "/pics/a.png" 256 "/cache" (demo_world ∅))
  = Some (Err ErrNoTool).
Proof.
  refine (f_equal result_of
            (proj1 (Generate_without_tools_is_exhausted (lib := demoLib)
                      "/pics/a.png" 256 "/cache" (demo_world ∅)
                      (mkFileInfo 1700000000 4096) _ _ _ _ _))).
  - reflexivity.
  - reflexivity.
  - vm_compute. reflexivity.
  - vm_compute. reflexivity.
Defined.

Lemma cache_key_inputs_are_unambiguous_witness :
  cacheKey_input "/pics/a.png" 160 1700000000 4096
  ≠ cacheKeyRect_input "/pics/a.png" 160 160 1700000000 4096.
Proof.
  apply (proj2 (proj2 cache_key_inputs_are_unambiguous)).
Defined.

Lemma failure_before_any_tool_witness :
  GenerateRect (lib := demoLib) "/pics/none.png" 160 60 "/cache" (demo_world ∅)
  = Done (Err (ErrNotExist "/pics/none.png")) (demo_world ∅)
  ∧ (GenerateRect (lib := demoLib) "/pics/a.png" 160 60 "/var/cache/thumbs" world_locked
     = Done (Err (ErrMkdir "/var/cache"))
         (os_MkdirAll "/var/cache/thumbs" world_locked).2
     ∧ is_Some (dirs (os_MkdirAll "/var/cache/thumbs" world_locked).2 !! "/var")).
Proof.
  split.
  - apply (proj1 (failure_before_any_tool (lib := demoLib)
                    "/pics/none.png" 160 60 "/cache" (demo_world ∅))).
    reflexivity.
  - split.
    + refine (proj1 (proj2 (failure_before_any_tool (lib := demoLib)
                       "/pics/a.png" 160 60 "/var/cache/thumbs" world_locked)
                       (mkFileInfo 1700000000 4096) (ErrMkdir "/var/cache")
                       (os_MkdirAll "/var/cache/thumbs" world_locked).2 _ _)).
      * reflexivity.
      * vm_compute. reflexivity.
    + eexists. vm_compute. reflexivity.
Defined.

Lemma returned_path_is_a_cache_entry_witness :
  (∃ text, "/cache/431655119.png"
           = filepath_Join (GoLib := demoLib) "/cache"
               (sha1_hex (GoLib := demoLib) text +:+ ".png"))
  ∧ ((∃ info, os_Stat (source_path (lib := demoLib) "/pics/a.png") world_magick_writes
                = Some info
              ∧ "/cache/431655119.png"
                = rect_entry (lib := demoLib) (source_path (lib := demoLib) "/pics/a.png")
                    256 0 "/cache" info)
     ∨ (∃ info, "/cache/431655119.png"
                = square_entry (lib := demoLib) (source_path (lib := demoLib) "/pics/a.png")
                    (max 256 0) "/cache" info)).
Proof.
  apply (returned_path_is_a_cache_entry (lib := demoLib)
           "/pics/a.png" 256 0 "/cache" world_magick_writes
           "/cache/431655119.png" world_written).
  vm_compute. reflexivity.
Defined.

Lemma magick_override_runs_only_magick_witness :
  procs (world_after override_call world_override) = procs world_override
  ∨ ∃ tmp, procs (world_after override_call world_override)
           = procs world_override
             ++ ["magick" :: magick_args (lib := demoLib) "/pics/a.png" 256 256 tmp].
Proof.
  apply (magick_override_runs_only_magick (lib := demoLib)
           "/pics/a.png" 256 "/cache" world_override
           (default (Err ErrNoTool) (result_of override_call))
           (world_after override_call world_override)).
  - reflexivity.
  - vm_compute. reflexivity.
Defined.

Lemma ffmpegGrab_replaces_nonpositive_dimensions_witness :
  ∃ m, 0 < m
       ∧ m = (if max 0 (-3) <=? 0 then 256 else max 0 (-3))
       ∧ ffmpegGrab (lib := demoLib) "/pics/clip.mp4" 0 (-3) "/cache/t.png" (world_probe "10.0")
         = ffmpegGrab (lib := demoLib) "/pics/clip.mp4" m m "/cache/t.png" (world_probe "10.0").
Proof.
  apply (ffmpegGrab_replaces_nonpositive_dimensions (lib := demoLib)
           "/pics/clip.mp4" 0 (-3) "/cache/t.png" (world_probe "10.0")).
  left. lia.
Defined.

(** C5, as stated, fails at D = 0.3: the specification's formula gives 0.5
    there, the code seeks to 0.3 − 0.1. *)
Lemma seek_for_short_clip_is_not_half_a_second :
  (spec_seek 0.3 =? 0.5)%float = true
  ∧ seek_of_duration 0.3 = (0.3 - 0.1)%float
  ∧ (seek_of_duration 0.3 =? 0.5)%float = false
  ∧ (ffmpegGrab_seek (lib := demoLib) "/pics/clip.mp4" (world_probe "0.3")).1
    = (0.3 - 0.1)%float.
Proof. vm_compute. repeat split. Qed.

Lemma seek_offset_lower_bound_first_witness :
  ffmpegGrab_seek (lib := demoLib) "/pics/clip.mp4" (world_probe "10.0")
  = (amended_seek 10, (probeDuration (lib := demoLib) "/pics/clip.mp4" (world_probe "10.0")).2).
Proof.
  refine (proj2 (proj1 (seek_offset_lower_bound_first (lib := demoLib))
            "/pics/clip.mp4" (world_probe "10.0") 10%float _ _)).
  vm_compute. reflexivity.
Defined.

Lemma GenerateRect_falls_back_to_Generate_witness :
  GenerateRect (lib := demoLib) "/pics/a.png" 180 60 "/cache" world_square_only
  = Generate (lib := demoLib) "/pics/a.png" (max 180 60) "/cache" world_square_only_2.
Proof.
  refine (proj1 (GenerateRect_falls_back_to_Generate (lib := demoLib)
            "/pics/a.png" 180 60 "/cache" world_square_only (mkFileInfo 1700000000 4096)
            world_square_only_1 world_square_only_1 world_square_only_2 _ _ _ _ _ _ _)).
  - lia.
  - lia.
  - reflexivity.
  - vm_compute. reflexivity.
  - vm_compute. reflexivity.
  - vm_compute. reflexivity.
  - vm_compute. reflexivity.
Defined.

Lemma second_Generate_hits_cache_witness :
  Generate (lib := demoLib) "/pics/a.png" 256 "/cache" world_written
  = Done (Ok "/cache/431655119.png") world_written.
Proof.
  refine (proj1 (second_Generate_hits_cache (lib := demoLib)
            "/pics/a.png" 256 "/cache" world_magick_writes
            "/cache/431655119.png" world_written _ _ _)).
  - vm_compute. reflexivity.
  - vm_compute. reflexivity.
  - eexists. vm_compute. reflexivity.
Defined.

(** C4, as stated, fails.  With a [magick] that exits with an error, and
    with one that exits with 0 without leaving its output file, the source
    file is the same before both calls, yet the second call starts a
    process again. *)
Lemma second_Generate_runs_tool_again :
  (result_of fails_first = Some (Err ErrNoTool)
   ∧ result_of fails_second = Some (Err ErrNoTool)
   ∧ exists_after "/pics/a.png" fails_first = true
   ∧ length (procs_after fails_first) = 1%nat
   ∧ length (procs_after fails_second) = 2%nat)
  ∧ (result_of unlinks_first = Some (Ok "/cache/431655119.png")
     ∧ result_of unlinks_second = Some (Ok "/cache/431655119.png")
     ∧ exists_after "/pics/a.png" unlinks_first = true
     ∧ length (procs_after unlinks_first) = 1%nat
     ∧ length (procs_after unlinks_second) = 2%nat).
Proof. vm_compute. repeat split. Qed.

Lemma GenerateRect_nonpositive_is_Generate_witness :
  GenerateRect (lib := demoLib) "/pics/a.png" 0 0 "/cache" world_magick_writes
  = Generate (lib := demoLib) "/pics/a.png" (max 0 0) "/cache" world_magick_writes.
Proof.
  apply (GenerateRect_nonpositive_is_Generate (lib := demoLib)). left. lia.
Defined.



End thumb_props.

(* ===================================================================== *)
(** * Properties of the thumbnail worker pool *)
(* ===================================================================== *)

Module grid_props.
Import grid.

Lemma elem_of_insert_inv {A} (l : list A) (i : nat) (x y : A) :
  y ∈ <[i := x]> l → y = x ∨ y ∈ l.
Proof.
  intros H. apply list_elem_of_lookup in H as [j Hj].
  apply list_lookup_insert_Some in Hj as [(_ & -> & _)|[_ Hj]]; [now left|].
  right. eapply list_elem_of_lookup_2. exact Hj.
Qed.

Ltac split_inv := split; [|split; [|split; [|split]]].

Lemma newPool_inv : pool_inv newPool.
Proof.
  split_inv; simpl.
  - intros k Hk. inversion Hk.
  - intros k Hk.
    repeat (apply elem_of_cons in Hk as [Hk|Hk]; [discriminate|]). inversion Hk.
  - constructor.
  - intros k Hk. inversion Hk.
  - intros [|[|[|[|i]]]] j k Hi; simpl in Hi; discriminate.
Qed.

Lemma ensureThumb_inv path wpx hpx p :
  pool_inv p → pool_inv (ensureThumb path wpx hpx p).2.
Proof.
  intros Hinv. unfold ensureThumb.
  destruct (thumbReady p !! _); [exact Hinv|].
  case_bool_decide as Hnew; [exact Hinv|].
  destruct Hinv as (Hq & Hw & Hnd & Hqw & Huniq).
  destruct (length (thumbQ p) <? thumbQ_cap)%nat; split_inv; simpl.
  - intros k Hk. apply elem_of_app in Hk as [Hk|Hk].
    + apply elem_of_union. right. now apply Hq.
    + apply list_elem_of_singleton in Hk. subst k.
      apply elem_of_union. left. now apply elem_of_singleton.
  - intros k Hk. apply elem_of_union. right. now apply Hw.
  - apply NoDup_app. split; [exact Hnd|]. split; [|apply NoDup_singleton].
    intros k Hk Hk'. apply list_elem_of_singleton in Hk'. subst k. auto.
  - intros k Hk. apply elem_of_app in Hk as [Hk|Hk]; [now apply Hqw|].
    apply list_elem_of_singleton in Hk. subst k. intros Hb. auto.
  - exact Huniq.
  - intros k Hk. apply elem_of_union. right. now apply Hq.
  - intros k Hk. apply elem_of_union. right. now apply Hw.
  - exact Hnd.
  - exact Hqw.
  - exact Huniq.
Qed.

Lemma worker_take_inv i p p' : pool_inv p → worker_take i p = Some p' → pool_inv p'.
Proof.
  intros (Hq & Hw & Hnd & Hqw & Huniq) H. unfold worker_take in H.
  destruct (workers p !! i) as [[| |]|] eqn:Hi; try discriminate.
  destruct (thumbQ p) as [|k rest] eqn:HQ; [discriminate|].
  injection H as <-. apply NoDup_cons in Hnd as [Hk Hnd].
  split_inv; simpl.
  - intros k' Hk'. apply Hq. now right.
  - intros k' Hk'. apply elem_of_insert_inv in Hk' as [Hk'|Hk'].
    + injection Hk' as ->. apply Hq. now left.
    + now apply Hw.
  - exact Hnd.
  - intros k' Hk' Hb. apply elem_of_insert_inv in Hb as [Hb|Hb].
    + injection Hb as ->. contradiction.
    + revert Hb. apply Hqw. now right.
  - intros a b k' Ha Hb.
    assert (Hfresh : Busy k ∉ workers p) by (apply Hqw; now left).
    apply list_lookup_insert_Some in Ha as [(<- & Ha & _)|[Hne Ha]];
      apply list_lookup_insert_Some in Hb as [(<- & Hb & _)|[Hne' Hb]].
    + reflexivity.
    + injection Ha as <-. apply list_elem_of_lookup_2 in Hb. contradiction.
    + injection Hb as <-. apply list_elem_of_lookup_2 in Ha. contradiction.
    + eapply Huniq; eassumption.
Qed.

Lemma worker_finish_inv i res p p' :
  pool_inv p → worker_finish i res p = Some p' → pool_inv p'.
Proof.
  intros (Hq & Hw & Hnd & Hqw & Huniq) H. unfold worker_finish in H.
  destruct (workers p !! i) as [[|k|]|] eqn:Hi; try discriminate.
  injection H as <-.
  assert (Hbusy : Busy k ∈ workers p) by (eapply list_elem_of_lookup_2; exact Hi).
  split_inv; simpl.
  - intros k' Hk'. apply elem_of_difference. split; [now apply Hq|].
    intros Heq. apply elem_of_singleton in Heq. subst k'. now apply (Hqw k).
  - intros k' Hk'. apply list_elem_of_lookup in Hk' as [j Hj].
    apply list_lookup_insert_Some in Hj as [(_ & Hj & _)|[Hne Hj]]; [discriminate|].
    apply elem_of_difference. split.
    + apply Hw. eapply list_elem_of_lookup_2. exact Hj.
    + intros Heq. apply elem_of_singleton in Heq. subst k'.
      apply Hne. eapply Huniq; eassumption.
  - exact Hnd.
  - intros k' Hk' Hb. apply elem_of_insert_inv in Hb as [Hb|Hb]; [discriminate|].
    revert Hb. now apply Hqw.
  - intros a b k' Ha Hb.
    apply list_lookup_insert_Some in Ha as [(_ & Ha & _)|[_ Ha]]; [discriminate|].
    apply list_lookup_insert_Some in Hb as [(_ & Hb & _)|[_ Hb]]; [discriminate|].
    eapply Huniq; eassumption.
Qed.

Lemma worker_quit_inv i p p' : pool_inv p → worker_quit i p = Some p' → pool_inv p'.
Proof.
  intros (Hq & Hw & Hnd & Hqw & Huniq) H. unfold worker_quit in H.
  destruct (workers p !! i) as [[| |]|] eqn:Hi; try discriminate.
  destruct (quitThumb p); [|discriminate]. injection H as <-.
  split_inv; simpl; try assumption.
  - intros k' Hk'. apply elem_of_insert_inv in Hk' as [Hk'|Hk']; [discriminate|].
    now apply Hw.
  - intros k' Hk' Hb. apply elem_of_insert_inv in Hb as [Hb|Hb]; [discriminate|].
    revert Hb. now apply Hqw.
  - intros a b k' Ha Hb.
    apply list_lookup_insert_Some in Ha as [(_ & Ha & _)|[_ Ha]]; [discriminate|].
    apply list_lookup_insert_Some in Hb as [(_ & Hb & _)|[_ Hb]]; [discriminate|].
    eapply Huniq; eassumption.
Qed.

Lemma step_inv e p p' : pool_inv p → step e p = Some p' → pool_inv p'.
Proof.
  intros Hinv H. destruct e; simpl in H.
  - injection H as <-. now apply ensureThumb_inv.
  - eapply worker_take_inv; eassumption.
  - eapply worker_finish_inv; eassumption.
  - eapply worker_quit_inv; eassumption.
  - unfold stop in H. destruct (quitThumb p); [discriminate|]. now injection H as <-.
  - unfold repaint_recv in H. destruct (repaintCh p); [|discriminate]. now injection H as <-.
Qed.

Lemma run_inv evs : ∀ p p', pool_inv p → run evs p = Some p' → pool_inv p'.
Proof.
  induction evs as [|e evs IH]; intros p p' Hinv H; simpl in H.
  - now injection H as <-.
  - destruct (step e p) as [p1|] eqn:Hs; [|discriminate].
    eapply IH; [|exact H]. eapply step_inv; eassumption.
Qed.

Lemma no_deletion_refl (k : thumbKey) (l : list (nat * thumbKey)) :
  ∃ more, l = l ++ more ∧ ∀ i, (i, k) ∉ more.
Proof. exists []. split; [now rewrite app_nil_r|]. intros i Hi. inversion Hi. Qed.

(** Once a key is in flight with nothing to generate it, no action of any
    goroutine brings it back: it stays in flight, it never becomes ready,
    and no worker deletes it. *)
Lemma ensureThumb_deleted path wpx hpx p :
  deleted (ensureThumb path wpx hpx p).2 = deleted p.
Proof.
  unfold ensureThumb. destruct (thumbReady p !! mkKey path wpx hpx); [reflexivity|].
  case_bool_decide; [reflexivity|].
  destruct (length (thumbQ p) <? thumbQ_cap)%nat; reflexivity.
Qed.

Lemma ensureThumb_leaked k path wpx hpx p :
  leaked k p → leaked k (ensureThumb path wpx hpx p).2.
Proof.
  intros Hl. unfold ensureThumb.
  destruct (thumbReady p !! mkKey path wpx hpx) eqn:Hr; [exact Hl|].
  case_bool_decide as Hnew; [exact Hl|].
  destruct Hl as (Hin & Hready & Hq & Hw).
  assert (Hne : mkKey path wpx hpx ≠ k) by (intros Heq; subst k; contradiction).
  destruct (length (thumbQ p) <? thumbQ_cap)%nat; simpl.
  - split; simpl; [apply elem_of_union; now right|].
    split; [exact Hready|]. split; simpl; [|exact Hw].
    intros Hk. apply elem_of_app in Hk as [Hk|Hk]; [contradiction|].
    apply list_elem_of_singleton in Hk. congruence.
  - split; simpl; [apply elem_of_union; now right|].
    split; [exact Hready|]. split; assumption.
Qed.

Lemma step_leaked k e p p' :
  leaked k p → step e p = Some p' →
  leaked k p' ∧ ∃ more, deleted p' = deleted p ++ more ∧ ∀ i, (i, k) ∉ more.
Proof.
  intros Hl H. destruct e; simpl in H.
  - injection H as <-. split; [now apply ensureThumb_leaked|].
    rewrite ensureThumb_deleted. apply no_deletion_refl.
  - destruct Hl as (Hin & Hready & Hq & Hw). unfold worker_take in H.
    destruct (workers p !! i) as [[| |]|] eqn:Hi; try discriminate.
    destruct (thumbQ p) as [|k' rest] eqn:HQ; [discriminate|]. injection H as <-.
    split; [|apply no_deletion_refl]. split; [exact Hin|]. split; [exact Hready|].
    split; simpl.
    + intros Hk. apply Hq. now right.
    + intros Hb. apply elem_of_insert_inv in Hb as [Hb|Hb]; [|contradiction].
      injection Hb as ->. apply Hq. now left.
  - destruct Hl as (Hin & Hready & Hq & Hw). unfold worker_finish in H.
    destruct (workers p !! i) as [[|k'|]|] eqn:Hi; try discriminate.
    injection H as <-.
    assert (Hne : k' ≠ k).
    { intros ->. apply Hw. eapply list_elem_of_lookup_2. exact Hi. }
    split.
    + split; simpl.
      { apply elem_of_difference. split; [exact Hin|].
        intros Heq. apply elem_of_singleton in Heq. congruence. }
      split; simpl.
      { destruct res; [rewrite lookup_insert_ne by exact Hne|]; exact Hready. }
      split; simpl; [exact Hq|].
      intros Hb. apply elem_of_insert_inv in Hb as [Hb|Hb]; [discriminate|contradiction].
    + simpl. exists [(i, k')]. split; [reflexivity|].
      intros j Hj. apply list_elem_of_singleton in Hj. congruence.
  - destruct Hl as (Hin & Hready & Hq & Hw). unfold worker_quit in H.
    destruct (workers p !! i) as [[| |]|] eqn:Hi; try discriminate.
    destruct (quitThumb p); [|discriminate]. injection H as <-.
    split; [|apply no_deletion_refl]. split; [exact Hin|]. split; [exact Hready|].
    split; simpl; [exact Hq|].
    intros Hb. apply elem_of_insert_inv in Hb as [Hb|Hb]; [discriminate|contradiction].
  - unfold stop in H. destruct (quitThumb p); [discriminate|]. injection H as <-.
    split; [exact Hl | apply no_deletion_refl].
  - unfold repaint_recv in H. destruct (repaintCh p); [|discriminate]. injection H as <-.
    split; [exact Hl | apply no_deletion_refl].
Qed.

Lemma run_leaked k evs : ∀ p p',
  leaked k p → run evs p = Some p' →
  leaked k p' ∧ ∃ more, deleted p' = deleted p ++ more ∧ ∀ i, (i, k) ∉ more.
Proof.
  induction evs as [|e evs IH]; intros p p' Hl H; simpl in H.
  - injection H as <-. split; [exact Hl | apply no_deletion_refl].
  - destruct (step e p) as [p1|] eqn:Hs; [|discriminate].
    destruct (step_leaked _ _ _ _ Hl Hs) as [Hl1 (m1 & Hd1 & Hm1)].
    destruct (IH _ _ Hl1 H) as [Hl' (m2 & Hd2 & Hm2)].
    split; [exact Hl'|]. exists (m1 ++ m2). split.
    + rewrite Hd2, Hd1. now rewrite app_assoc.
    + intros i Hi. apply elem_of_app in Hi as [Hi|Hi]; [now apply (Hm1 i) | now apply (Hm2 i)].
Qed.

(** C2 fails on the code.  When ensureThumb adds a key to the In-Flight Set
    while [thumbQ] is full, the key is not queued; whatever the goroutines
    do afterwards, the entry is never removed from the set by any worker,
    the key never becomes ready, and every later ensureThumb for it
    answers "not yet available" without queueing it. *)
Theorem inflight_entry_leaks_when_queue_full :
  ∀ (pre : list event) (p : Pool) (k : thumbKey) (post : list event) (p' : Pool),
    run pre newPool = Some p →
    thumbReady p !! k = None →
    k ∉ thumbInflight p →
    length (thumbQ p) = thumbQ_cap →
    run post (ensureThumb (path k) (wpx k) (hpx k) p).2 = Some p' →
    k ∈ thumbInflight (ensureThumb (path k) (wpx k) (hpx k) p).2
    ∧ k ∈ thumbInflight p'
    ∧ thumbReady p' !! k = None
    ∧ (∃ more, deleted p' = deleted p ++ more ∧ ∀ i, (i, k) ∉ more)
    ∧ ensureThumb (path k) (wpx k) (hpx k) p' = (("", false), p').
Proof.
  intros pre p k post p' Hpre Hready Hnew Hfull Hpost.
  assert (Hinv : pool_inv p) by (eapply run_inv; [apply newPool_inv | exact Hpre]).
  destruct Hinv as (Hq & Hw & _).
  assert (Hk : mkKey (path k) (wpx k) (hpx k) = k) by (now destruct k).
  assert (Hens : ensureThumb (path k) (wpx k) (hpx k) p
                 = (("", false),
                    mkPool (thumbReady p) ({[k]} ∪ thumbInflight p) (thumbQ p)
                      (quitThumb p) (repaintCh p) (workers p) (deleted p))).
  { unfold ensureThumb. rewrite Hk, Hready.
    case_bool_decide; [contradiction|]. now rewrite Hfull, Nat.ltb_irrefl. }
  rewrite Hens in Hpost |- *. simpl in Hpost |- *.
  assert (Hleak : leaked k (mkPool (thumbReady p) ({[k]} ∪ thumbInflight p) (thumbQ p)
                              (quitThumb p) (repaintCh p) (workers p) (deleted p))).
  { split; simpl; [apply elem_of_union; left; now apply elem_of_singleton|].
    split; [exact Hready|]. split; simpl; intros Hin; apply Hnew; auto. }
  destruct (run_leaked _ _ _ _ Hleak Hpost) as [(Hin & Hr & _) Hdel].
  split; [apply elem_of_union; left; now apply elem_of_singleton|].
  split; [exact Hin|]. split; [exact Hr|]. split; [exact Hdel|].
  unfold ensureThumb. rewrite Hk, Hr. case_bool_decide; [reflexivity|contradiction].
Qed.

Lemma step_ready_fresh e p p' :
  (∀ k, is_Some (thumbReady p !! k) → k ∉ thumbInflight p) →
  step e p = Some p' →
  ∀ k, is_Some (thumbReady p' !! k) → k ∉ thumbInflight p'.
Proof.
  intros Hinv H. destruct e; simpl in H.
  - injection H as <-. unfold ensureThumb.
    destruct (thumbReady p !! mkKey path0 wpx0 hpx0) eqn:Hr; [exact Hinv|].
    case_bool_decide; [exact Hinv|].
    assert (Hnew : ∀ k, is_Some (thumbReady p !! k) →
                        k ∉ {[mkKey path0 wpx0 hpx0]} ∪ thumbInflight p).
    { intros k Hk Hin. apply elem_of_union in Hin as [Hin|Hin].
      - apply elem_of_singleton in Hin. subst k. rewrite Hr in Hk. now destruct Hk.
      - revert Hin. now apply Hinv. }
    destruct (length (thumbQ p) <? thumbQ_cap)%nat; exact Hnew.
  - unfold worker_take in H. destruct (workers p !! i) as [[|k|]|]; try discriminate.
    destruct (thumbQ p); [discriminate|]. injection H as <-. exact Hinv.
  - unfold worker_finish in H. destruct (workers p !! i) as [[|k|]|]; try discriminate.
    injection H as <-. simpl. intros k' Hk' Hin.
    apply elem_of_difference in Hin as [Hin Hne].
    destruct res as [tp|err].
    + apply lookup_insert_is_Some in Hk' as [->|[_ Hk']].
      * apply Hne. now apply elem_of_singleton.
      * revert Hin. now apply Hinv.
    + revert Hin. now apply Hinv.
  - unfold worker_quit in H. destruct (workers p !! i) as [[|k|]|]; try discriminate.
    destruct (quitThumb p); [|discriminate]. injection H as <-. exact Hinv.
  - unfold stop in H. destruct (quitThumb p); [discriminate|]. injection H as <-.
    exact Hinv.
  - unfold repaint_recv in H. destruct (repaintCh p); [|discriminate].
    injection H as <-. exact Hinv.
Qed.

Lemma run_ready_fresh evs : ∀ p p',
  (∀ k, is_Some (thumbReady p !! k) → k ∉ thumbInflight p) →
  run evs p = Some p' →
  ∀ k, is_Some (thumbReady p' !! k) → k ∉ thumbInflight p'.
Proof.
  induction evs as [|e evs IH]; intros p p' Hinv H; simpl in H.
  - now injection H as <-.
  - destruct (step e p) as [p1|] eqn:Hs; [|discriminate].
    eapply IH; [|exact H]. eapply step_ready_fresh; eassumption.
Qed.

Lemma step_bounds e p p' :
  step e p = Some p' →
  (length (thumbQ p) ≤ thumbQ_cap)%nat →
  (length (thumbQ p') ≤ thumbQ_cap)%nat ∧ length (workers p') = length (workers p).
Proof.
  intros H Hq. destruct e; simpl in H.
  - injection H as <-. unfold ensureThumb.
    destruct (thumbReady p !! _); [auto|]. case_bool_decide; [auto|].
    destruct (length (thumbQ p) <? thumbQ_cap)%nat eqn:Hlt; simpl; [|auto].
    apply Nat.ltb_lt in Hlt. rewrite length_app. simpl. split; [lia|reflexivity].
  - unfold worker_take in H. destruct (workers p !! i) as [[|k|]|]; try discriminate.
    destruct (thumbQ p) eqn:Hl; [discriminate|]. injection H as <-. simpl in *.
    rewrite length_insert. split; [lia|reflexivity].
  - unfold worker_finish in H. destruct (workers p !! i) as [[|k|]|]; try discriminate.
    injection H as <-. simpl. rewrite length_insert. auto.
  - unfold worker_quit in H. destruct (workers p !! i) as [[|k|]|]; try discriminate.
    destruct (quitThumb p); [|discriminate]. injection H as <-. simpl.
    rewrite length_insert. auto.
  - unfold stop in H. destruct (quitThumb p); [discriminate|]. injection H as <-. auto.
  - unfold repaint_recv in H. destruct (repaintCh p); [|discriminate].
    injection H as <-. auto.
Qed.

Lemma run_bounds evs : ∀ p0 p1,
  run evs p0 = Some p1 →
  (length (thumbQ p0) ≤ thumbQ_cap)%nat →
  (length (thumbQ p1) ≤ thumbQ_cap)%nat ∧ length (workers p1) = length (workers p0).
Proof.
  induction evs as [|e evs IH]; intros p0 p1 H Hle; simpl in H.
  - injection H as <-. auto.
  - destruct (step e p0) as [p'|] eqn:Hs; [|discriminate].
    destruct (step_bounds _ _ _ Hs Hle) as [Hle' Hlen].
    destruct (IH _ _ H Hle') as [H1 H2]. split; [exact H1|congruence].
Qed.

(** X28. The pool stays bounded: in every state reached from the start the
    queue [thumbQ] holds at most 256 keys without repetition, there are
    exactly four worker goroutines, and so at most 260 keys are queued or
    being generated at any time, each of them marked in flight. *)
Theorem pool_stays_bounded :
  ∀ (evs : list event) (p : Pool),
    run evs newPool = Some p →
    (length (thumbQ p) ≤ thumbQ_cap)%nat
    ∧ NoDup (thumbQ p)
    ∧ length (workers p) = 4%nat
    ∧ (∀ k, k ∈ thumbQ p ∨ Busy k ∈ workers p → k ∈ thumbInflight p).
Proof.
  intros evs p Hrun.
  assert (Hinv : pool_inv p) by (eapply run_inv; [apply newPool_inv | exact Hrun]).
  destruct Hinv as (Hq & Hw & Hnd & _).
  destruct (run_bounds evs newPool p Hrun) as [Hlen Hwk].
  { unfold thumbQ_cap. simpl. lia. }
  split; [exact Hlen|]. split; [exact Hnd|]. split; [exact Hwk|].
  intros k [Hk|Hk]; [now apply Hq | now apply Hw].
Qed.

Lemma pool_stays_bounded_witness :
  length (workers (mkPool ∅ {[demo_key 0]} [] false false [Busy (demo_key 0); Idle; Idle; Idle]
                     [])) = 4%nat.
Proof.
  refine (proj1 (proj2 (proj2 (pool_stays_bounded
                                 [ensure_key (demo_key 0); EvTake 0] _ _)))).
  vm_compute. reflexivity.
Defined.

Lemma ready_key_unattended evs p k :
  run evs newPool = Some p →
  is_Some (thumbReady p !! k) →
  (k ∉ thumbInflight p) ∧ (k ∉ thumbQ p) ∧ (Busy k ∉ workers p).
Proof.
  intros Hrun Hk.
  assert (Hinv : pool_inv p) by (eapply run_inv; [apply newPool_inv | exact Hrun]).
  destruct Hinv as (Hq & Hw & _).
  assert (Hfresh : k ∉ thumbInflight p).
  { eapply run_ready_fresh; [|exact Hrun|exact Hk].
    intros k' Hk'. simpl in Hk'. rewrite lookup_empty in Hk'. now destruct Hk'. }
  split; [exact Hfresh|]. split.
  - intros Hin. apply Hfresh. now apply Hq.
  - intros Hin. apply Hfresh. now apply Hw.
Qed.

(** X10. A thumbnail that is ready is never generated again: in every state
    of the pool reached from the start, a key of the Ready Map is not in
    the In-Flight Set, does not wait in the queue and is not being
    generated by any worker. *)
Theorem ready_key_is_never_regenerated :
  ∀ (evs : list event) (p : Pool) (k : thumbKey),
    run evs newPool = Some p →
    is_Some (thumbReady p !! k) →
    (k ∉ thumbInflight p) ∧ (k ∉ thumbQ p) ∧ (Busy k ∉ workers p).
Proof.
  intros evs p k Hrun Hk. exact (ready_key_unattended evs p k Hrun Hk).
Qed.

Lemma ready_key_is_never_regenerated_witness :
  demo_key 0 ∉ thumbInflight
                 (mkPool (<[demo_key 0 := "/cache/t.png"]> ∅) ∅ [] false true
                    [Idle; Idle; Idle; Idle] [(0%nat, demo_key 0)]).
Proof.
  refine (proj1 (ready_key_is_never_regenerated
                   [ensure_key (demo_key 0); EvTake 0; EvFinish 0 (thumb.Ok "/cache/t.png")]
                   _ (demo_key 0) _ _)).
  - vm_compute. reflexivity.
  - exists "/cache/t.png". vm_compute. reflexivity.
Defined.

(** X11. What a worker's completion means for the next repaint.  A worker
    that comes back from GenerateRect removes its key from the In-Flight
    Set whether generation succeeded or failed and leaves a repaint signal
    pending.  After a success ensureThumb returns the generated path and
    changes nothing; after a failure the key is not ready, so the next
    ensureThumb marks it in flight again and, when the queue has room,
    queues it last. *)
Theorem finished_key_is_served_or_retried :
  ∀ (pre : list event) (p : Pool) (i : nat) (k : thumbKey) (res : thumb.result),
    run pre newPool = Some p →
    workers p !! i = Some (Busy k) →
    ∃ p1, worker_finish i res p = Some p1
          ∧ (k ∉ thumbInflight p1)
          ∧ deleted p1 = deleted p ++ [(i, k)]
          ∧ repaintCh p1 = true
          ∧ match res with
            | thumb.Ok tp => ensureThumb (path k) (wpx k) (hpx k) p1 = ((tp, true), p1)
            | thumb.Err _ =>
                ∃ p2, ensureThumb (path k) (wpx k) (hpx k) p1 = (("", false), p2)
                      ∧ k ∈ thumbInflight p2
                      ∧ ((length (thumbQ p1) < thumbQ_cap)%nat →
                         thumbQ p2 = thumbQ p1 ++ [k])
            end.
Proof.
  intros pre p i k res Hpre Hi.
  assert (Hinv : pool_inv p) by (eapply run_inv; [apply newPool_inv | exact Hpre]).
  assert (Hnot : thumbReady p !! k = None).
  { destruct (thumbReady p !! k) eqn:Hr; [|reflexivity]. exfalso.
    destruct (ready_key_unattended pre p k Hpre) as (_ & _ & Hb);
      [rewrite Hr; eauto|].
    apply Hb. eapply list_elem_of_lookup_2. exact Hi. }
  assert (Hk : mkKey (path k) (wpx k) (hpx k) = k) by now destruct k.
  assert (Hout : k ∉ thumbInflight p ∖ {[k]}).
  { intros Hin. apply elem_of_difference in Hin as [_ Hin]. apply Hin.
    now apply elem_of_singleton. }
  unfold worker_finish. rewrite Hi. eexists. split; [reflexivity|]. simpl.
  split; [exact Hout|]. split; [reflexivity|]. split; [reflexivity|].
  destruct res as [tp|err].
  - unfold ensureThumb. simpl. now rewrite Hk, lookup_insert_eq.
  - unfold ensureThumb. simpl. rewrite Hk, Hnot.
    case_bool_decide; [contradiction|].
    destruct (length (thumbQ p) <? thumbQ_cap)%nat eqn:Hlen; eexists;
      (split; [reflexivity|]); simpl; (split; [set_solver|]).
    + reflexivity.
    + apply Nat.ltb_ge in Hlen. lia.
Qed.

Lemma finished_key_is_served_or_retried_witness :
  ∃ p1, worker_finish 0 (thumb.Err thumb.ErrNoTool)
          (mkPool ∅ {[demo_key 0]} [] false false [Busy (demo_key 0); Idle; Idle; Idle] [])
        = Some p1
        ∧ demo_key 0 ∉ thumbInflight p1.
Proof.
  destruct (finished_key_is_served_or_retried
              [ensure_key (demo_key 0); EvTake 0]
              (mkPool ∅ {[demo_key 0]} [] false false [Busy (demo_key 0); Idle; Idle; Idle] [])
              0%nat (demo_key 0) (thumb.Err thumb.ErrNoTool))
    as (p1 & H1 & H2 & _).
  - vm_compute. reflexivity.
  - reflexivity.
  - exists p1. split; assumption.
Defined.

(** X12. A key that is already in flight is not queued again: ensureThumb
    answers "not yet available" and changes nothing.  In every state
    reached from the start a key waits in [thumbQ] at most once and is
    not at the same time being generated. *)
Theorem in_flight_key_is_not_requeued :
  ∀ (pre : list event) (p : Pool) (k : thumbKey),
    run pre newPool = Some p →
    thumbReady p !! k = None →
    k ∈ thumbInflight p →
    ensureThumb (path k) (wpx k) (hpx k) p = (("", false), p)
    ∧ NoDup (thumbQ p)
    ∧ (k ∈ thumbQ p → Busy k ∉ workers p).
Proof.
  intros pre p k Hpre Hready Hin.
  assert (Hinv : pool_inv p) by (eapply run_inv; [apply newPool_inv | exact Hpre]).
  destruct Hinv as (_ & _ & Hnd & Hqw & _).
  split; [|split; [exact Hnd | apply Hqw]].
  unfold ensureThumb. assert (Hk : mkKey (path k) (wpx k) (hpx k) = k) by now destruct k.
  rewrite Hk, Hready. case_bool_decide; [reflexivity | contradiction].
Qed.

Lemma in_flight_key_is_not_requeued_witness :
  ensureThumb (path (demo_key 0)) (wpx (demo_key 0)) (hpx (demo_key 0))
    (ensureThumb (path (demo_key 0)) (wpx (demo_key 0)) (hpx (demo_key 0)) newPool).2
  = (("", false),
     (ensureThumb (path (demo_key 0)) (wpx (demo_key 0)) (hpx (demo_key 0)) newPool).2).
Proof.
  refine (proj1 (in_flight_key_is_not_requeued [ensure_key (demo_key 0)] _ (demo_key 0) _ _ _)).
  - reflexivity.
  - vm_compute. reflexivity.
  - apply (bool_decide_unpack _). vm_compute. exact I.
Defined.

Lemma run_defined evs p dflt :
  ran (run evs p) = true → run evs p = Some (default dflt (run evs p)).
Proof. destruct (run evs p); [reflexivity | discriminate]. Qed.

Lemma run_after evs1 evs2 p p1 :
  run evs1 p = Some p1 → run (evs1 ++ evs2) p = run evs2 p1.
Proof.
  revert p. induction evs1 as [|e evs1 IH]; intros p H; simpl in *.
  - now injection H as <-.
  - destruct (step e p); [auto | discriminate].
Qed.

Lemma key_eta k : mkKey (path k) (wpx k) (hpx k) = k.
Proof. now destruct k. Qed.

(** Asking for keys that are new, while the queue has room for them,
    queues them in order and marks them in flight. *)
Lemma run_ensure_new ks : ∀ p,
  NoDup ks →
  (∀ k, k ∈ ks → k ∉ thumbInflight p) →
  thumbReady p = ∅ →
  (length (thumbQ p) + length ks ≤ thumbQ_cap)%nat →
  ∃ p', run (ensure_key <$> ks) p = Some p'
        ∧ thumbQ p' = thumbQ p ++ ks
        ∧ thumbReady p' = ∅
        ∧ workers p' = workers p
        ∧ (∀ k, k ∈ thumbInflight p' ↔ k ∈ ks ∨ k ∈ thumbInflight p).
Proof.
  induction ks as [|k ks IH]; intros p Hnd Hnew Hready Hlen; simpl.
  - exists p. rewrite app_nil_r. repeat split; auto.
    + intros [H|H]; [inversion H | exact H].
  - apply NoDup_cons in Hnd as [Hk Hnd]. simpl in Hlen.
    assert (Hlook : thumbReady p !! k = None) by (rewrite Hready; apply lookup_empty).
    unfold ensureThumb. rewrite key_eta, Hlook.
    case_bool_decide as Hin; [exfalso; apply (Hnew k); [now left | exact Hin]|].
    assert (Hlt : (length (thumbQ p) <? thumbQ_cap)%nat = true)
      by (apply Nat.ltb_lt; lia).
    rewrite Hlt. simpl.
    destruct (IH (mkPool (thumbReady p) ({[k]} ∪ thumbInflight p) (thumbQ p ++ [k])
                    (quitThumb p) (repaintCh p) (workers p) (deleted p)))
      as (p' & Hrun & HQ & Hr & Hw & Hfl); simpl.
    + exact Hnd.
    + intros k' Hk' Hin'. apply elem_of_union in Hin' as [Hin'|Hin'].
      * apply elem_of_singleton in Hin'. subst k'. contradiction.
      * apply (Hnew k'); [now right | exact Hin'].
    + exact Hready.
    + rewrite length_app. simpl. lia.
    + exists p'. split; [exact Hrun|]. split; [rewrite HQ; simpl; now rewrite <- app_assoc|].
      split; [exact Hr|]. split; [exact Hw|].
      intros k'. rewrite Hfl. simpl. rewrite elem_of_union, elem_of_singleton, elem_of_cons.
      tauto.
Qed.

#[local] Instance demo_key_inj : Inj (=) (=) demo_key.
Proof.
  intros a b H. unfold demo_key in H. injection H as H.
  apply thumb_props.append_cancel_l in H.
  apply thumb_props.digits_then_separator in H as [H _];
    try (apply thumb_props.Itoa_digits; lia); try reflexivity.
  apply thumb_props.Itoa_inj in H. lia.
Qed.

Lemma demo_keys_NoDup a n : NoDup (demo_key <$> seq a n).
Proof. apply NoDup_fmap_2; [apply demo_key_inj | apply NoDup_seq]. Qed.

Lemma demo_key_elem n a m : demo_key n ∈ demo_key <$> seq a m ↔ (a ≤ n < a + m)%nat.
Proof.
  rewrite list_elem_of_fmap. split.
  - intros (x & Hx & Hin). apply demo_key_inj in Hx. subst x. now apply elem_of_seq in Hin.
  - intros H. exists n. split; [reflexivity | now apply elem_of_seq].
Qed.

(** Four idle workers take the four keys that wait in the queue. *)
Lemma run_four_takes p k0 k1 k2 k3 :
  workers p = [Idle; Idle; Idle; Idle] →
  thumbQ p = [k0; k1; k2; k3] →
  run [EvTake 0; EvTake 1; EvTake 2; EvTake 3] p
  = Some (mkPool (thumbReady p) (thumbInflight p) [] (quitThumb p) (repaintCh p)
            [Busy k0; Busy k1; Busy k2; Busy k3] (deleted p)).
Proof.
  intros Hw HQ. simpl. unfold worker_take at 1. rewrite Hw, HQ. simpl. reflexivity.
Qed.

(** The burst runs, and this is the state it ends in. *)
Lemma burst_runs :
  ∃ p, run burst newPool = Some p
       ∧ thumbQ p = demo_key <$> seq 4 256
       ∧ thumbReady p = ∅
       ∧ workers p = [Busy (demo_key 0); Busy (demo_key 1); Busy (demo_key 2); Busy (demo_key 3)]
       ∧ (∀ n, demo_key n ∈ thumbInflight p ↔ (n < 260)%nat).
Proof.
  destruct (run_ensure_new (demo_key <$> seq 0 4) newPool)
    as (p1 & Hrun1 & HQ1 & Hr1 & Hw1 & Hfl1).
  { apply demo_keys_NoDup. }
  { intros k _ Hk. now apply not_elem_of_empty in Hk. }
  { reflexivity. }
  { rewrite length_fmap, length_seq. unfold thumbQ_cap. simpl. lia. }
  change (thumbQ p1 = [demo_key 0; demo_key 1; demo_key 2; demo_key 3]) in HQ1.
  change (workers p1 = [Idle; Idle; Idle; Idle]) in Hw1.
  pose proof (run_four_takes p1 _ _ _ _ Hw1 HQ1) as Hrun2.
  set (p2 := mkPool (thumbReady p1) (thumbInflight p1) [] (quitThumb p1) (repaintCh p1)
               [Busy (demo_key 0); Busy (demo_key 1); Busy (demo_key 2); Busy (demo_key 3)]
               (deleted p1)) in Hrun2.
  destruct (run_ensure_new (demo_key <$> seq 4 256) p2)
    as (p3 & Hrun3 & HQ3 & Hr3 & Hw3 & Hfl3).
  { apply demo_keys_NoDup. }
  { intros k Hk Hin. change (k ∈ thumbInflight p1) in Hin.
    apply list_elem_of_fmap in Hk as (n & -> & Hn). apply elem_of_seq in Hn.
    apply Hfl1 in Hin as [Hin|Hin].
    - apply (demo_key_elem n 0 4) in Hin. lia.
    - now apply not_elem_of_empty in Hin. }
  { exact Hr1. }
  { change (length (@nil thumbKey) + length (demo_key <$> seq 4 256) ≤ thumbQ_cap)%nat.
    rewrite length_fmap, length_seq. unfold thumbQ_cap. simpl. lia. }
  exists p3. split; [|split; [|split; [|split]]].
  - unfold burst. rewrite (run_after _ _ _ _ Hrun1).
    rewrite (run_after _ _ _ _ Hrun2). exact Hrun3.
  - exact HQ3.
  - exact Hr3.
  - exact Hw3.
  - intros n. rewrite Hfl3. change (thumbInflight p2) with (thumbInflight p1).
    rewrite Hfl1, (demo_key_elem n 4 256), (demo_key_elem n 0 4). split.
    + intros [H|[H|H]]; [lia | lia | now apply not_elem_of_empty in H].
    + intros H. destruct (decide (n < 4)%nat); [right; left; lia | left; lia].
Qed.

Lemma default_Some {A} (d x : A) (o : option A) : o = Some x → default d o = x.
Proof. now intros ->. Qed.

(** After a key was asked for on a full queue, a worker can still finish
    its tile and take the next, and the key can be asked for again. *)
Lemma retry_runs p k k0 ws k1 rest res :
  thumbReady p !! k = None →
  k ∉ thumbInflight p →
  length (thumbQ p) = thumbQ_cap →
  workers p = Busy k0 :: ws →
  thumbQ p = k1 :: rest →
  ran (run [EvFinish 0 res; EvTake 0; ensure_key k]
         (ensureThumb (path k) (wpx k) (hpx k) p).2) = true.
Proof.
  intros Hready Hnew Hfull Hw HQ. unfold ensureThumb.
  rewrite key_eta, Hready. case_bool_decide; [contradiction|].
  rewrite Hfull, Nat.ltb_irrefl. simpl.
  unfold worker_finish. simpl. rewrite Hw. simpl.
  unfold worker_take. simpl. rewrite HQ. reflexivity.
Qed.

Lemma inflight_entry_leaks_when_queue_full_witness :
  demo_key 260 ∈ thumbInflight settled_pool
  ∧ thumbReady settled_pool !! demo_key 260 = None.
Proof.
  destruct burst_runs as (p & Hrun & HQ & Hr & Hw & Hfl).
  assert (Hp : busy_pool = p) by (apply default_Some; exact Hrun).
  assert (H1 : run burst newPool = Some busy_pool) by (rewrite Hp; exact Hrun).
  assert (H2 : thumbReady busy_pool !! demo_key 260 = None)
    by (rewrite Hp, Hr; apply lookup_empty).
  assert (H3 : demo_key 260 ∉ thumbInflight busy_pool)
    by (rewrite Hp, Hfl; lia).
  assert (H4 : length (thumbQ busy_pool) = thumbQ_cap)
    by (rewrite Hp, HQ, length_fmap, length_seq; reflexivity).
  assert (H5 : run retry asked_pool = Some settled_pool).
  { apply run_defined.
    refine (retry_runs busy_pool (demo_key 260) (demo_key 0) _ (demo_key 4)
              (demo_key <$> seq 5 255) _ H2 H3 H4 _ _).
    - rewrite Hp. exact Hw.
    - rewrite Hp. exact HQ. }
  destruct (inflight_entry_leaks_when_queue_full burst busy_pool (demo_key 260)
              retry settled_pool H1 H2 H3 H4 H5) as (_ & Hin & Hready & _).
  split; [exact Hin | exact Hready].
Defined.

End grid_props.

(* ===================================================================== *)
(** ** Properties of the backend selection and of the kitty renderer *)
(* ===================================================================== *)

Module backend_props.
Import term gostd backend.

Lemma string_ind3 (P : string → Prop) :
  P "" →
  (∀ a, P (String a "")) →
  (∀ a b, P (String a (String b ""))) →
  (∀ a b c r, P r → P (String a (String b (String c r)))) →
  ∀ s, P s.
Proof.
  intros H0 H1 H2 H3. fix IH 1.
  intros [|a [|b [|c r]]]; [exact H0 | apply H1 | apply H2 | apply H3; apply IH].
Qed.

Lemma encode_at_base64 v : is_base64 (encode_at v) = true.
Proof.
  unfold encode_at.
  assert (Hlt : (N.to_nat (N.land v 63) < 64)%nat).
  { change 63%N with (N.ones 6). rewrite N.land_ones.
    pose proof (N.mod_upper_bound v (2 ^ 6)) as Hb. change (2 ^ 6)%N with 64%N in *. lia. }
  revert Hlt. generalize (N.to_nat (N.land v 63)) as n. intros n Hn.
  do 64 (destruct n as [|n]; [reflexivity|]). lia.
Qed.

Lemma EncodeToString_base64 src : all_bytes is_base64 (EncodeToString src) = true.
Proof.
  induction src as [|a|a b|a b c r IH] using string_ind3;
    cbn [EncodeToString all_bytes]; rewrite ?encode_at_base64, ?IH; reflexivity.
Qed.

Lemma EncodeToString_length src :
  String.length (EncodeToString src) = (4 * ((String.length src + 2) / 3))%nat.
Proof.
  induction src as [|a|a b|a b c r IH] using string_ind3;
    cbn [EncodeToString String.length]; try reflexivity.
  rewrite IH.
  replace (S (S (S (String.length r))) + 2)%nat
    with ((String.length r + 2) + 1 * 3)%nat by lia.
  rewrite Nat.div_add by lia. lia.
Qed.

Lemma occurrences_app c a b :
  occurrences c (a +:+ b) = (occurrences c a + occurrences c b)%nat.
Proof.
  induction a as [|x a IH]; [reflexivity|].
  change (String x a +:+ b) with (String x (a +:+ b)).
  cbn [occurrences]. rewrite IH. lia.
Qed.

Lemma occurrences_char_free c s : thumb.char_free c s = true → occurrences c s = 0%nat.
Proof.
  induction s as [|x s IH]; [reflexivity|]. cbn [thumb.char_free occurrences].
  intros H. apply andb_true_iff in H as [Hx Hs]. apply negb_true_iff in Hx.
  rewrite Hx, (IH Hs). reflexivity.
Qed.

Lemma occurrences_base64 s : all_bytes is_base64 s = true → occurrences ESC s = 0%nat.
Proof.
  induction s as [|x s IH]; [reflexivity|]. cbn [all_bytes occurrences].
  intros H. apply andb_true_iff in H as [Hx Hs]. rewrite (IH Hs).
  destruct (Ascii.eqb_spec x ESC) as [->|_]; [discriminate Hx | reflexivity].
Qed.

Lemma occurrences_Itoa z : occurrences ESC (thumb.Itoa z) = 0%nat.
Proof.
  apply occurrences_char_free. apply thumb_props.Itoa_char_free; [reflexivity|discriminate].
Qed.

(** X13. A backend name that Detect returns is always one that New
    accepts, and the renderer New builds for it carries that name: "kitty"
    when the terminal answered the graphics query, "none" otherwise.  So
    the renderer runGridTUI gets from Detect("auto") and New is never nil,
    and it is the kitty renderer exactly when the terminal answered. *)
Theorem detected_backend_is_constructible :
  ∀ (U : Unicode) (kitty : bool),
    (∀ pref b, Detect kitty pref = Ok b →
       b = (if kitty then "kitty" else "none")
       ∧ ∃ rd, New b = Ok rd ∧ Name rd = b)
    ∧ detect_renderer kitty = Some (if kitty then kittyRenderer else noopRenderer).
Proof.
  intros U kitty. split.
  - intros pref b. unfold Detect.
    destruct (String.eqb (ToLower (TrimSpace pref)) "kitty").
    + destruct kitty; [|discriminate]. intros Heq. injection Heq as <-.
      split; [reflexivity|]. exists kittyRenderer. split; reflexivity.
    + destruct (_ || _); [|discriminate].
      destruct kitty; intros Heq; injection Heq as <-; (split; [reflexivity|]).
      * exists kittyRenderer. split; reflexivity.
      * exists noopRenderer. split; reflexivity.
  - destruct kitty; reflexivity.
Qed.

Lemma detected_backend_is_constructible_witness :
  "kitty" = "kitty" ∧ ∃ rd, New (U := asciiOnly) "kitty" = Ok rd ∧ Name rd = "kitty".
Proof.
  apply (proj1 (detected_backend_is_constructible asciiOnly true) " Kitty ").
  reflexivity.
Defined.

(** X14. What the kitty renderer writes for a tile.  With an empty path or
    a non-positive width or height Draw writes nothing.  Otherwise it
    writes one cursor move and one graphics command whose payload is the
    base64 text of the path: 4·⌈n/3⌉ characters for a path of n bytes, all
    of them letters, digits, '+', '/' or '=', so that no byte of a file
    name reaches the terminal as it is and the three escape characters of
    the output are the command's own. *)
Theorem kitty_Draw_quotes_the_path :
  ∀ (path : string) (cellX cellY cellW cellH : Z),
    (cellW ≤ 0 ∨ cellH ≤ 0 ∨ path = "" →
     Draw kittyRenderer path cellX cellY cellW cellH = "")
    ∧ (0 < cellW → 0 < cellH → path ≠ "" →
       Draw kittyRenderer path cellX cellY cellW cellH
       = cursor_to cellY cellX +:+ kitty_open cellW +:+ EncodeToString path +:+ kitty_close
       ∧ occurrences ESC (Draw kittyRenderer path cellX cellY cellW cellH) = 3%nat)
    ∧ all_bytes is_base64 (EncodeToString path) = true
    ∧ String.length (EncodeToString path) = (4 * ((String.length path + 2) / 3))%nat.
Proof.
  intros path x y w h. split; [|split; [|split]].
  - intros Hc. unfold Draw.
    assert (Ht : (w <=? 0) || (h <=? 0) || String.eqb path "" = true).
    { destruct Hc as [Hc|[Hc|Hc]].
      - apply Z.leb_le in Hc. now rewrite Hc.
      - apply Z.leb_le in Hc. rewrite Hc. now rewrite orb_true_r.
      - subst path. now rewrite orb_true_r. }
    now rewrite Ht.
  - intros Hw Hh Hp.
    assert (Hd : Draw kittyRenderer path x y w h
                 = cursor_to y x +:+ kitty_open w +:+ EncodeToString path +:+ kitty_close).
    { unfold Draw. apply Z.leb_gt in Hw, Hh. rewrite Hw, Hh.
      apply String.eqb_neq in Hp. now rewrite Hp. }
    split; [exact Hd|]. rewrite Hd.
    unfold cursor_to, kitty_open, kitty_close.
    change (String ESC ?a +:+ ?b) with (String ESC (a +:+ b)).
    cbn [occurrences]. rewrite Ascii.eqb_refl.
    rewrite !occurrences_app.
    change (String ESC ?a +:+ ?b) with (String ESC (a +:+ b)).
    cbn [occurrences]. rewrite Ascii.eqb_refl.
    rewrite !occurrences_app, !occurrences_Itoa.
    rewrite (occurrences_base64 _ (EncodeToString_base64 path)).
    reflexivity.
  - apply EncodeToString_base64.
  - apply EncodeToString_length.
Qed.

Lemma kitty_Draw_quotes_the_path_witness :
  Draw kittyRenderer "" 1 1 4 4 = ""
  ∧ occurrences ESC (Draw kittyRenderer "a.png" 1 1 4 4) = 3%nat.
Proof.
  split.
  - apply (proj1 (kitty_Draw_quotes_the_path "" 1 1 4 4)). right. right. reflexivity.
  - refine (proj2 (proj1 (proj2 (kitty_Draw_quotes_the_path "a.png" 1 1 4 4)) _ _ _));
      [lia | lia | discriminate].
Defined.

End backend_props.

(* ===================================================================== *)
(** * Properties of the candidates, the layout and the navigation *)
(* ===================================================================== *)

Module cli_props.
Import gostd cli.

Lemma passes_kind kind filter :
  passes kind filter = true → kind = "image" ∨ kind = "video".
Proof.
  unfold passes.
  destruct (String.eqb filter filterImages);
    [intros H; left; now apply String.eqb_eq|].
  destruct (String.eqb filter filterVideos);
    [intros H; right; now apply String.eqb_eq|].
  destruct (_ || _); [|discriminate].
  intros H. apply orb_true_iff in H as [H|H]; apply String.eqb_eq in H; auto.
Qed.

(** X15. A filter that normalizeFilter accepts is one of "both", "images"
    and "videos"; normalizing it again returns it unchanged; and no filter,
    normalized or not, lets a candidate through whose kind is not "image"
    or "video". *)
Theorem normalized_filter_is_understood :
  ∀ (U : Unicode),
    (∀ filter m, normalizeFilter filter = Ok m →
       (m = "both" ∨ m = "images" ∨ m = "videos") ∧ normalizeFilter m = Ok m)
    ∧ (∀ kind filter, passes kind filter = true → kind = "image" ∨ kind = "video").
Proof.
  intros U. split; [|apply passes_kind].
  intros filter m. unfold normalizeFilter at 1.
  destruct (_ || _); [intros H; injection H as <-; split; [auto | reflexivity]|].
  destruct (_ || _); [intros H; injection H as <-; split; [auto | reflexivity]|].
  destruct (_ || _); [intros H; injection H as <-; split; [auto | reflexivity]|].
  discriminate.
Qed.

Lemma normalized_filter_is_understood_witness :
  ("images" = "both" ∨ "images" = "images" ∨ "images" = "videos")
  ∧ normalizeFilter (U := asciiOnly) "images" = Ok "images".
Proof.
  apply (proj1 (normalized_filter_is_understood asciiOnly) " Image ").
  reflexivity.
Defined.

Lemma existsb_eqb_In (x : string) (l : list string) :
  existsb (String.eqb x) l = true → In x l.
Proof.
  intros H. apply existsb_exists in H as (y & Hy & Heq).
  apply String.eqb_eq in Heq. now subst.
Qed.

(** X16. The scanner and the thumbnail service agree on what a video is:
    for a path on which both lower-case the same extension, classify says
    "video" exactly when the service's isVideo holds (and then magick is
    given the first frame, "[0]"), and what classify calls an image the
    service does not treat as a video. *)
Theorem classify_agrees_with_the_service :
  ∀ (U : Unicode) (lib : thumb.GoLib) (path : string),
    thumb.strings_ToLower (thumb.filepath_Ext path) = ToLower (Ext path) →
    (classify path = "video" ↔ thumb.isVideo path = true)
    ∧ (classify path = "video" ↔ thumb.srcFrameSuffix path = "[0]")
    ∧ (classify path = "image" → thumb.isVideo path = false).
Proof.
  intros U lib path Hext.
  unfold classify, thumb.isVideo, thumb.srcFrameSuffix. rewrite Hext.
  set (ext := ToLower (Ext path)).
  destruct (existsb (String.eqb ext) [".jpg"; _; _; _; _; _; _; _; _; _]) eqn:Himg.
  - apply existsb_eqb_In in Himg.
    assert (Hvid : existsb (String.eqb ext)
                     [".mp4"; ".mov"; ".mkv"; ".webm"; ".avi"; ".m4v"] = false).
    { simpl in Himg. repeat (destruct Himg as [<-|Himg]; [reflexivity|]). contradiction. }
    rewrite Hvid. repeat split; intros; try discriminate; reflexivity.
  - destruct (existsb (String.eqb ext) [".mp4"; _; _; _; _; _]);
      repeat split; intros; try discriminate; reflexivity.
Qed.

Lemma classify_agrees_with_the_service_witness :
  classify (U := asciiOnly) "/pics/Clip.MP4" = "video"
  ↔ thumb.isVideo (lib := goLib) "/pics/Clip.MP4" = true.
Proof.
  apply (classify_agrees_with_the_service asciiOnly goLib "/pics/Clip.MP4").
  reflexivity.
Defined.

(** The loop of filterCandidates keeps: the slice built so far is the
    filtered part of what was read, and the array is unchanged from the
    length of that slice on. *)
Lemma filterCandidates_loop_spec mode input : ∀ todo i j arr,
  length arr = length input →
  (j ≤ i)%nat → (i + todo = length input)%nat →
  take j arr = List.filter (λ c, passes (Kind c) mode) (take i input) →
  drop j arr = drop j input →
  ∀ j' arr', filterCandidates_loop mode todo i j arr = (j', arr') →
    take j' arr' = List.filter (λ c, passes (Kind c) mode) input
    ∧ length arr' = length input
    ∧ drop j' arr' = drop j' input.
Proof.
  induction todo as [|todo IH]; intros i j arr Hlen Hji Hend Htake Hdrop j' arr' Hrun;
    simpl in Hrun.
  - injection Hrun as <- <-. rewrite Nat.add_0_r in Hend. subst i.
    rewrite firstn_all in Htake. auto.
  - assert (Hi : (i < length input)%nat) by lia.
    destruct (lookup_lt_is_Some_2 input i Hi) as [c Hc].
    assert (Hread : arr !! i = Some c).
    { rewrite <- (Nat.sub_add j i Hji), Nat.add_comm, <- lookup_drop, Hdrop, lookup_drop.
      rewrite Nat.add_comm, Nat.sub_add by exact Hji. exact Hc. }
    rewrite Hread in Hrun.
    assert (Hnext : take (S i) input = take i input ++ [c]) by now apply take_S_r.
    destruct (passes (Kind c) mode) eqn:Hp.
    + apply (IH (S i) (S j) (<[j := c]> arr)); try exact Hrun.
      * now rewrite length_insert.
      * lia.
      * lia.
      * rewrite Hnext, List.filter_app. simpl. rewrite Hp.
        rewrite (take_S_r _ _ c) by (apply list_lookup_insert_eq; lia).
        rewrite take_insert_ge by lia. now rewrite Htake.
      * rewrite drop_insert_lt by lia.
        replace (S j) with (j + 1)%nat by lia.
        now rewrite <- !drop_drop, Hdrop.
    + apply (IH (S i) j arr); try exact Hrun; try assumption; try lia.
      rewrite Hnext, List.filter_app. simpl. rewrite Hp. now rewrite app_nil_r.
Qed.

(** X17. filterCandidates filters in place and still returns the right
    slice: although it appends to a slice that shares the array it is
    reading, the result holds exactly the candidates whose kind passes the
    filter, in their order; the array keeps its length and, from the
    length of the result on, its old content. *)
Theorem filterCandidates_in_place :
  ∀ (input : list Candidate) (mode : string),
    (filterCandidates input mode).1 = List.filter (λ c, passes (Kind c) mode) input
    ∧ length (filterCandidates input mode).2 = length input
    ∧ drop (length (filterCandidates input mode).1) (filterCandidates input mode).2
      = drop (length (filterCandidates input mode).1) input.
Proof.
  intros input mode. unfold filterCandidates.
  destruct (filterCandidates_loop mode (length input) 0 0 input) as [j arr] eqn:Hrun.
  destruct (filterCandidates_loop_spec mode input (length input) 0 0 input
              eq_refl (Nat.le_refl 0) eq_refl eq_refl eq_refl j arr Hrun)
    as (Hout & Hlen & Hrest).
  simpl. split; [exact Hout|]. split; [exact Hlen|].
  assert (Hj : (j ≤ length arr)%nat).
  { destruct (Nat.le_gt_cases j (length arr)) as [H|H]; [exact H|].
    exfalso. clear Hout Hrest.
    assert (Hgen : ∀ todo i j0 a j1 a1,
              filterCandidates_loop mode todo i j0 a = (j1, a1) →
              (j0 ≤ i)%nat → (i + todo ≤ length a)%nat →
              (j1 ≤ length a1)%nat).
    { induction todo as [|todo IH]; intros i j0 a j1 a1 Hr Hle Hb; simpl in Hr.
      - injection Hr as <- <-. lia.
      - destruct (a !! i) as [c|]; [|injection Hr as <- <-; lia].
        destruct (passes (Kind c) mode).
        + apply (IH _ _ _ _ _ Hr); [lia|]. rewrite length_insert. lia.
        + apply (IH _ _ _ _ _ Hr); lia. }
    pose proof (Hgen _ _ _ _ _ _ Hrun (Nat.le_refl 0) (Nat.le_refl _)). lia. }
  rewrite length_take, Nat.min_l by exact Hj. exact Hrest.
Qed.

Section ScanFacts.
Context {U : Unicode} {P : Paths}.

Lemma walkDir_scanned cfg : ∀ d path cands,
  Forall (scanned cfg) cands →
  Forall (scanned cfg) (walkDir cfg path d cands).1
  ∧ ∃ more, (walkDir cfg path d cands).1 = cands ++ more.
Proof.
  fix IH 1. intros [name listing|name info] path cands Hc; simpl.
  - destruct (String.eqb _ _);
      [split; [exact Hc | exists []; now rewrite app_nil_r]|].
    destruct listing as [entries|];
      [|split; [exact Hc | exists []; now rewrite app_nil_r]].
    revert cands Hc. induction entries as [|d1 rest IHrest]; intros cands Hc.
    + split; [exact Hc | exists []; now rewrite app_nil_r].
    + destruct (IH d1 (filepath_Join path (entry_name d1)) cands Hc) as [H1 [m1 E1]].
      destruct (walkDir cfg (filepath_Join path (entry_name d1)) d1 cands)
        as [cands' [|]]; simpl in H1, E1.
      * destruct (IHrest cands' H1) as [H2 [m2 E2]]. split; [exact H2|].
        exists (m1 ++ m2). rewrite E2, E1. now rewrite app_assoc.
      * split; [exact H1 | exists m1; exact E1].
  - destruct (passes (classify path) (Filter cfg)) eqn:Hp; simpl;
      [|split; [exact Hc | exists []; now rewrite app_nil_r]].
    destruct info as [[size mtime]|]; simpl;
      [|split; [exact Hc | exists []; now rewrite app_nil_r]].
    split; [|eexists; reflexivity].
    apply Forall_app. split; [exact Hc|]. apply Forall_singleton.
    split; [reflexivity | exact Hp].
Qed.

End ScanFacts.

(** X27. What scanPath collects, and what main's filter step does to it.
    Every candidate that scanPath returns, also together with an error,
    carries the kind classify gives its path, and that kind passes the
    configured filter (so it is "image" or "video"); nothing is collected
    when the root cannot be stat-ed or is the cache directory itself.
    filterCandidates with the same filter, the next step of main, returns
    the scanned candidates unchanged. *)
Theorem scan_collects_only_what_passes :
  ∀ (U : Unicode) (P : Paths) (root : string) (at_root : option entry) (cfg : Config),
    Forall (λ c, Kind c = classify (Path c)
                 ∧ passes (Kind c) (Filter cfg) = true
                 ∧ (Kind c = "image" ∨ Kind c = "video"))
           (scanPath root at_root cfg).1
    ∧ (filterCandidates (scanPath root at_root cfg).1 (Filter cfg)).1
      = (scanPath root at_root cfg).1
    ∧ (at_root = None → scanPath root at_root cfg = ([], Stopped))
    ∧ (∀ name listing, at_root = Some (Dir name listing) →
         toAbs root = toAbs (CacheDir cfg) →
         scanPath root at_root cfg = ([], Walked)).
Proof.
  intros U P root at_root cfg.
  assert (Hall : Forall (scanned cfg) (scanPath root at_root cfg).1).
  { unfold scanPath. destruct at_root as [d|]; [|constructor].
    apply walkDir_scanned. constructor. }
  split; [|split; [|split]].
  - eapply Forall_impl; [exact Hall|]. intros c [Hk Hp].
    split; [exact Hk|]. split; [exact Hp|]. now apply (passes_kind _ (Filter cfg)).
  - rewrite (proj1 (filterCandidates_in_place _ _)).
    induction Hall as [|c l [_ Hp] _ IH]; [reflexivity|].
    simpl. rewrite Hp. now f_equal.
  - intros ->. reflexivity.
  - intros name listing -> Heq. unfold scanPath. simpl.
    apply String.eqb_eq in Heq. now rewrite Heq.
Qed.

Lemma sanitize_rune_printable r : 32 ≤ sanitize_rune r ∧ sanitize_rune r ≠ 127.
Proof.
  unfold sanitize_rune.
  destruct (r =? 27) eqn:H1; [simpl; lia|].
  destruct (r =? 10) eqn:H2; [simpl; lia|].
  destruct (r =? 13) eqn:H3; [simpl; lia|].
  destruct (r =? 9) eqn:H4; [simpl; lia|].
  destruct (r <? 32) eqn:H5; [simpl; lia|].
  destruct (r =? 127) eqn:H6; [simpl; lia|].
  simpl. apply Z.ltb_ge in H5. apply Z.eqb_neq in H6. lia.
Qed.

Lemma sanitize_rune_fixed r : 32 ≤ r → r ≠ 127 → sanitize_rune r = r.
Proof.
  intros H1 H2. unfold sanitize_rune.
  assert (E1 : (r =? 27) = false) by (apply Z.eqb_neq; lia).
  assert (E2 : (r =? 10) = false) by (apply Z.eqb_neq; lia).
  assert (E3 : (r =? 13) = false) by (apply Z.eqb_neq; lia).
  assert (E4 : (r =? 9) = false) by (apply Z.eqb_neq; lia).
  assert (E5 : (r <? 32) = false) by (apply Z.ltb_ge; lia).
  assert (E6 : (r =? 127) = false) by (apply Z.eqb_neq; lia).
  now rewrite E1, E2, E3, E4, E5, E6.
Qed.

(** X18. sanitizePrintable lets no control character through: of the
    runes of its argument it replaces exactly those below U+0020 and
    U+007F by a space and keeps every other rune where it was, so the
    result has as many runes as the argument, none of them ESC, a line
    break, a tab or DEL, and sanitizing twice is sanitizing once. *)
Theorem sanitizePrintable_removes_controls :
  ∀ (rs : list Z),
    length (sanitizePrintable rs) = length rs
    ∧ Forall (λ r, 32 ≤ r ∧ r ≠ 127) (sanitizePrintable rs)
    ∧ (∀ i r, rs !! i = Some r →
         sanitizePrintable rs !! i = Some (if (r <? 32) || (r =? 127) then 32 else r))
    ∧ sanitizePrintable (sanitizePrintable rs) = sanitizePrintable rs.
Proof.
  intros rs. unfold sanitizePrintable. split; [apply length_map|]. split; [|split].
  - apply Forall_forall. intros r Hr. apply list_elem_of_fmap in Hr as (r0 & -> & _).
    apply sanitize_rune_printable.
  - intros i r Hi. change (map sanitize_rune rs) with (sanitize_rune <$> rs).
    rewrite list_lookup_fmap, Hi. simpl. f_equal.
    destruct ((r <? 32) || (r =? 127)) eqn:Hbad.
    + unfold sanitize_rune. apply orb_true_iff in Hbad as [->| ->];
        now rewrite ?orb_true_r.
    + apply orb_false_iff in Hbad as [Hlt Hne].
      apply sanitize_rune_fixed; [now apply Z.ltb_ge | now apply Z.eqb_neq].
  - rewrite map_map. apply map_ext. intros r.
    destruct (sanitize_rune_printable r). now apply sanitize_rune_fixed.
Qed.

(** *** Arithmetic on [int] *)

Lemma wrap_range z : int_min ≤ wrap z ≤ int_max.
Proof.
  unfold wrap, int_min, int_max.
  pose proof (Z.mod_pos_bound (z + 2 ^ 63) (2 ^ 64) eq_refl). lia.
Qed.

Lemma wrap_small z : int_min ≤ z ≤ int_max → wrap z = z.
Proof.
  unfold wrap, int_min, int_max. intros Hz. rewrite Z.mod_small; lia.
Qed.

Lemma wrap_nonzero z : 0 < z < 2 ^ 64 → wrap z ≠ 0.
Proof.
  unfold wrap. intros Hz Hw.
  pose proof (Z.div_mod (z + 2 ^ 63) (2 ^ 64) ltac:(lia)) as Hdm.
  pose proof (Z.mod_pos_bound (z + 2 ^ 63) (2 ^ 64) eq_refl) as Hb.
  assert (Hr : (z + 2 ^ 63) mod 2 ^ 64 = 2 ^ 63) by lia.
  rewrite Hr in Hdm.
  assert (Hq : (z + 2 ^ 63) / 2 ^ 64 = 0 ∨ (z + 2 ^ 63) / 2 ^ 64 ≠ 0) by lia.
  destruct Hq as [Hq|Hq]; [rewrite Hq in Hdm; lia|].
  assert (0 ≤ (z + 2 ^ 63) / 2 ^ 64) by (apply Z.div_pos; lia).
  assert ((z + 2 ^ 63) / 2 ^ 64 < 2) by (apply Z.div_lt_upper_bound; lia).
  lia.
Qed.

Lemma quo_small a b :
  0 ≤ a ≤ int_max → 0 < b → quo a b = Some (a / b).
Proof.
  intros Ha Hb. unfold quo.
  destruct (b =? 0) eqn:Hz; [apply Z.eqb_eq in Hz; lia|].
  rewrite Z.quot_div_nonneg by lia. rewrite wrap_small; [reflexivity|].
  assert (0 ≤ a / b) by (apply Z.div_pos; lia).
  assert (a / b ≤ a) by (apply Z.div_le_upper_bound; nia).
  unfold int_min, int_max in *. lia.
Qed.

Lemma quo_defined a b : b ≠ 0 → ∃ q, quo a b = Some q.
Proof.
  intros Hb. unfold quo. destruct (b =? 0) eqn:Hz; [apply Z.eqb_eq in Hz; lia|eauto].
Qed.

Lemma rem_small a b :
  0 ≤ a → 0 < b → rem a b = Some (a mod b).
Proof.
  intros Ha Hb. unfold rem.
  destruct (b =? 0) eqn:Hz; [apply Z.eqb_eq in Hz; lia|].
  now rewrite Z.rem_mod_nonneg by lia.
Qed.

Ltac exact_int :=
  repeat match goal with
  | |- context [wrap ?z] => rewrite (wrap_small z) by (unfold int_min, int_max; lia)
  end.

(** *** The layout *)

Lemma computeLayout_total v :
  ∃ L, computeLayout v = Some L
       ∧ 8 ≤ tileW L ≤ int_max ∧ 3 ≤ tileH L ≤ int_max ∧ 1 ≤ cols L
       ∧ add (tileW L) gutter ≠ 0 ∧ add (tileH L) gutter ≠ 0
       ∧ gridX L = 1 ∧ gridY L = 2.
Proof.
  unfold computeLayout, clampTile.
  set (tw := if add baseTileW (mul (zoom v) 4) <? 8 then 8
             else add baseTileW (mul (zoom v) 4)).
  set (th := if add baseTileH (mul (zoom v) 2) <? 3 then 3
             else add baseTileH (mul (zoom v) 2)).
  assert (Htw : 8 ≤ tw ≤ int_max).
  { unfold tw, add. pose proof (wrap_range (baseTileW + mul (zoom v) 4)).
    destruct (_ <? 8) eqn:Hc; [unfold int_max; lia|]. apply Z.ltb_ge in Hc.
    unfold add in Hc. lia. }
  assert (Hth : 3 ≤ th ≤ int_max).
  { unfold th, add. pose proof (wrap_range (baseTileH + mul (zoom v) 2)).
    destruct (_ <? 3) eqn:Hc; [unfold int_max; lia|]. apply Z.ltb_ge in Hc.
    unfold add in Hc. lia. }
  assert (Hsw : add tw gutter ≠ 0).
  { apply wrap_nonzero. unfold gutter, int_max in *. lia. }
  assert (Hsh : add th gutter ≠ 0).
  { apply wrap_nonzero. unfold gutter, int_max in *. lia. }
  destruct (quo_defined (add (w v) gutter) _ Hsw) as [qc Hqc].
  destruct (quo_defined (sub (contentH v) th) _ Hsh) as [qr Hqr].
  rewrite Hqc, Hqr.
  assert (Hcols : ∀ c : Z, 1 ≤ (if c <? 1 then 1 else c)).
  { intros c. destruct (c <? 1) eqn:Hc; [lia|]. now apply Z.ltb_ge in Hc. }
  destruct (w v <? tw); destruct (contentH v <? th); simpl;
    eexists; (split; [reflexivity|]); simpl;
    (repeat split; try apply Htw; try apply Hth; try apply Hcols; auto; lia).
Qed.

Lemma computeLayout_facts v :
  0 < w v < size_bound → 0 ≤ contentH v < size_bound →
  ∃ L, computeLayout v = Some L ∧ layout_of v L.
Proof.
  intros Hw Hh. unfold size_bound in *.
  unfold computeLayout, clampTile.
  set (tw := if add baseTileW (mul (zoom v) 4) <? 8 then 8
             else add baseTileW (mul (zoom v) 4)).
  set (th := if add baseTileH (mul (zoom v) 2) <? 3 then 3
             else add baseTileH (mul (zoom v) 2)).
  assert (Htw : 8 ≤ tw ≤ int_max).
  { unfold tw, add. pose proof (wrap_range (baseTileW + mul (zoom v) 4)).
    destruct (_ <? 8) eqn:Hc; [unfold int_max; lia|]. apply Z.ltb_ge in Hc.
    unfold add in Hc. lia. }
  assert (Hth : 3 ≤ th ≤ int_max).
  { unfold th, add. pose proof (wrap_range (baseTileH + mul (zoom v) 2)).
    destruct (_ <? 3) eqn:Hc; [unfold int_max; lia|]. apply Z.ltb_ge in Hc.
    unfold add in Hc. lia. }
  assert (Hc : ∃ c, (if w v <? tw then Some 1 else quo (add (w v) gutter) (add tw gutter))
                    = Some c
                    ∧ 1 ≤ c < 2 ^ 31
                    ∧ (w v < tw → c = 1)
                    ∧ (tw ≤ w v → c * (tw + 2) ≤ w v + 2 < (c + 1) * (tw + 2))).
  { destruct (w v <? tw) eqn:Hlt.
    - apply Z.ltb_lt in Hlt. exists 1. repeat split; try lia.
    - apply Z.ltb_ge in Hlt. unfold add, gutter. exact_int.
      rewrite quo_small by (unfold int_max; lia).
      exists ((w v + 2) / (tw + 2)).
      pose proof (Z.mul_div_le (w v + 2) (tw + 2) ltac:(lia)).
      pose proof (Z.mul_succ_div_gt (w v + 2) (tw + 2) ltac:(lia)).
      assert (1 ≤ (w v + 2) / (tw + 2)) by (apply Z.div_le_lower_bound; lia).
      assert ((w v + 2) / (tw + 2) ≤ w v + 2) by (apply Z.div_le_upper_bound; nia).
      repeat split; try lia. }
  destruct Hc as (c & Hc & Hc1 & Hc2 & Hc3). rewrite Hc. simpl.
  assert (Hcc : (if c <? 1 then 1 else c) = c).
  { destruct (c <? 1) eqn:Hlt; [apply Z.ltb_lt in Hlt; lia | reflexivity]. }
  rewrite Hcc.
  assert (Hr : ∃ r, (if contentH v <? th then Some 0
                     else q ← quo (sub (contentH v) th) (add th gutter); Some (add 1 q))
                    = Some r
                    ∧ 0 ≤ r < 2 ^ 31
                    ∧ (contentH v < th → r = 0)
                    ∧ (th ≤ contentH v →
                       1 ≤ r ∧ (r - 1) * (th + 2) + th ≤ contentH v < r * (th + 2) + th)).
  { destruct (contentH v <? th) eqn:Hlt.
    - apply Z.ltb_lt in Hlt. exists 0. repeat split; try lia.
    - apply Z.ltb_ge in Hlt. unfold add, sub, gutter. exact_int.
      rewrite quo_small by (unfold int_max; lia). simpl.
      pose proof (Z.mul_div_le (contentH v - th) (th + 2) ltac:(lia)).
      pose proof (Z.mul_succ_div_gt (contentH v - th) (th + 2) ltac:(lia)).
      assert (0 ≤ (contentH v - th) / (th + 2)) by (apply Z.div_pos; lia).
      assert ((contentH v - th) / (th + 2) ≤ contentH v - th)
        by (apply Z.div_le_upper_bound; nia).
      exact_int. exists (1 + (contentH v - th) / (th + 2)).
      repeat split; try lia. }
  destruct Hr as (r & Hr & Hr1 & Hr2 & Hr3). rewrite Hr. simpl.
  eexists. split; [reflexivity|].
  constructor; simpl; unfold contentY, headerH, size_bound; auto; lia.
Qed.

(** *** The cursor *)

Ltac obind :=
  cbn [mbind option_bind fmap option_fmap option_map mret option_ret].

Ltac cmp :=
  rewrite ?Z.geb_leb, ?Z.gtb_ltb in *;
  repeat match goal with
  | |- context [?a <? ?b] => destruct (Z.ltb_spec a b)
  | |- context [?a <=? ?b] => destruct (Z.leb_spec a b)
  end.

Lemma div_unique_row a b c r :
  0 < b → a = b * (c / b) + r → 0 ≤ r < b → a / b = c / b.
Proof.
  intros Hb Ha Hr. symmetry. apply (Z.div_unique a b (c / b) r); [lia|exact Ha].
Qed.

Section Navigation.
Context (n : Z) (Hn : 1 ≤ n < size_bound).

Lemma dataRows_facts v L :
  computeLayout v = Some L → layout_of v L →
  dataRows n v = Some ((n + cols L - 1) / cols L)
  ∧ 1 ≤ (n + cols L - 1) / cols L ≤ n
  ∧ ((n + cols L - 1) / cols L - 1) * cols L < n ≤ (n + cols L - 1) / cols L * cols L.
Proof.
  intros HL Hlo. destruct Hlo. unfold size_bound in *.
  unfold dataRows. rewrite HL. simpl. unfold add, sub. exact_int.
  rewrite quo_small by (unfold int_max; lia).
  split; [reflexivity|].
  pose proof (Z.mul_div_le (n + cols L - 1) (cols L) ltac:(lia)).
  pose proof (Z.mul_succ_div_gt (n + cols L - 1) (cols L) ltac:(lia)).
  assert ((n + cols L - 1) / cols L ≤ n) by (apply Z.div_le_upper_bound; nia).
  assert (1 ≤ (n + cols L - 1) / cols L) by (apply Z.div_le_lower_bound; lia).
  nia.
Qed.

Lemma curRow_facts v L :
  computeLayout v = Some L → layout_of v L → 0 ≤ cur v < n →
  curRow v = Some (cur v / cols L)
  ∧ curCol v = Some (cur v mod cols L)
  ∧ 0 ≤ cur v / cols L < (n + cols L - 1) / cols L
  ∧ 0 ≤ cur v mod cols L < cols L.
Proof.
  intros HL Hlo Hc. destruct (dataRows_facts v L HL Hlo) as (_ & Hd1 & Hd2).
  destruct Hlo. unfold size_bound in *.
  unfold curRow, curCol. rewrite HL. simpl.
  rewrite quo_small by (unfold int_max; lia). rewrite rem_small by lia.
  split; [reflexivity|]. split; [reflexivity|].
  pose proof (Z.mod_pos_bound (cur v) (cols L) ltac:(lia)).
  assert (0 ≤ cur v / cols L) by (apply Z.div_pos; lia).
  split; [|lia]. split; [lia|].
  apply Z.div_lt_upper_bound; nia.
Qed.

Lemma moveTo_facts ncur v L :
  computeLayout v = Some L → layout_of v L → 0 ≤ topRow v ≤ n →
  ∃ top,
    moveTo n ncur v = Some (set_topRow top (set_cur (Z.max 0 (Z.min ncur (n - 1))) v))
    ∧ 0 ≤ top ≤ Z.max 0 ((n + cols L - 1) / cols L - rows L)
    ∧ (1 ≤ rows L →
       top ≤ Z.max 0 (Z.min ncur (n - 1)) / cols L < top + rows L).
Proof.
  intros HL Hlo Htop.
  set (nc := Z.max 0 (Z.min ncur (n - 1))).
  assert (Hnc : 0 ≤ nc < n) by (unfold nc; lia).
  assert (HL' : computeLayout (set_cur nc v) = Some L) by exact HL.
  assert (Hlo' : layout_of (set_cur nc v) L) by (destruct Hlo; constructor; assumption).
  destruct (dataRows_facts _ L HL' Hlo') as (Hdr & Hd1 & Hd2).
  destruct (curRow_facts (set_cur nc v) L HL' Hlo' Hnc) as (Hcr & _ & Hr & _).
  simpl in Hcr, Hr.
  set (dr := (n + cols L - 1) / cols L) in *.
  set (r := nc / cols L) in *.
  unfold moveTo.
  assert (Hclamp : (if (if ncur <? 0 then 0 else ncur) >=? n then sub n 1
                    else if ncur <? 0 then 0 else ncur) = nc).
  { unfold nc, sub. unfold size_bound in *. exact_int. cmp; lia. }
  rewrite Hclamp. fold nc. rewrite Hcr. simpl. rewrite HL'. simpl. rewrite Hdr. simpl.
  destruct Hlo. unfold size_bound in *.
  match goal with |- ∃ top, Some (set_topRow ?t _) = _ ∧ _ => exists t end.
  split; [reflexivity|].
  change (topRow (set_cur nc v)) with (topRow v).
  unfold add, sub, max. rewrite ?Z.geb_leb, ?Z.gtb_ltb.
  set (t1 := if r <? topRow v then r else topRow v).
  assert (Ht1 : t1 = Z.min r (topRow v)) by (unfold t1; cmp; lia).
  rewrite (wrap_small (t1 + rows L)) by (unfold int_min, int_max; lia).
  rewrite (wrap_small (r - rows L)) by (unfold int_min, int_max; lia).
  rewrite (wrap_small (r - rows L + 1)) by (unfold int_min, int_max; lia).
  rewrite (wrap_small (dr - rows L)) by (unfold int_min, int_max; lia).
  set (t2 := if t1 + rows L <=? r then r - rows L + 1 else t1).
  assert (Ht2 : (1 ≤ rows L → t2 ≤ r < t2 + rows L) ∧ - 2 ^ 31 ≤ t2 ≤ r + 1)
    by (unfold t2; cmp; lia).
  clearbody t2. clearbody t1.
  set (t3 := if t2 <? 0 then 0 else t2).
  assert (Ht3 : t3 = Z.max 0 t2) by (unfold t3; cmp; lia).
  set (mt := if dr - rows L <? 0 then 0 else dr - rows L).
  assert (Hmt : mt = Z.max 0 (dr - rows L)) by (unfold mt; cmp; lia).
  clearbody t3 mt. cmp; lia.
Qed.

Lemma view_layout v :
  view_inv n v → ∃ L, computeLayout v = Some L ∧ layout_of v L.
Proof.
  intros (_ & _ & Hw & Hh & Hc & _). apply computeLayout_facts; [exact Hw|].
  rewrite Hc. unfold size_bound in *. lia.
Qed.

Lemma steps_nonzero v L :
  layout_of v L → add (tileW L) gutter ≠ 0 ∧ add (tileH L) gutter ≠ 0.
Proof.
  intros Hlo. destruct Hlo.
  split; apply wrap_nonzero; unfold gutter, int_max in *; lia.
Qed.

Lemma maxTop_facts v L :
  computeLayout v = Some L → layout_of v L →
  max 0 (sub ((n + cols L - 1) / cols L) (rows L))
  = Z.max 0 ((n + cols L - 1) / cols L - rows L)
  ∧ 0 ≤ Z.max 0 ((n + cols L - 1) / cols L - rows L) ≤ n.
Proof.
  intros HL Hlo. destruct (dataRows_facts v L HL Hlo) as (_ & Hd & _).
  destruct Hlo. unfold size_bound in *. unfold max, sub. exact_int.
  split; [cmp; lia | lia].
Qed.

Lemma inv_set_topRow t v : view_inv n v → 0 ≤ t ≤ n → view_inv n (set_topRow t v).
Proof. intros (H1 & H2 & H3 & H4 & H5 & H6) Ht. repeat split; simpl; try lia; apply H6. Qed.

Lemma inv_set_awaitGG b v : view_inv n v → view_inv n (set_awaitGG b v).
Proof. intros H. exact H. Qed.

Lemma moveTo_inv x v :
  view_inv n v →
  ∃ v', moveTo n x v = Some v' ∧ view_inv n v' ∧ cur v' = Z.max 0 (Z.min x (n - 1)).
Proof.
  intros Hinv. destruct (view_layout v Hinv) as (L & HL & Hlo).
  pose proof Hinv as (H1 & H2 & H3 & H4 & H5 & H6).
  destruct (moveTo_facts x v L HL Hlo H2) as (top & Hm & Ht & _).
  destruct (maxTop_facts v L HL Hlo) as [_ Hmax].
  eexists. split; [exact Hm|]. split; [|reflexivity].
  repeat split; simpl; try lia; apply H6.
Qed.

Lemma scroll_down_inv v :
  view_inv n v → ∃ v', scroll_down n v = Some v' ∧ view_inv n v'.
Proof.
  intros Hinv. destruct (view_layout v Hinv) as (L & HL & Hlo).
  destruct (dataRows_facts v L HL Hlo) as (Hdr & _).
  destruct (maxTop_facts v L HL Hlo) as [Hmt Hmax].
  pose proof Hinv as (H1 & H2 & H3 & H4 & H5 & H6).
  unfold scroll_down. rewrite HL. obind. rewrite Hdr. obind. rewrite Hmt.
  eexists. split; [reflexivity|]. unfold size_bound in *.
  destruct (Z.ltb_spec (topRow v) (Z.max 0 ((n + cols L - 1) / cols L - rows L)));
    [|exact Hinv].
  apply inv_set_topRow; [exact Hinv|]. unfold add. exact_int. lia.
Qed.

Lemma scroll_up_inv v : view_inv n v → view_inv n (scroll_up v).
Proof.
  intros Hinv. pose proof Hinv as (H1 & H2 & _). unfold scroll_up, size_bound in *.
  rewrite Z.gtb_ltb. destruct (Z.ltb_spec 0 (topRow v)); [|exact Hinv].
  apply inv_set_topRow; [exact Hinv|]. unfold sub. exact_int. lia.
Qed.

Lemma half_rows v L :
  layout_of v L →
  ∃ d, quo (rows L) 2 = Some (rows L / 2) ∧ max 1 (rows L / 2) = d ∧ 1 ≤ d < size_bound.
Proof.
  intros Hlo. destruct Hlo. unfold size_bound in *.
  assert (0 ≤ rows L / 2 ≤ rows L)
    by (split; [apply Z.div_pos | apply Z.div_le_upper_bound]; lia).
  exists (max 1 (rows L / 2)).
  split; [apply quo_small; unfold int_max; lia|]. split; [reflexivity|].
  unfold max. cmp; lia.
Qed.

Lemma half_page_down_inv v :
  view_inv n v → ∃ v', half_page_down n v = Some v' ∧ view_inv n v'.
Proof.
  intros Hinv. destruct (view_layout v Hinv) as (L & HL & Hlo).
  destruct (dataRows_facts v L HL Hlo) as (Hdr & _).
  destruct (maxTop_facts v L HL Hlo) as [Hmt Hmax].
  destruct (half_rows v L Hlo) as (d & Hq & Hd & Hdb).
  pose proof Hinv as (H1 & H2 & H3 & H4 & H5 & H6).
  unfold half_page_down. rewrite HL. obind. rewrite Hq. obind. rewrite Hdr. obind.
  rewrite Hmt, Hd. eexists. split; [reflexivity|].
  apply inv_set_topRow; [exact Hinv|]. unfold add, size_bound in *. exact_int.
  cmp; lia.
Qed.

Lemma half_page_up_inv v :
  view_inv n v → ∃ v', half_page_up v = Some v' ∧ view_inv n v'.
Proof.
  intros Hinv. destruct (view_layout v Hinv) as (L & HL & Hlo).
  destruct (half_rows v L Hlo) as (d & Hq & Hd & Hdb).
  pose proof Hinv as (H1 & H2 & H3 & H4 & H5 & H6).
  unfold half_page_up. rewrite HL. obind. rewrite Hq. obind. rewrite Hd.
  eexists. split; [reflexivity|].
  apply inv_set_topRow; [exact Hinv|]. unfold sub, size_bound in *. exact_int.
  cmp; lia.
Qed.

Lemma page_down_inv v :
  view_inv n v → ∃ v', page_down n v = Some v' ∧ view_inv n v'.
Proof.
  intros Hinv. destruct (view_layout v Hinv) as (L & HL & Hlo).
  destruct (dataRows_facts v L HL Hlo) as (Hdr & _).
  destruct (curRow_facts v L HL Hlo (proj1 Hinv)) as (Hr & Hc & _).
  unfold page_down. rewrite HL. obind. rewrite Hc. obind. rewrite Hr. obind.
  rewrite Hdr. obind.
  match goal with |- ∃ v', moveTo n ?x v = _ ∧ _ =>
    destruct (moveTo_inv x v Hinv) as (v' & Hm & Hv & _) end.
  eauto.
Qed.

Lemma page_up_inv v :
  view_inv n v → ∃ v', page_up n v = Some v' ∧ view_inv n v'.
Proof.
  intros Hinv. destruct (view_layout v Hinv) as (L & HL & Hlo).
  destruct (curRow_facts v L HL Hlo (proj1 Hinv)) as (Hr & Hc & _).
  unfold page_up. rewrite HL. obind. rewrite Hc. obind. rewrite Hr. obind.
  match goal with |- ∃ v', moveTo n ?x v = _ ∧ _ =>
    destruct (moveTo_inv x v Hinv) as (v' & Hm & Hv & _) end.
  eauto.
Qed.

Ltac move_or_stay Hinv :=
  match goal with
  | |- ∃ v', (if ?c then moveTo n ?x ?v else Some ?v) = Some v' ∧ _ =>
      destruct c;
      [destruct (moveTo_inv x v Hinv) as (v' & Hm & Hv & _); eauto | eauto]
  end.

Lemma move_up_inv v : view_inv n v → ∃ v', move_up n v = Some v' ∧ view_inv n v'.
Proof.
  intros Hinv. destruct (view_layout v Hinv) as (L & HL & Hlo).
  unfold move_up. rewrite HL. obind. move_or_stay Hinv.
Qed.

Lemma move_down_inv v : view_inv n v → ∃ v', move_down n v = Some v' ∧ view_inv n v'.
Proof.
  intros Hinv. destruct (view_layout v Hinv) as (L & HL & Hlo).
  unfold move_down. rewrite HL. obind. move_or_stay Hinv.
Qed.

Lemma move_right_inv v : view_inv n v → ∃ v', move_right n v = Some v' ∧ view_inv n v'.
Proof.
  intros Hinv. destruct (view_layout v Hinv) as (L & HL & Hlo).
  destruct (curRow_facts v L HL Hlo (proj1 Hinv)) as (_ & Hc & _).
  unfold curCol in Hc. rewrite HL in Hc. simpl in Hc.
  unfold move_right. rewrite HL. obind. rewrite Hc. obind. move_or_stay Hinv.
Qed.

Lemma move_left_inv v : view_inv n v → ∃ v', move_left n v = Some v' ∧ view_inv n v'.
Proof.
  intros Hinv. destruct (view_layout v Hinv) as (L & HL & Hlo).
  destruct (curRow_facts v L HL Hlo (proj1 Hinv)) as (_ & Hc & _).
  unfold curCol in Hc. rewrite HL in Hc. simpl in Hc.
  unfold move_left. rewrite HL. obind. rewrite Hc. obind. move_or_stay Hinv.
Qed.

Lemma resize_inv w2 h2 v :
  view_inv n v → w2 < size_bound → h2 < size_bound → view_inv n (resize w2 h2 v).
Proof.
  intros (H1 & H2 & H3 & H4 & H5 & H6) Hw Hh. unfold resize, size_bound in *.
  rewrite !Z.gtb_ltb.
  assert (Hh' : 0 < (if 0 <? h2 then h2 else 24) < 2 ^ 31) by (cmp; lia).
  assert (Hw' : 0 < (if 0 <? w2 then w2 else 80) < 2 ^ 31) by (cmp; lia).
  repeat split; simpl; unfold size_bound; try lia; try apply H6.
  set (hh := if 0 <? h2 then h2 else 24) in *. clearbody hh.
  unfold sub, headerH, footerH. exact_int. cmp; lia.
Qed.

Lemma initial_inv w0 h0 g :
  w0 < size_bound → h0 < size_bound → view_inv n (initial w0 h0 g).
Proof.
  intros Hw Hh. unfold initial, size_bound in *.
  assert (Hh' : 0 < (if h0 <=? 0 then 24 else h0) < 2 ^ 31) by (cmp; lia).
  assert (Hw' : 0 < (if w0 <=? 0 then 80 else w0) < 2 ^ 31) by (cmp; lia).
  repeat split; simpl; unfold int_min, int_max, size_bound; try lia.
  set (hh := if h0 <=? 0 then 24 else h0) in *. clearbody hh.
  unfold sub, headerH, footerH. exact_int. cmp; lia.
Qed.

Lemma hit_defined v L top cx cy :
  layout_of v L → ∃ t, hit n L top cx cy = Some t ∧ ∀ idx, t = Some idx → 0 ≤ idx < n.
Proof.
  intros Hlo. destruct (steps_nonzero v L Hlo) as [Hsw Hsh]. unfold hit.
  destruct (_ && _); [|eexists; split; [reflexivity|discriminate]].
  destruct (quo_defined (sub cx (gridX L)) _ Hsw) as [qc ->].
  destruct (quo_defined (sub cy (gridY L)) _ Hsh) as [qr ->]. obind.
  destruct (_ && _); [|eexists; split; [reflexivity|discriminate]].
  destruct (_ && _); [|eexists; split; [reflexivity|discriminate]].
  destruct (_ && _) eqn:Hin; [|eexists; split; [reflexivity|discriminate]].
  eexists. split; [reflexivity|]. intros idx Heq. injection Heq as <-.
  apply andb_true_iff in Hin as [Ha Hb].
  rewrite Z.geb_leb in Ha. apply Z.leb_le in Ha. apply Z.ltb_lt in Hb. lia.
Qed.

Lemma mouse_inv btn cx cy v :
  view_inv n v → ∃ v', mouse n btn cx cy v = Some v' ∧ view_inv n v'.
Proof.
  intros Hinv. destruct (view_layout v Hinv) as (L & HL & Hlo).
  destruct (steps_nonzero v L Hlo) as [Hsw Hsh].
  unfold mouse. rewrite HL. obind.
  destruct (_ && _); [|eauto].
  destruct (quo_defined (sub cx (gridX L)) _ Hsw) as [qc ->].
  destruct (quo_defined (sub cy (gridY L)) _ Hsh) as [qr ->]. obind.
  destruct (btn =? 64).
  { eexists. split; [reflexivity|]. apply inv_set_awaitGG, scroll_up_inv, Hinv. }
  destruct (btn =? 65).
  { destruct (scroll_down_inv v Hinv) as (v' & -> & Hv). obind. eauto. }
  destruct (hit_defined v L (topRow v) cx cy Hlo) as (t & -> & _). obind.
  destruct t as [idx|]; [|eauto].
  destruct (btn <? 64); [|eauto].
  destruct (moveTo_inv idx v Hinv) as (v' & -> & Hv & _). obind. eauto.
Qed.

Lemma continue_safe o :
  (∃ v', o = Some v' ∧ view_inv n v') → safe n (continue o).
Proof. intros (v' & -> & Hv). exact Hv. Qed.

Lemma csi_safe b3 v : view_inv n v → safe n (csi n b3 v).
Proof.
  intros Hinv. unfold csi.
  repeat match goal with |- context [if ?c then _ else _] => destruct c end;
    apply continue_safe;
    auto using move_up_inv, move_down_inv, move_left_inv, move_right_inv,
               page_up_inv, page_down_inv; eauto.
Qed.

Lemma key_safe b v : view_inv n v → safe n (key n b v).
Proof.
  intros Hinv. pose proof Hinv as (H1 & H2 & H3 & H4 & H5 & H6). unfold key.
  destruct (_ || _); [exact I|].
  destruct (b =? 12)%N; [apply continue_safe; eauto|].
  destruct (b =? 5)%N; [apply continue_safe, scroll_down_inv, Hinv|].
  destruct (b =? 25)%N; [apply continue_safe; eauto using scroll_up_inv|].
  destruct (b =? 4)%N; [apply continue_safe, half_page_down_inv, Hinv|].
  destruct (b =? 21)%N; [apply continue_safe, half_page_up_inv, Hinv|].
  destruct (b =? 6)%N; [apply continue_safe, page_down_inv, Hinv|].
  destruct (b =? 2)%N; [apply continue_safe, page_up_inv, Hinv|].
  destruct (b =? 71)%N.
  { apply continue_safe. destruct (moveTo_inv (sub n 1) v Hinv) as (v' & -> & Hv & _).
    eauto. }
  destruct (b =? 103)%N.
  { destruct (awaitGG v); [|exact Hinv]. apply continue_safe.
    destruct (moveTo_inv 0 v Hinv) as (v' & -> & Hv & _). simpl.
    eexists. split; [reflexivity|]. apply inv_set_topRow; [exact Hv|lia]. }
  destruct (b =? 107)%N; [apply continue_safe, move_up_inv, Hinv|].
  destruct (b =? 106)%N; [apply continue_safe, move_down_inv, Hinv|].
  destruct (b =? 104)%N; [apply continue_safe, move_left_inv, Hinv|].
  destruct (b =? 108)%N; [apply continue_safe, move_right_inv, Hinv|].
  destruct (_ || _).
  { apply continue_safe. eexists. split; [reflexivity|].
    repeat split; simpl; try lia; apply wrap_range. }
  destruct (_ || _).
  { apply continue_safe. eexists. split; [reflexivity|].
    pose proof (wrap_range (zoom v - 1)).
    repeat split; simpl; try lia; unfold sub; cmp; unfold int_min, int_max in *; lia. }
  destruct (b =? 112)%N; [apply continue_safe; eauto|].
  destruct (_ || _).
  { destruct (_ && _) eqn:Hin; [|discriminate Hin || (simpl; lia)].
    simpl. lia. }
  apply continue_safe; eauto.
Qed.

Lemma handle_safe i v : view_inv n v → input_ok i → safe n (handle n i v).
Proof.
  intros Hinv Hi. destruct i; simpl.
  - destruct Hi. now apply resize_inv.
  - now apply key_safe.
  - exact I.
  - exact I.
  - now apply csi_safe.
  - destruct (mouse_inv btn cx cy v Hinv) as (v' & -> & Hv). exact Hv.
  - exact Hinv.
  - exact I.
Qed.

Lemma session_safe inputs : ∀ v,
  view_inv n v → Forall input_ok inputs →
  match session n inputs v with
  | inl v' => view_inv n v'
  | inr r => safe n r ∧ ∀ v', r ≠ Continue v'
  end.
Proof.
  induction inputs as [|i rest IH]; intros v Hinv Hok; simpl; [exact Hinv|].
  apply Forall_cons in Hok as [Hi Hrest].
  pose proof (handle_safe i v Hinv Hi) as Hs.
  destruct (handle n i v) as [v'| idx | | |]; simpl in Hs.
  - now apply IH.
  - split; [exact Hs | discriminate].
  - split; [exact I | discriminate].
  - split; [exact I | discriminate].
  - contradiction.
Qed.

Lemma move_left_cur v L :
  view_inv n v → computeLayout v = Some L → layout_of v L →
  ∃ v', move_left n v = Some v'
        ∧ cur v' = (if 0 <? cur v mod cols L then cur v - 1 else cur v).
Proof.
  intros Hinv HL Hlo. pose proof Hinv as (H1 & _).
  destruct (curRow_facts v L HL Hlo H1) as (_ & Hc & _ & Hm).
  unfold curCol in Hc. rewrite HL in Hc. cbn [mbind option_bind] in Hc.
  unfold move_left. rewrite HL. obind. rewrite Hc. obind. rewrite Z.gtb_ltb.
  destruct (Z.ltb_spec 0 (cur v mod cols L)); [|eauto].
  destruct (moveTo_inv (sub (cur v) 1) v Hinv) as (v' & Hm' & _ & Hcur).
  exists v'. split; [exact Hm'|]. rewrite Hcur. unfold sub, size_bound in *.
  pose proof (Z.mod_le (cur v) (cols L) ltac:(lia) ltac:(lia)).
  exact_int. lia.
Qed.

Lemma move_right_cur v L :
  view_inv n v → computeLayout v = Some L → layout_of v L →
  ∃ v', move_right n v = Some v'
        ∧ cur v' = (if (cur v mod cols L <? cols L - 1) && (cur v + 1 <? n)
                    then cur v + 1 else cur v).
Proof.
  intros Hinv HL Hlo. pose proof Hinv as (H1 & _).
  destruct (curRow_facts v L HL Hlo H1) as (_ & Hc & _ & Hm).
  unfold curCol in Hc. rewrite HL in Hc. cbn [mbind option_bind] in Hc.
  pose proof (lo_cols _ _ Hlo) as Hcols.
  unfold move_right. rewrite HL. obind. rewrite Hc. obind.
  unfold sub, add, size_bound in *. exact_int.
  destruct ((cur v mod cols L <? cols L - 1) && (cur v + 1 <? n)) eqn:Hgo; [|eauto].
  apply andb_true_iff in Hgo as [_ Hlt]. apply Z.ltb_lt in Hlt.
  destruct (moveTo_inv (cur v + 1) v Hinv) as (v' & Hm' & _ & Hcur).
  exists v'. split; [exact Hm'|]. rewrite Hcur. lia.
Qed.

Lemma move_up_cur v L :
  view_inv n v → computeLayout v = Some L → layout_of v L →
  ∃ v', move_up n v = Some v'
        ∧ cur v' = (if cols L <=? cur v then cur v - cols L else cur v).
Proof.
  intros Hinv HL Hlo. pose proof Hinv as (H1 & _).
  pose proof (lo_cols _ _ Hlo) as Hcols.
  unfold move_up. rewrite HL. obind. rewrite Z.geb_leb.
  unfold sub, size_bound in *. exact_int.
  destruct (Z.leb_spec 0 (cur v - cols L)) as [Hge|Hlt].
  - destruct (moveTo_inv (cur v - cols L) v Hinv) as (v' & Hm' & _ & Hcur).
    exists v'. split; [exact Hm'|]. rewrite Hcur.
    destruct (Z.leb_spec (cols L) (cur v)); lia.
  - exists v. split; [reflexivity|]. destruct (Z.leb_spec (cols L) (cur v)); lia.
Qed.

Lemma move_down_cur v L :
  view_inv n v → computeLayout v = Some L → layout_of v L →
  ∃ v', move_down n v = Some v'
        ∧ cur v' = (if cur v + cols L <? n then cur v + cols L else cur v).
Proof.
  intros Hinv HL Hlo. pose proof Hinv as (H1 & _).
  pose proof (lo_cols _ _ Hlo) as Hcols.
  unfold move_down. rewrite HL. obind.
  unfold add, size_bound in *. exact_int.
  destruct (Z.ltb_spec (cur v + cols L) n) as [Hlt|Hge]; [|eauto].
  destruct (moveTo_inv (cur v + cols L) v Hinv) as (v' & Hm' & _ & Hcur).
  exists v'. split; [exact Hm'|]. rewrite Hcur. lia.
Qed.

End Navigation.

(** X19. computeLayout never panics and never returns a degenerate grid:
    for every state of the view, whatever the zoom level and the terminal
    size, the two divisions have a non-zero divisor, a tile is at least 8
    columns wide and 3 rows high, there is at least one column, and the
    pixel box asked of the thumbnail service for a tile is at least 8 by 8
    (so GenerateRect is never called from the grid with a non-positive
    dimension). *)
Theorem layout_is_always_defined :
  ∀ (v : View),
    ∃ L, computeLayout v = Some L
         ∧ 8 ≤ tileW L ∧ 3 ≤ tileH L ∧ 1 ≤ cols L
         ∧ 8 ≤ (thumb_box L).1 ∧ 8 ≤ (thumb_box L).2.
Proof.
  intros v. destruct (computeLayout_total v) as (L & HL & Hw & Hh & Hc & _).
  exists L. split; [exact HL|]. repeat split; try lia.
  - unfold thumb_box, max. simpl. cmp; lia.
  - unfold thumb_box, max. simpl. cmp; lia.
Qed.

(** X20. The tiles that draw paints lie inside the content area and do not
    touch: for a terminal of fewer than 2^31 columns and rows, every drawn
    row of tiles ends at or above the last content row; when the terminal
    is at least one tile wide every drawn column ends at or before the
    last terminal column, and otherwise there is exactly one column; and
    consecutive columns and rows are one tile and a gutter of 2 apart. *)
Theorem tiles_fit_in_the_grid :
  ∀ (v : View) (L : Layout),
    0 < w v < size_bound → 0 ≤ contentH v < size_bound →
    computeLayout v = Some L →
    (∀ r, 0 ≤ r < rows L →
       tile_py L r = gridY L + r * (tileH L + 2)
       ∧ tile_py L r + tileH L - 1 ≤ gridY L + gridH L - 1)
    ∧ (tileW L ≤ gridW L →
       ∀ c, 0 ≤ c < cols L →
         tile_px L c = gridX L + c * (tileW L + 2)
         ∧ tile_px L c + tileW L - 1 ≤ gridX L + gridW L - 1)
    ∧ (gridW L < tileW L → cols L = 1)
    ∧ (gridH L < tileH L → rows L = 0).
Proof.
  intros v L Hw Hh HL.
  destruct (computeLayout_facts v Hw Hh) as (L' & HL' & Hlo).
  rewrite HL in HL'. injection HL' as <-.
  destruct Hlo as [lo_gridX lo_gridY lo_gridW lo_gridH lo_tileW lo_tileH lo_cols lo_rows
                   lo_narrow lo_wide lo_short lo_tall].
  unfold size_bound in *.
  split; [|split; [|split]].
  - intros r Hr.
    assert (Ht : tileH L ≤ contentH v).
    { destruct (Z.le_gt_cases (tileH L) (contentH v)) as [H|H]; [exact H|].
      apply lo_short in H. lia. }
    destruct (lo_tall Ht) as (Hr1 & Hr2 & _).
    assert (Hle : r * (tileH L + 2) ≤ (rows L - 1) * (tileH L + 2))
      by (apply Z.mul_le_mono_nonneg_r; lia).
    assert (Hnn : 0 ≤ r * (tileH L + 2)) by (apply Z.mul_nonneg_nonneg; lia).
    assert (Hpy : tile_py L r = gridY L + r * (tileH L + 2)).
    { unfold tile_py, add, mul, gutter. rewrite lo_gridY.
      rewrite (wrap_small (tileH L + 2)) by (unfold int_min, int_max; lia).
      rewrite (wrap_small (r * (tileH L + 2))) by (unfold int_min, int_max; lia).
      rewrite wrap_small by (unfold int_min, int_max; lia). reflexivity. }
    split; [exact Hpy|]. rewrite Hpy, lo_gridH. lia.
  - intros Ht c Hc. rewrite lo_gridW in Ht. destruct (lo_wide Ht) as [Hc1 _].
    assert (Hle : c * (tileW L + 2) ≤ (cols L - 1) * (tileW L + 2))
      by (apply Z.mul_le_mono_nonneg_r; lia).
    assert (Hnn : 0 ≤ c * (tileW L + 2)) by (apply Z.mul_nonneg_nonneg; lia).
    assert (Hpx : tile_px L c = gridX L + c * (tileW L + 2)).
    { unfold tile_px, add, mul, gutter. rewrite lo_gridX.
      rewrite (wrap_small (tileW L + 2)) by (unfold int_min, int_max; lia).
      rewrite (wrap_small (c * (tileW L + 2))) by (unfold int_min, int_max; lia).
      rewrite wrap_small by (unfold int_min, int_max; lia). reflexivity. }
    split; [exact Hpx|]. rewrite Hpx, lo_gridW. lia.
  - rewrite lo_gridW. exact lo_narrow.
  - rewrite lo_gridH. exact lo_short.
Qed.

Lemma tiles_fit_in_the_grid_witness :
  tile_px (mkLayout 1 2 80 22 18 6 4 3) 3 = 1 + 3 * (18 + 2)
  ∧ tile_px (mkLayout 1 2 80 22 18 6 4 3) 3 + 18 - 1 ≤ 1 + 80 - 1.
Proof.
  refine (proj1 (proj2 (tiles_fit_in_the_grid (initial 80 24 true)
                          (mkLayout 1 2 80 22 18 6 4 3) _ _ eq_refl)) _ 3 _).
  - unfold size_bound. simpl. lia.
  - unfold size_bound. vm_compute. split; [discriminate | reflexivity].
  - simpl. lia.
  - simpl. lia.
Defined.

(** X21. moveTo puts the cursor on a candidate and scrolls it into view:
    from a state of a session it never panics, the new cursor is the
    requested index clamped to 0 .. len(cands)-1, the first visible row
    stays between 0 and the number of candidates, and when the grid shows
    at least one row the cursor's tile is one of those that draw paints,
    at row cur/cols − topRow and column cur mod cols. *)
Theorem moveTo_keeps_cursor_visible :
  ∀ (n ncur : Z) (v : View),
    1 ≤ n < size_bound → view_inv n v →
    ∃ v' L,
      moveTo n ncur v = Some v'
      ∧ computeLayout v' = Some L
      ∧ view_inv n v'
      ∧ cur v' = Z.max 0 (Z.min ncur (n - 1))
      ∧ (1 ≤ rows L →
         ∃ r c, 0 ≤ r < rows L ∧ 0 ≤ c < cols L
                ∧ tile_idx L (topRow v') r c = cur v').
Proof.
  intros n ncur v Hn Hinv.
  destruct (view_layout n v Hinv) as (L & HL & Hlo).
  pose proof Hinv as (H1 & H2 & H3 & H4 & H5 & H6).
  destruct (moveTo_facts n Hn ncur v L HL Hlo H2) as (top & Hm & Ht & Hvis).
  destruct (moveTo_inv n Hn ncur v Hinv) as (v' & Hm' & Hv' & Hcur).
  rewrite Hm in Hm'. injection Hm' as <-.
  eexists. exists L. split; [exact Hm|]. split; [exact HL|]. split; [exact Hv'|].
  split; [reflexivity|]. intros Hrows. simpl.
  set (c := Z.max 0 (Z.min ncur (n - 1))) in *.
  destruct (Hvis Hrows) as [Hv1 Hv2].
  destruct Hlo. unfold size_bound in *.
  exists (c / cols L - top), (c mod cols L).
  assert (Hcpos : 0 < cols L) by lia.
  assert (Hc0 : 0 ≤ c < n) by (unfold c; lia).
  pose proof (Z.mod_pos_bound c (cols L) Hcpos) as Hmod.
  pose proof (Z.div_mod c (cols L) ltac:(lia)) as Hdm.
  pose proof (Z.mul_div_le c (cols L) Hcpos) as Hmul.
  assert (Hq : 0 ≤ c / cols L) by (apply Z.div_pos; lia).
  split; [lia|]. split; [lia|].
  unfold tile_idx, add, mul.
  replace (top + (c / cols L - top)) with (c / cols L) by lia.
  rewrite (wrap_small (c / cols L)) by (unfold int_min, int_max; lia).
  rewrite (wrap_small (c / cols L * cols L)) by (unfold int_min, int_max; lia).
  rewrite wrap_small by (unfold int_min, int_max; lia). lia.
Qed.

Lemma moveTo_keeps_cursor_visible_witness :
  ∃ v' L, moveTo 100 57 (initial 80 24 true) = Some v'
          ∧ computeLayout v' = Some L
          ∧ view_inv 100 v'
          ∧ cur v' = Z.max 0 (Z.min 57 (100 - 1))
          ∧ (1 ≤ rows L →
             ∃ r c, 0 ≤ r < rows L ∧ 0 ≤ c < cols L
                    ∧ tile_idx L (topRow v') r c = cur v').
Proof.
  apply (moveTo_keeps_cursor_visible 100 57 (initial 80 24 true)).
  - unfold size_bound. lia.
  - apply initial_inv; unfold size_bound; lia.
Defined.

(** X22. A session of the grid never panics.  From the initial view of a
    terminal and at least one candidate, whatever keys, escape sequences,
    mouse reports and size changes arrive, no division has a zero divisor
    and every state has its cursor on a candidate and its first visible
    row between 0 and len(cands): the reads of cands[cur] in draw and at
    Enter are in range, and the session can only end by accepting a
    candidate, by a cancel or by a read error. *)
Theorem session_never_faults :
  ∀ (n w0 h0 : Z) (useGraphics : bool) (inputs : list input),
    1 ≤ n < size_bound → w0 < size_bound → h0 < size_bound →
    Forall input_ok inputs →
    match session n inputs (initial w0 h0 useGraphics) with
    | inl v => view_inv n v ∧ draw_reads_in_range n v = true
    | inr r => safe n r ∧ ∀ v', r ≠ Continue v'
    end.
Proof.
  intros n w0 h0 g inputs Hn Hw Hh Hok.
  pose proof (session_safe n Hn inputs (initial w0 h0 g)
                (initial_inv n Hn w0 h0 g Hw Hh) Hok) as Hs.
  destruct (session n inputs (initial w0 h0 g)) as [v|r]; [|exact Hs].
  split; [exact Hs|]. destruct Hs as (Hc & _). unfold draw_reads_in_range.
  destruct (n >? 0); [|reflexivity].
  apply andb_true_iff. split; [apply Z.leb_le | apply Z.ltb_lt]; lia.
Qed.

Lemma session_never_faults_witness :
  match session 100 [Key 106; Key 43; Winch 120 40; Mouse 0 30 10; Key 103; Key 103;
                     Key 13]
          (initial 80 24 true) with
  | inl v => view_inv 100 v ∧ draw_reads_in_range 100 v = true
  | inr r => safe 100 r ∧ ∀ v', r ≠ Continue v'
  end.
Proof.
  apply (session_never_faults 100 80 24 true); try (unfold size_bound; lia).
  repeat constructor; unfold size_bound; lia.
Defined.

(** X23. The arrow keys move by one tile and keep the other coordinate.
    From a state of a session, left and right ('h', 'l' and the arrows)
    change the cursor by one and leave it in its row of the grid: left
    does nothing in the first column, right nothing in the last column or
    on the last candidate.  Up and down ('k', 'j') change it by one row of
    cols candidates and leave it in its column: up does nothing in the
    first row, down nothing when there is no candidate below. *)
Theorem arrows_keep_row_or_column :
  ∀ (n : Z) (v : View),
    1 ≤ n < size_bound → view_inv n v →
    ∃ L vl vr vu vd,
      computeLayout v = Some L
      ∧ move_left n v = Some vl ∧ move_right n v = Some vr
      ∧ move_up n v = Some vu ∧ move_down n v = Some vd
      ∧ cur vl = (if 0 <? cur v mod cols L then cur v - 1 else cur v)
      ∧ cur vr = (if (cur v mod cols L <? cols L - 1) && (cur v + 1 <? n)
                  then cur v + 1 else cur v)
      ∧ cur vu = (if cols L <=? cur v then cur v - cols L else cur v)
      ∧ cur vd = (if cur v + cols L <? n then cur v + cols L else cur v)
      ∧ cur vl / cols L = cur v / cols L ∧ cur vr / cols L = cur v / cols L
      ∧ cur vu mod cols L = cur v mod cols L ∧ cur vd mod cols L = cur v mod cols L.
Proof.
  intros n v Hn Hinv.
  destruct (view_layout n v Hinv) as (L & HL & Hlo).
  destruct (move_left_cur n Hn v L Hinv HL Hlo) as (vl & Hl & Hcl).
  destruct (move_right_cur n Hn v L Hinv HL Hlo) as (vr & Hr & Hcr).
  destruct (move_up_cur n Hn v L Hinv HL Hlo) as (vu & Hu & Hcu).
  destruct (move_down_cur n Hn v L Hinv HL Hlo) as (vd & Hd & Hcd).
  exists L, vl, vr, vu, vd.
  do 9 (split; [assumption|]).
  pose proof (lo_cols _ _ Hlo) as Hcols. destruct Hinv as (Hc & _).
  assert (Hpos : 0 < cols L) by lia.
  pose proof (Z.mod_pos_bound (cur v) (cols L) Hpos) as Hm.
  pose proof (Z.div_mod (cur v) (cols L) ltac:(lia)) as Hdm.
  rewrite Hcl, Hcr, Hcu, Hcd. clear Hcl Hcr Hcu Hcd Hl Hr Hu Hd.
  split; [|split; [|split]].
  - destruct (Z.ltb_spec 0 (cur v mod cols L)); [|reflexivity].
    apply div_unique_row with (r := cur v mod cols L - 1); lia.
  - destruct (_ && _) eqn:Hgo; [|reflexivity].
    apply andb_true_iff in Hgo as [Hgo _]. apply Z.ltb_lt in Hgo.
    apply div_unique_row with (r := cur v mod cols L + 1); lia.
  - destruct (Z.leb_spec (cols L) (cur v)); [|reflexivity].
    replace (cur v - cols L) with (cur v + (-1) * cols L) by lia.
    apply Z.mod_add. lia.
  - destruct (Z.ltb_spec (cur v + cols L) n); [|reflexivity].
    replace (cur v + cols L) with (cur v + 1 * cols L) by lia.
    apply Z.mod_add. lia.
Qed.

Lemma arrows_keep_row_or_column_witness :
  ∃ L vl vr vu vd,
    computeLayout (initial 80 24 true) = Some L
    ∧ move_left 100 (initial 80 24 true) = Some vl
    ∧ move_right 100 (initial 80 24 true) = Some vr
    ∧ move_up 100 (initial 80 24 true) = Some vu
    ∧ move_down 100 (initial 80 24 true) = Some vd
    ∧ cur vl = (if 0 <? cur (initial 80 24 true) mod cols L
                then cur (initial 80 24 true) - 1 else cur (initial 80 24 true))
    ∧ cur vr = (if (cur (initial 80 24 true) mod cols L <? cols L - 1)
                   && (cur (initial 80 24 true) + 1 <? 100)
                then cur (initial 80 24 true) + 1 else cur (initial 80 24 true))
    ∧ cur vu = (if cols L <=? cur (initial 80 24 true)
                then cur (initial 80 24 true) - cols L else cur (initial 80 24 true))
    ∧ cur vd = (if cur (initial 80 24 true) + cols L <? 100
                then cur (initial 80 24 true) + cols L else cur (initial 80 24 true))
    ∧ cur vl / cols L = cur (initial 80 24 true) / cols L
    ∧ cur vr / cols L = cur (initial 80 24 true) / cols L
    ∧ cur vu mod cols L = cur (initial 80 24 true) mod cols L
    ∧ cur vd mod cols L = cur (initial 80 24 true) mod cols L.
Proof.
  apply (arrows_keep_row_or_column 100 (initial 80 24 true)).
  - unfold size_bound. lia.
  - apply initial_inv; unfold size_bound; lia.
Defined.

Lemma continue_awaitGG o v' : continue o = Continue v' → awaitGG v' = false.
Proof. destruct o as [v0|]; [|discriminate]. intros H. now injection H as <-. Qed.

(** X26. The jump keys.  From a state of a session 'G' puts the cursor on
    the last candidate.  A first 'g' changes nothing but is remembered, and
    a second 'g' right after it puts the cursor on the first candidate with
    the first row on top; every other input that the loop survives forgets
    a pending 'g', so two presses of 'g' with anything in between do not
    jump. *)
Theorem jump_keys_reach_the_ends :
  ∀ (n : Z) (v : View),
    1 ≤ n < size_bound → view_inv n v →
    (∃ v', key n 71 v = Continue v' ∧ cur v' = n - 1 ∧ awaitGG v' = false)
    ∧ (awaitGG v = false →
       ∃ v2, key n 103 v = Continue (set_awaitGG true v)
             ∧ key n 103 (set_awaitGG true v) = Continue v2
             ∧ cur v2 = 0 ∧ topRow v2 = 0 ∧ awaitGG v2 = false)
    ∧ (∀ i v', i ≠ Key 103 → handle n i v = Continue v' → awaitGG v' = false).
Proof.
  intros n v Hn Hinv. split; [|split].
  - unfold key. cbn [N.eqb Pos.eqb orb].
    destruct (moveTo_inv n Hn (sub n 1) v Hinv) as (v' & Hm & _ & Hcur).
    rewrite Hm. eexists. split; [reflexivity|]. simpl. split; [|reflexivity].
    rewrite Hcur. unfold sub, size_bound in *. exact_int. lia.
  - intros Hgg. unfold key. cbn [N.eqb Pos.eqb orb]. rewrite Hgg.
    change (awaitGG (set_awaitGG true v)) with true. cbv iota.
    destruct (moveTo_inv n Hn 0 (set_awaitGG true v) Hinv) as (v' & Hm & _ & Hcur).
    rewrite Hm. eexists. split; [reflexivity|]. split; [reflexivity|]. simpl.
    split; [rewrite Hcur; unfold size_bound in *; lia | auto].
  - intros i v' Hi. destruct i; simpl.
    + intros H. now injection H as <-.
    + unfold key.
      assert (Hb : (b =? 103)%N = false) by (apply N.eqb_neq; congruence).
      rewrite Hb.
      repeat match goal with
      | |- context [if ?c then _ else _] => destruct c
      end; try discriminate; apply continue_awaitGG.
    + discriminate.
    + discriminate.
    + unfold csi.
      repeat match goal with
      | |- context [if ?c then _ else _] => destruct c
      end; apply continue_awaitGG.
    + destruct (mouse n btn cx cy v) as [v0|] eqn:Hmouse; [|discriminate].
      intros H. injection H as <-. revert Hmouse. unfold mouse.
      destruct (computeLayout v) as [L|]; obind; [|discriminate].
      destruct (_ && _); [|intros H; now injection H as <-].
      destruct (quo (sub cx (gridX L)) _); obind; [|discriminate].
      destruct (quo (sub cy (gridY L)) _); obind; [|discriminate].
      destruct (btn =? 64); [intros H; now injection H as <-|].
      destruct (btn =? 65).
      { destruct (scroll_down n v); obind; [|discriminate].
        intros H. now injection H as <-. }
      destruct (hit n L (topRow v) cx cy) as [[idx|]|]; obind; try discriminate.
      * destruct (btn <? 64); [|intros H; now injection H as <-].
        destruct (moveTo n idx v); obind; [|discriminate].
        intros H. now injection H as <-.
      * intros H. now injection H as <-.
    + intros H. now injection H as <-.
    + discriminate.
Qed.

Lemma jump_keys_reach_the_ends_witness :
  ∃ v', key 100 71 (initial 80 24 true) = Continue v'
        ∧ cur v' = 100 - 1 ∧ awaitGG v' = false.
Proof.
  apply (jump_keys_reach_the_ends 100 (initial 80 24 true)).
  - unfold size_bound. lia.
  - apply initial_inv; unfold size_bound; lia.
Defined.

Lemma div_unique_in a b q : 0 < b → q * b ≤ a < q * b + b → a / b = q.
Proof.
  intros Hb Ha. symmetry. apply (Z.div_unique a b q (a - q * b)); lia.
Qed.

(** [hit] in closed form, for coordinates on a terminal. *)
Lemma hit_closed_form n v L top cx cy :
  1 ≤ n < size_bound → layout_of v L →
  tileW L < size_bound → tileH L < size_bound →
  0 ≤ top ≤ n → 0 ≤ cx < size_bound → 0 ≤ cy < size_bound →
  hit n L top cx cy
  = Some (if (1 <=? cx) && (2 <=? cy)
             && ((cx - 1) / (tileW L + 2) <? cols L)
             && (cx <=? (cx - 1) / (tileW L + 2) * (tileW L + 2) + tileW L)
             && (cy <=? 1 + (cy - 2) / (tileH L + 2) * (tileH L + 2) + tileH L)
             && ((top + (cy - 2) / (tileH L + 2)) * cols L + (cx - 1) / (tileW L + 2) <? n)
          then Some ((top + (cy - 2) / (tileH L + 2)) * cols L + (cx - 1) / (tileW L + 2))
          else None).
Proof.
  intros Hn Hlo HtW HtH Htop Hcx Hcy.
  destruct Hlo as [lo_gridX lo_gridY lo_gridW lo_gridH lo_tileW lo_tileH lo_cols lo_rows
                   lo_narrow lo_wide lo_short lo_tall].
  unfold size_bound in *. unfold hit. rewrite lo_gridX, lo_gridY.
  rewrite !Z.geb_leb.
  destruct (Z.leb_spec 1 cx) as [Hx|Hx]; [|reflexivity].
  destruct (Z.leb_spec 2 cy) as [Hy|Hy]; [|reflexivity].
  cbn [andb]. unfold add, sub, mul, gutter.
  rewrite (wrap_small (cx - 1)) by (unfold int_min, int_max; lia).
  rewrite (wrap_small (cy - 2)) by (unfold int_min, int_max; lia).
  rewrite (wrap_small (tileW L + 2)) by (unfold int_min, int_max; lia).
  rewrite (wrap_small (tileH L + 2)) by (unfold int_min, int_max; lia).
  rewrite (quo_small (cx - 1)) by (unfold int_max; lia).
  rewrite (quo_small (cy - 2)) by (unfold int_max; lia).
  obind. rewrite !Z.geb_leb.
  set (qc := (cx - 1) / (tileW L + 2)). set (qr := (cy - 2) / (tileH L + 2)).
  assert (Hqc : 0 ≤ qc ∧ qc * (tileW L + 2) ≤ cx - 1).
  { unfold qc. split; [apply Z.div_pos; lia|].
    pose proof (Z.mul_div_le (cx - 1) (tileW L + 2) ltac:(lia)). lia. }
  assert (Hqr : 0 ≤ qr ∧ qr * (tileH L + 2) ≤ cy - 2).
  { unfold qr. split; [apply Z.div_pos; lia|].
    pose proof (Z.mul_div_le (cy - 2) (tileH L + 2) ltac:(lia)). lia. }
  assert (Hqc' : qc ≤ cx - 1).
  { unfold qc. apply Z.div_le_upper_bound; [lia|].
    assert (0 ≤ (tileW L + 1) * (cx - 1)) by (apply Z.mul_nonneg_nonneg; lia). lia. }
  assert (Hqr' : qr ≤ cy - 2).
  { unfold qr. apply Z.div_le_upper_bound; [lia|].
    assert (0 ≤ (tileH L + 1) * (cy - 2)) by (apply Z.mul_nonneg_nonneg; lia). lia. }
  clearbody qc qr.
  destruct Hqc as [Hqc0 Hqc1]. destruct Hqr as [Hqr0 Hqr1].
  assert (Hc0 : (0 <=? qc) = true) by (apply Z.leb_le; lia).
  assert (Hr0 : (0 <=? qr) = true) by (apply Z.leb_le; lia).
  rewrite Hc0, Hr0. cbn [andb]. rewrite andb_true_r.
  destruct (Z.ltb_spec qc (cols L)) as [Hlt|Hge]; [|reflexivity]. cbn [andb].
  assert (Hnn1 : 0 ≤ qc * (tileW L + 2)) by (apply Z.mul_nonneg_nonneg; lia).
  assert (Hnn2 : 0 ≤ qr * (tileH L + 2)) by (apply Z.mul_nonneg_nonneg; lia).
  rewrite (wrap_small (qc * (tileW L + 2))) by (unfold int_min, int_max; lia).
  rewrite (wrap_small (qr * (tileH L + 2))) by (unfold int_min, int_max; lia).
  rewrite (wrap_small (1 + qc * (tileW L + 2))) by (unfold int_min, int_max; lia).
  rewrite (wrap_small (2 + qr * (tileH L + 2))) by (unfold int_min, int_max; lia).
  rewrite (wrap_small (1 + qc * (tileW L + 2) + tileW L))
    by (unfold int_min, int_max; lia).
  rewrite (wrap_small (2 + qr * (tileH L + 2) + tileH L))
    by (unfold int_min, int_max; lia).
  rewrite (wrap_small (1 + qc * (tileW L + 2) + tileW L - 1))
    by (unfold int_min, int_max; lia).
  rewrite (wrap_small (2 + qr * (tileH L + 2) + tileH L - 1))
    by (unfold int_min, int_max; lia).
  replace (1 + qc * (tileW L + 2) + tileW L - 1) with (qc * (tileW L + 2) + tileW L)
    by lia.
  replace (2 + qr * (tileH L + 2) + tileH L - 1)
    with (1 + qr * (tileH L + 2) + tileH L) by lia.
  destruct (cx <=? qc * (tileW L + 2) + tileW L); [|reflexivity].
  destruct (cy <=? 1 + qr * (tileH L + 2) + tileH L); [|reflexivity]. cbn [andb].
  assert (Hprod : 0 ≤ (top + qr) * cols L ≤ (2 ^ 31 + 2 ^ 31) * (2 ^ 31 - 1)).
  { split; [apply Z.mul_nonneg_nonneg; lia|]. apply Z.mul_le_mono_nonneg; lia. }
  rewrite (wrap_small (top + qr)) by (unfold int_min, int_max; lia).
  rewrite (wrap_small ((top + qr) * cols L)) by (unfold int_min, int_max; lia).
  rewrite (wrap_small ((top + qr) * cols L + qc)) by (unfold int_min, int_max; lia).
  assert (Hi0 : (0 <=? (top + qr) * cols L + qc) = true) by (apply Z.leb_le; lia).
  rewrite Hi0. cbn [andb].
  now destruct ((top + qr) * cols L + qc <? n).
Qed.

(** X24. A press selects the tile under it, and nothing else.  On a
    terminal of fewer than 2^31 columns and rows and with tiles smaller
    than that, a press at cell (cx, cy) selects candidate idx exactly
    when idx is a candidate and the cell lies inside the rectangle where
    draw paints the tile of idx (row r ≥ 0 and column c of the grid,
    idx = (topRow+r)·cols + c); a press on a gutter, in the header or
    outside the columns selects nothing.  The row is not required to be
    one of the rows draw paints. *)
Theorem press_selects_the_tile_under_it :
  ∀ (n : Z) (v : View) (L : Layout) (top cx cy idx : Z),
    1 ≤ n < size_bound →
    0 < w v < size_bound → 0 ≤ contentH v < size_bound →
    computeLayout v = Some L →
    tileW L < size_bound → tileH L < size_bound →
    0 ≤ top ≤ n → 0 ≤ cx < size_bound → 0 ≤ cy < size_bound →
    (hit n L top cx cy = Some (Some idx)
     ↔ ∃ r c, 0 ≤ r ∧ 0 ≤ c < cols L
              ∧ idx = (top + r) * cols L + c ∧ idx < n
              ∧ gridX L + c * (tileW L + 2) ≤ cx
                  ≤ gridX L + c * (tileW L + 2) + tileW L - 1
              ∧ gridY L + r * (tileH L + 2) ≤ cy
                  ≤ gridY L + r * (tileH L + 2) + tileH L - 1).
Proof.
  intros n v L top cx cy idx Hn Hw Hh HL HtW HtH Htop Hcx Hcy.
  destruct (computeLayout_facts v Hw Hh) as (L' & HL' & Hlo).
  rewrite HL in HL'. injection HL' as <-.
  rewrite (hit_closed_form n v L top cx cy Hn Hlo HtW HtH Htop Hcx Hcy).
  destruct Hlo as [lo_gridX lo_gridY lo_gridW lo_gridH lo_tileW lo_tileH lo_cols lo_rows
                   lo_narrow lo_wide lo_short lo_tall].
  rewrite lo_gridX, lo_gridY. unfold size_bound in *.
  set (qc := (cx - 1) / (tileW L + 2)). set (qr := (cy - 2) / (tileH L + 2)).
  assert (Hqc : 0 ≤ qc ∧ qc * (tileW L + 2) ≤ cx - 1 ∨ cx < 1).
  { destruct (Z.le_gt_cases 1 cx) as [H|H]; [left|right; lia].
    unfold qc. split; [apply Z.div_pos; lia|].
    pose proof (Z.mul_div_le (cx - 1) (tileW L + 2) ltac:(lia)). lia. }
  assert (Hqr : 0 ≤ qr ∧ qr * (tileH L + 2) ≤ cy - 2 ∨ cy < 2).
  { destruct (Z.le_gt_cases 2 cy) as [H|H]; [left|right; lia].
    unfold qr. split; [apply Z.div_pos; lia|].
    pose proof (Z.mul_div_le (cy - 2) (tileH L + 2) ltac:(lia)). lia. }
  split.
  - intros Hhit. injection Hhit as Hhit.
    destruct (_ && _) eqn:Hc in Hhit; [|discriminate]. injection Hhit as <-.
    repeat (apply andb_true_iff in Hc as [Hc ?]).
    repeat match goal with
    | H : (_ <=? _) = true |- _ => apply Z.leb_le in H
    | H : (_ <? _) = true |- _ => apply Z.ltb_lt in H
    end.
    exists qr, qc. lia.
  - intros (r & c & Hr & Hc & -> & Hlt & Hxs & Hys).
    assert (Eqc : qc = c).
    { unfold qc. apply div_unique_in; lia. }
    assert (Eqr : qr = r).
    { unfold qr. apply div_unique_in; lia. }
    rewrite Eqc, Eqr.
    assert (Hall : (1 <=? cx) && (2 <=? cy) && (c <? cols L)
                   && (cx <=? c * (tileW L + 2) + tileW L)
                   && (cy <=? 1 + r * (tileH L + 2) + tileH L)
                   && ((top + r) * cols L + c <? n) = true).
    { assert (0 ≤ c * (tileW L + 2)) by (apply Z.mul_nonneg_nonneg; lia).
      assert (0 ≤ r * (tileH L + 2)) by (apply Z.mul_nonneg_nonneg; lia).
      repeat (apply andb_true_iff; split);
        try (apply Z.leb_le; lia); apply Z.ltb_lt; lia. }
    now rewrite Hall.
Qed.

Lemma press_selects_the_tile_under_it_witness :
  hit 100 (mkLayout 1 2 80 22 18 6 4 3) 0 25 11 = Some (Some 5)
  ↔ ∃ r c, 0 ≤ r ∧ 0 ≤ c < 4
           ∧ 5 = (0 + r) * 4 + c ∧ 5 < 100
           ∧ 1 + c * (18 + 2) ≤ 25 ≤ 1 + c * (18 + 2) + 18 - 1
           ∧ 2 + r * (6 + 2) ≤ 11 ≤ 2 + r * (6 + 2) + 6 - 1.
Proof.
  refine (press_selects_the_tile_under_it 100 (initial 80 24 true)
            (mkLayout 1 2 80 22 18 6 4 3) 0 25 11 5 _ _ _ eq_refl _ _ _ _ _);
    unfold size_bound;
    first [ lia | simpl; lia | vm_compute; split; [discriminate | reflexivity] ].
Defined.

End cli_props.
